(** * Opticalyx: the PSF image-analysis pipeline and the 3D viewer's state

    A shallow embedding of [src/services/geminiService.ts] (the image
    processing half: [calculateCentroid], [calculateRadialProfile],
    [checkSaturation], the log stretch of [cropImage], [estimateStats]; and
    the stripping of the data-URI prefix in [analyzePSF]), of
    [src/components/PSF3DViewer.tsx] (the sampling of the height field,
    [project], the animation tick and the pointer and wheel handlers) and of
    the checks that [processLocalImage] of the App component
    ([src/constants.ts]) runs on a loaded image.

    Numbers.  A JavaScript [number] is modelled as an exact real ([R]); the
    rounding of IEEE-754 doubles is not part of that model.  Where a
    statement turns on the rounding, as the exact position of a centroid
    does, the function is embedded a second time over binary64 values
    (module [Double]).  A division whose
    divisor the code does not guard returns a [Js.number], which has the
    non-finite values [Infinity], [-Infinity] and [NaN] written out.  Integer
    valued quantities (pixel coordinates, counters, channel values, bin
    indices) are [Z].

    Buffers.  An [ImageData] is its [width], its [height] and the
    [Uint8ClampedArray] [data], a list of channel values.  The platform
    guarantees [length data = 4 * width * height] and channel values in
    [0..255]; this is [wf_image].  Every read the modelled functions make is
    in range for such a buffer. *)

From Stdlib Require Import ZArith List Bool Reals Lia Lra Psatz.
From Stdlib Require Ascii String.
From Stdlib Require Floats.
Import ListNotations.

Local Open Scope R_scope.

(* ================================================================== *)
(** ** JavaScript values and control used by the sources *)
(* ================================================================== *)

Module Js.

(** A [number] that may be non-finite. *)
Inductive number : Type :=
| Finite (r : R)
| PosInfinity
| NegInfinity
| NaN.

(** [a / b] on finite operands: a zero divisor gives [NaN] for [0 / 0] and an
    infinity of the sign of [a] otherwise (the zeros met in the sources are
    sums of non-negative terms, hence [+0]). *)
Definition div (a b : R) : number :=
  if Req_dec_T b 0 then
    if Rlt_dec 0 a then PosInfinity
    else if Rlt_dec a 0 then NegInfinity
    else NaN
  else Finite (a / b).

(** The comparison [n >= 0]: false on [NaN]. *)
Definition ge0 (n : number) : Prop :=
  match n with
  | Finite r => 0 <= r
  | PosInfinity => True
  | NegInfinity | NaN => False
  end.

(** [Math.sign]. *)
Definition sign (r : R) : R :=
  if Rlt_dec 0 r then 1 else if Rlt_dec r 0 then -1 else 0.

(** [Number.prototype.toFixed(d)] read back by [parseFloat]: the decimal with
    [d] digits nearest to [r], the larger in magnitude on a tie (for
    magnitudes below 10^21, which the statistics never reach). *)
Definition round_half_away (r : R) : Z :=
  if Rle_dec 0 r then Zfloor (r + / 2) else (- Zfloor (- r + / 2))%Z.

Definition toFixed (d : nat) (r : R) : R :=
  IZR (round_half_away (r * 10 ^ d)) / 10 ^ d.

Definition toFixed_number (d : nat) (n : number) : number :=
  match n with
  | Finite r => Finite (toFixed d r)
  | PosInfinity => PosInfinity
  | NegInfinity => NegInfinity
  | NaN => NaN
  end.

(** The conversion applied by a store into a [Uint8ClampedArray]
    (ToUint8Clamp): clamp to [0, 255], round to nearest, ties to even. *)
Definition ToUint8Clamp (r : R) : Z :=
  let clamped := Rmin (Rmax r 0) 255 in
  let f := Zfloor clamped in
  if Rlt_dec clamped (IZR f + / 2) then f
  else if Rlt_dec (IZR f + / 2) clamped then (f + 1)%Z
  else if Z.even f then f else (f + 1)%Z.

(** [for (let i = lo; i < hi; i++)]: the values [i] takes. *)
Definition range (lo hi : Z) : list Z :=
  map (fun k => (lo + Z.of_nat k)%Z) (seq 0 (Z.to_nat (hi - lo))).

(** [for (let i = 0; i < n; i += 4)]: the values [i] takes. *)
Definition range_by4 (n : Z) : list Z :=
  map (fun k => (4 * k)%Z) (range 0 ((n + 3) / 4)).

(** A loop over the values of [l] threading the loop's variables [s]. *)
Definition for_ {A S : Type} (l : list A) (body : A -> S -> S) (s : S) : S :=
  fold_left (fun acc i => body i acc) l s.

(** [a[i]] on an array of channel values.  Out of range the read is
    [undefined]; the default [0] is never observed on a well-formed buffer. *)
Definition get (a : list Z) (i : Z) : Z :=
  if (i <? 0)%Z then 0%Z else nth (Z.to_nat i) a 0%Z.

(** [a[i] = f(a[i])] for an index inside the array. *)
Fixpoint update_nat {A : Type} (a : list A) (i : nat) (f : A -> A) : list A :=
  match a, i with
  | [], _ => []
  | v :: a', O => f v :: a'
  | v :: a', S i' => v :: update_nat a' i' f
  end.

Definition update {A : Type} (a : list A) (i : Z) (f : A -> A) : list A :=
  if (i <? 0)%Z then a else update_nat a (Z.to_nat i) f.

End Js.

(* ================================================================== *)
(** ** services: image processing *)
(* ================================================================== *)

Module ImageProcessing.
Import Js.

Record ImageData : Type := {
  width : Z;
  height : Z;
  data : list Z
}.

Definition wf_image (img : ImageData) : Prop :=
  (1 <= width img)%Z /\ (1 <= height img)%Z /\
  Z.of_nat (length (data img)) = (4 * width img * height img)%Z /\
  Forall (fun v => (0 <= v <= 255)%Z) (data img).

(** [(data[idx] + data[idx + 1] + data[idx + 2]) / 3]. *)
Definition mean3 (d : list Z) (idx : Z) : R :=
  (IZR (get d idx) + IZR (get d (idx + 1)) + IZR (get d (idx + 2))) / 3.

Definition pixel_index (img : ImageData) (x y : Z) : Z :=
  ((y * width img + x) * 4)%Z.

(** Channel [c] (0 red, 1 green, 2 blue, 3 alpha) of the pixel at [(x, y)],
    and the sum of its colour channels. *)
Definition channel (img : ImageData) (x y c : Z) : Z :=
  get (data img) (pixel_index img x y + c).

Definition rgb_sum (img : ImageData) (x y : Z) : Z :=
  (channel img x y 0 + channel img x y 1 + channel img x y 2)%Z.

(** The mean of R, G and B at [(x, y)]. *)
Definition luminosity (img : ImageData) (x y : Z) : R :=
  mean3 (data img) (pixel_index img x y).

(** *** calculateCentroid *)

Record Centroid : Type := {
  x : R;
  y : R;
  maxVal : R
}.

(** The loop variables of [calculateCentroid]. *)
Record CentroidVars : Type := {
  totalMass : R;
  sumX : R;
  sumY : R;
  runMax : R
}.

Definition centroid_init : CentroidVars :=
  {| totalMass := 0; sumX := 0; sumY := 0; runMax := 0 |}.

Definition centroid_body (img : ImageData) (py px : Z) (s : CentroidVars)
  : CentroidVars :=
  let idx := pixel_index img px py in
  let intensity := mean3 (data img) idx in
  let maxVal' := if Rgt_dec intensity (runMax s) then intensity else runMax s in
  if Rgt_dec intensity (maxVal' * 0.2) then
    {| totalMass := totalMass s + intensity;
       sumX := sumX s + IZR px * intensity;
       sumY := sumY s + IZR py * intensity;
       runMax := maxVal' |}
  else
    {| totalMass := totalMass s;
       sumX := sumX s;
       sumY := sumY s;
       runMax := maxVal' |}.

Definition centroid_row (img : ImageData) (py : Z) (s : CentroidVars)
  : CentroidVars :=
  for_ (range 0 (width img)) (centroid_body img py) s.

Definition centroid_scan (img : ImageData) : CentroidVars :=
  for_ (range 0 (height img)) (centroid_row img) centroid_init.

Definition calculateCentroid (img : ImageData) : Centroid :=
  let s := centroid_scan img in
  if Req_dec_T (totalMass s) 0 then
    {| x := IZR (width img) / 2; y := IZR (height img) / 2; maxVal := 0 |}
  else
    {| x := sumX s / totalMass s;
       y := sumY s / totalMass s;
       maxVal := runMax s |}.


(** *** calculateRadialProfile *)

Record RadialDataPoint : Type := {
  radius : Z;
  intensity : number;
  idealDiffraction : R
}.

(** The two arrays filled by the pass over the buffer. *)
Record ProfileVars : Type := {
  bins : list R;
  counts : list Z
}.

Definition getR (a : list R) (i : Z) : R :=
  if (i <? 0)%Z then 0 else nth (Z.to_nat i) a 0.

(** One turn of the inner loop.  The test [distance < maxRadius] keeps
    [binIndex] inside the two arrays, so the two updates are in range. *)
Definition profile_body (img : ImageData) (centerX centerY : R) (maxRadius : Z)
  (py px : Z) (s : ProfileVars) : ProfileVars :=
  let dx := IZR px - centerX in
  let dy := IZR py - centerY in
  let distance := sqrt (dx * dx + dy * dy) in
  if Rlt_dec distance (IZR maxRadius) then
    let binIndex := Zfloor distance in
    let idx := pixel_index img px py in
    let intensity := mean3 (data img) idx in
    {| bins := update (bins s) binIndex (fun b => b + intensity);
       counts := update (counts s) binIndex (fun c => (c + 1)%Z) |}
  else s.

Definition profile_scan (img : ImageData) (centerX centerY : R) (maxRadius : Z)
  : ProfileVars :=
  for_ (range 0 (height img))
    (fun py s =>
       for_ (range 0 (width img)) (profile_body img centerX centerY maxRadius py) s)
    {| bins := repeat 0 (Z.to_nat maxRadius);
       counts := repeat 0%Z (Z.to_nat maxRadius) |}.

Definition profile_peak (s : ProfileVars) : R :=
  if (0 <? get (counts s) 0)%Z
  then getR (bins s) 0 / IZR (get (counts s) 0)
  else 255.

Definition profile_push (s : ProfileVars) (peak : R) (i : Z)
  (profile : list RadialDataPoint) : list RadialDataPoint :=
  let avgIntensity :=
    if (0 <? get (counts s) i)%Z
    then getR (bins s) i / IZR (get (counts s) i)
    else 0 in
  profile ++
  [ {| radius := i;
       intensity := div avgIntensity peak;
       idealDiffraction := exp (- 0.1 * IZR i * IZR i) |} ].

(** [new Array(maxRadius)] throws a RangeError unless [maxRadius] is an
    integer in [0, 2^32 - 1]: the result is [None] then. *)
Definition calculateRadialProfile (img : ImageData) (centerX centerY : R)
  (maxRadius : Z) : option (list RadialDataPoint) :=
  if ((maxRadius <? 0) || (2 ^ 32 <=? maxRadius))%Z then None
  else
    let s := profile_scan img centerX centerY maxRadius in
    let peak := profile_peak s in
    Some (for_ (range 0 maxRadius) (profile_push s peak) []).

(** The entry pushed for bin [i]. *)
Definition profile_point (s : ProfileVars) (peak : R) (i : Z) : RadialDataPoint :=
  {| radius := i;
     intensity :=
       div (if (0 <? get (counts s) i)%Z
            then getR (bins s) i / IZR (get (counts s) i)
            else 0) peak;
     idealDiffraction := exp (- 0.1 * IZR i * IZR i) |}.

(** *** checkSaturation *)

Definition saturation_body (img : ImageData) (py px : Z) (saturatedPixels : Z)
  : Z :=
  let threshold := 250%Z in
  if ((0 <=? px) && (px <? width img) && (0 <=? py) && (py <? height img))%Z
  then
    let idx := pixel_index img px py in
    let r := get (data img) idx in
    let g := get (data img) (idx + 1) in
    let b := get (data img) (idx + 2) in
    if ((threshold <=? r) || (threshold <=? g) || (threshold <=? b))%Z
    then (saturatedPixels + 1)%Z
    else saturatedPixels
  else saturatedPixels.

Definition saturation_scan (img : ImageData) (centerX centerY radius : R) : Z :=
  for_ (range (Zfloor (centerY - radius)) (Zceil (centerY + radius) + 1))
    (fun py n =>
       for_ (range (Zfloor (centerX - radius)) (Zceil (centerX + radius) + 1))
         (saturation_body img py) n)
    0%Z.

Definition checkSaturation (img : ImageData) (centerX centerY radius : R)
  : bool :=
  (4 <? saturation_scan img centerX centerY radius)%Z.

(** The scanned region as the specification words it: the square of
    half-width [radius] around the centre, clipped to the buffer; and the
    number of its pixels with a channel at 250 or more. *)
Definition in_buffer (img : ImageData) (p : Z * Z) : bool :=
  let '(px, py) := p in
  ((0 <=? px) && (px <? width img) && (0 <=? py) && (py <? height img))%Z.

Definition square (centerX centerY radius : R) : list (Z * Z) :=
  flat_map
    (fun py =>
       map (fun px => (px, py))
         (range (Zfloor (centerX - radius)) (Zceil (centerX + radius) + 1)))
    (range (Zfloor (centerY - radius)) (Zceil (centerY + radius) + 1)).

Definition scanned_region (img : ImageData) (centerX centerY radius : R)
  : list (Z * Z) :=
  filter (in_buffer img) (square centerX centerY radius).

Definition saturated (img : ImageData) (p : Z * Z) : bool :=
  let '(px, py) := p in
  ((250 <=? channel img px py 0) || (250 <=? channel img px py 1)
   || (250 <=? channel img px py 2))%Z.

Definition saturated_count (img : ImageData) (centerX centerY radius : R) : Z :=
  Z.of_nat
    (length (filter (saturated img) (scanned_region img centerX centerY radius))).

(** *** cropImage: the log stretch of the cropped buffer

    The crop itself is drawn by the canvas; [imgData] is the buffer that
    [getImageData] hands back. *)

Definition constant : R := 255 / ln (1 + 255).

(** The right-hand side [constant * Math.log(1 + v)]. *)
Definition stretch (v : R) : R := constant * ln (1 + v).

(** [data[i] = constant * Math.log(1 + data[i])]: the value kept by the
    [Uint8ClampedArray]. *)
Definition stretch_store (v : Z) : Z := ToUint8Clamp (stretch (IZR v)).

(** [stretch_store] on integers.  With [u = 1 + v], eight times the curve
    is [255 * log2 u], whose floor is [Z.log2 (power255 u)]; rounding to the
    nearest integer adds a half before the division.  [tie_to_even] says
    that the value is no tie, or a tie whose even neighbour is
    [stretch_exact v]. *)
Definition power255 (u : Z) : Z := (u ^ 255)%Z.

Definition stretch_exact (v : Z) : Z :=
  ((Z.log2 (power255 (1 + v)) + 4) / 8)%Z.

Definition tie_to_even (v : Z) : bool :=
  let p := power255 (1 + v) in
  let L := Z.log2 p in
  negb ((p =? 2 ^ L)%Z && ((L + 4) mod 8 =? 0)%Z) || Z.even ((L + 4) / 8).

Definition stretch_body (i : Z) (d : list Z) : list Z :=
  let d1 := update d i stretch_store in
  let d2 := update d1 (i + 1) stretch_store in
  update d2 (i + 2) stretch_store.

(** The stretched buffer, pixel by pixel: R, G and B stored stretched, alpha
    kept. *)
Fixpoint stretch_pixels (d : list Z) : list Z :=
  match d with
  | r :: g :: b :: a :: rest =>
      stretch_store r :: stretch_store g :: stretch_store b :: a
      :: stretch_pixels rest
  | _ => d
  end.

Definition cropImage (imgData : ImageData) (applyLogStretch : bool)
  : ImageData :=
  if applyLogStretch then
    {| width := width imgData;
       height := height imgData;
       data := for_ (range_by4 (Z.of_nat (length (data imgData))))
                 stretch_body (data imgData) |}
  else imgData.

(** *** estimateStats *)

Record ProcessingStats : Type := {
  centroid : R * R;
  fwhmPixels : R;
  snr : number;
  peakIntensity : Z;
  backgroundLevel : Z
}.

Record StatsVars : Type := {
  halfMaxCount : Z;
  backgroundSum : R;
  backgroundCount : Z
}.

Definition stats_body (d : list Z) (halfMax peak : R) (i : Z) (s : StatsVars)
  : StatsVars :=
  let val := mean3 d i in
  let s1 :=
    if Rgt_dec val halfMax
    then {| halfMaxCount := halfMaxCount s + 1;
            backgroundSum := backgroundSum s;
            backgroundCount := backgroundCount s |}
    else s in
  if Rlt_dec val (peak * 0.1)
  then {| halfMaxCount := halfMaxCount s1;
          backgroundSum := backgroundSum s1 + val;
          backgroundCount := backgroundCount s1 + 1 |}
  else s1.

Definition stats_scan (img : ImageData) : StatsVars :=
  let c := calculateCentroid img in
  let halfMax := maxVal c / 2 in
  for_ (range_by4 (Z.of_nat (length (data img))))
    (stats_body (data img) halfMax (maxVal c))
    {| halfMaxCount := 0; backgroundSum := 0; backgroundCount := 0 |}.

Definition stats_fwhm (img : ImageData) : R :=
  2 * sqrt (IZR (halfMaxCount (stats_scan img)) / PI).

Definition stats_bg (img : ImageData) : R :=
  let s := stats_scan img in
  if (0 <? backgroundCount s)%Z
  then backgroundSum s / IZR (backgroundCount s)
  else 0.

Definition stats_signal (img : ImageData) : R :=
  maxVal (calculateCentroid img) - stats_bg img.

Definition stats_noise (img : ImageData) : R :=
  sqrt (stats_bg img + 1).

Definition estimateStats (img : ImageData) : ProcessingStats :=
  let c := calculateCentroid img in
  {| centroid := (x c, y c);
     fwhmPixels := toFixed 2 (stats_fwhm img);
     snr := toFixed_number 1 (div (stats_signal img) (stats_noise img));
     peakIntensity := Zfloor (maxVal c);
     backgroundLevel := Zfloor (stats_bg img) |}.

(** The count of [estimateStats] as the specification words it: the number
    of pixels whose mean of R, G and B is strictly above half of the
    centroid's [maxVal].  [pixels] reads the buffer four channel values at a
    time. *)
Fixpoint pixels (d : list Z) : list (Z * Z * Z) :=
  match d with
  | r :: g :: b :: _ :: rest => (r, g, b) :: pixels rest
  | _ => []
  end.

Definition pixel_mean (p : Z * Z * Z) : R :=
  let '(r, g, b) := p in (IZR r + IZR g + IZR b) / 3.

Definition above (t : R) (p : Z * Z * Z) : bool :=
  if Rgt_dec (pixel_mean p) t then true else false.

(** One turn of the loop of [estimateStats], as a function of the pixel. *)
Definition stats_pixel (halfMax peak : R) (p : Z * Z * Z) (s : StatsVars)
  : StatsVars :=
  let val := pixel_mean p in
  let s1 :=
    if Rgt_dec val halfMax
    then {| halfMaxCount := halfMaxCount s + 1;
            backgroundSum := backgroundSum s;
            backgroundCount := backgroundCount s |}
    else s in
  if Rlt_dec val (peak * 0.1)
  then {| halfMaxCount := halfMaxCount s1;
          backgroundSum := backgroundSum s1 + val;
          backgroundCount := backgroundCount s1 + 1 |}
  else s1.

Definition pixels_above_half_max (img : ImageData) : Z :=
  Z.of_nat
    (length (filter (above (maxVal (calculateCentroid img) / 2))
                    (pixels (data img)))).

End ImageProcessing.

(* ================================================================== *)
(** ** components: the 3D viewer *)
(* ================================================================== *)

Module PSF3DViewer.
Import Js.

(** The refs owned by the component: [angleRef], [scaleRef], [isDragging],
    [lastMousePosition], and the [zoomDisplay] state. *)
Record Viewer : Type := {
  angle_x : R;
  angle_z : R;
  scale : R;
  isDragging : bool;
  lastMouse_x : R;
  lastMouse_y : R;
  zoomDisplay : R
}.

Definition initial : Viewer :=
  {| angle_x := 0.8; angle_z := 0.5; scale := 1.2; isDragging := false;
     lastMouse_x := 0; lastMouse_y := 0; zoomDisplay := 1.2 |}.

Record Projected : Type := {
  screen_x : R;
  screen_y : R
}.

(** [project], with the canvas size [width], [height] of the props. *)
Definition project (v : Viewer) (width height : R) (x y z : R) : Projected :=
  let cosX := cos (angle_x v) in
  let sinX := sin (angle_x v) in
  let cosZ := cos (angle_z v) in
  let sinZ := sin (angle_z v) in
  let x1 := x * cosZ - y * sinZ in
  let y1 := x * sinZ + y * cosZ in
  let y2 := y1 * cosX - (z * 15) * sinX in
  let z2 := y1 * sinX + (z * 15) * cosX in
  let perspective := 400 / (500 - y2) in
  let zoom := scale v in
  {| screen_x := x1 * perspective * 8 * zoom + width / 2;
     screen_y := - z2 * perspective * 8 * zoom + height / 1.5 |}.

Definition with_azimuth (v : Viewer) (a : R) : Viewer :=
  {| angle_x := angle_x v; angle_z := a; scale := scale v;
     isDragging := isDragging v;
     lastMouse_x := lastMouse_x v; lastMouse_y := lastMouse_y v;
     zoomDisplay := zoomDisplay v |}.

(** One turn of [animate]: the idle spin ([draw] changes no state). *)
Definition animate (v : Viewer) : Viewer :=
  if negb (isDragging v) then with_azimuth v (angle_z v + 0.003) else v.

Definition handleMouseDown (clientX clientY : R) (v : Viewer) : Viewer :=
  {| angle_x := angle_x v; angle_z := angle_z v; scale := scale v;
     isDragging := true;
     lastMouse_x := clientX; lastMouse_y := clientY;
     zoomDisplay := zoomDisplay v |}.

Definition handleMouseUp (v : Viewer) : Viewer :=
  {| angle_x := angle_x v; angle_z := angle_z v; scale := scale v;
     isDragging := false;
     lastMouse_x := lastMouse_x v; lastMouse_y := lastMouse_y v;
     zoomDisplay := zoomDisplay v |}.

Definition handleMouseMove (clientX clientY : R) (v : Viewer) : Viewer :=
  if negb (isDragging v) then v
  else
    let dx := clientX - lastMouse_x v in
    let dy := clientY - lastMouse_y v in
    {| angle_x := Rmax 0.2 (Rmin (PI / 2.2) (angle_x v + dy * 0.01));
       angle_z := angle_z v + dx * 0.01;
       scale := scale v;
       isDragging := isDragging v;
       lastMouse_x := clientX; lastMouse_y := clientY;
       zoomDisplay := zoomDisplay v |}.

Definition handleWheel (deltaY : R) (v : Viewer) : Viewer :=
  let delta := - sign deltaY * 0.1 in
  let newScale := Rmin (Rmax 0.5 (scale v + delta)) 3.0 in
  {| angle_x := angle_x v; angle_z := angle_z v; scale := newScale;
     isDragging := isDragging v;
     lastMouse_x := lastMouse_x v; lastMouse_y := lastMouse_y v;
     zoomDisplay := newScale |}.

(** What the canvas and the frame scheduler deliver to the component. *)
Inductive Event : Type :=
| MouseDown (clientX clientY : R)
| MouseUp
| MouseLeave
| MouseMove (clientX clientY : R)
| Wheel (deltaY : R)
| AnimationFrame.

Definition step (v : Viewer) (e : Event) : Viewer :=
  match e with
  | MouseDown cx cy => handleMouseDown cx cy v
  | MouseUp => handleMouseUp v
  | MouseLeave => handleMouseUp v
  | MouseMove cx cy => handleMouseMove cx cy v
  | Wheel dy => handleWheel dy v
  | AnimationFrame => animate v
  end.

Definition run (v : Viewer) (es : list Event) : Viewer := fold_left step es v.

(** The bounds of the two clamps. *)
Definition zoom_in_range (v : Viewer) : Prop := 0.5 <= scale v <= 3.0.

Definition elevation_in_range (v : Viewer) : Prop :=
  0.2 <= angle_x v <= PI / 2.2.

End PSF3DViewer.

(* ================================================================== *)
(** ** Reference notions for the image passes *)
(* ================================================================== *)

Module Reference.
Import Js ImageProcessing.

(** The pixels of a buffer in the order the scans visit them: row by row,
    left to right. *)
Definition scan_order (img : ImageData) : list (Z * Z) :=
  flat_map (fun py => map (fun px => (px, py)) (range 0 (width img)))
           (range 0 (height img)).

Definition lum (img : ImageData) (p : Z * Z) : R :=
  luminosity img (fst p) (snd p).

(** A sum in the order of the list, as a loop accumulates it. *)
Definition sum_list (l : list R) : R := fold_left Rplus l 0.

(** The distance of a pixel to a centre and the pixels of ring [k]: those
    whose distance has floor [k]. *)
Definition distance (centerX centerY : R) (p : Z * Z) : R :=
  sqrt ((IZR (fst p) - centerX) * (IZR (fst p) - centerX)
        + (IZR (snd p) - centerY) * (IZR (snd p) - centerY)).

Definition in_ring (centerX centerY : R) (k : Z) (p : Z * Z) : bool :=
  (Zfloor (distance centerX centerY p) =? k)%Z.

Definition ring (img : ImageData) (centerX centerY : R) (k : Z)
  : list (Z * Z) :=
  filter (in_ring centerX centerY k) (scan_order img).

(** The number of pixels of a ring, the sum of their luminosities, their
    mean (0 for an empty ring) and the mean of ring 0 (255 when it is
    empty). *)
Definition ring_count (img : ImageData) (centerX centerY : R) (k : Z) : Z :=
  Z.of_nat (length (ring img centerX centerY k)).

Definition ring_sum (img : ImageData) (centerX centerY : R) (k : Z) : R :=
  sum_list (map (lum img) (ring img centerX centerY k)).

Definition ring_mean (img : ImageData) (centerX centerY : R) (k : Z) : R :=
  if (0 <? ring_count img centerX centerY k)%Z
  then ring_sum img centerX centerY k / IZR (ring_count img centerX centerY k)
  else 0.

Definition ring_peak (img : ImageData) (centerX centerY : R) : R :=
  if (0 <? ring_count img centerX centerY 0)%Z
  then ring_sum img centerX centerY 0 / IZR (ring_count img centerX centerY 0)
  else 255.

(** What the scan of [calculateCentroid] keeps besides [centroid_inv]: a
    positive running maximum has put mass on the scale. *)
Definition mass_inv (s : CentroidVars) : Prop :=
  0 <= runMax s /\ 0 <= totalMass s /\ (0 < runMax s -> 0 < totalMass s).

End Reference.

(* ================================================================== *)
(** ** components: the height field of the 3D viewer *)
(* ================================================================== *)

Module PSF3DGrid.
Import Js ImageProcessing PSF3DViewer.

Definition gridSize : Z := 32.

(** A point of the wire frame.  [color] is the string
    [hsl(hue, 100%, 60%)]; the model keeps its hue. *)
Record GridPoint : Type := {
  gx : R;
  gy : R;
  gz : R;
  color_hue : R
}.

(** [getColor]: the hue for a height [n]. *)
Definition getColor (n : R) : R := 240 - n * 210.

Definition stepX (img : ImageData) : R := IZR (width img) / IZR gridSize.
Definition stepY (img : ImageData) : R := IZR (height img) / IZR gridSize.

(** [Math.floor(Math.min(x * stepX, imageData.width - 1))] and the same
    for rows. *)
Definition sample_x (img : ImageData) (x : Z) : Z :=
  Zfloor (Rmin (IZR x * stepX img) (IZR (width img) - 1)).

Definition sample_y (img : ImageData) (y : Z) : Z :=
  Zfloor (Rmin (IZR y * stepY img) (IZR (height img) - 1)).

Record RowVars : Type := {
  row : list GridPoint;
  rowMaxZ : R
}.

Record GridVars : Type := {
  points : list (list GridPoint);
  maxZ : R
}.

Definition grid_cell (img : ImageData) (y x : Z) (s : RowVars) : RowVars :=
  let px := sample_x img x in
  let py := sample_y img y in
  let idx := ((py * width img + px) * 4)%Z in
  let intensity :=
    (IZR (get (data img) idx) + IZR (get (data img) (idx + 1))
     + IZR (get (data img) (idx + 2))) / (3 * 255) in
  {| row := row s ++
            [ {| gx := IZR x - IZR gridSize / 2;
                 gy := IZR y - IZR gridSize / 2;
                 gz := intensity;
                 color_hue := getColor intensity |} ];
     rowMaxZ := if Rgt_dec intensity (rowMaxZ s) then intensity
                else rowMaxZ s |}.

Definition grid_row (img : ImageData) (y : Z) (s : GridVars) : GridVars :=
  let r := for_ (range 0 (gridSize + 1)) (grid_cell img y)
             {| row := []; rowMaxZ := maxZ s |} in
  {| points := points s ++ [row r]; maxZ := rowMaxZ r |}.

Definition build_grid (img : ImageData) : GridVars :=
  for_ (range 0 (gridSize + 1)) (grid_row img) {| points := []; maxZ := 0 |}.

(** The point the build stores at column [x] of row [y]. *)
Definition grid_point (img : ImageData) (x y : Z) : GridPoint :=
  let z := luminosity img (sample_x img x) (sample_y img y) / 255 in
  {| gx := IZR x - 16; gy := IZR y - 16; gz := z; color_hue := 240 - z * 210 |}.

(** The [y2] of [project]: the depth that enters the perspective divide. *)
Definition project_depth (v : Viewer) (x y z : R) : R :=
  let y1 := x * sin (angle_z v) + y * cos (angle_z v) in
  y1 * cos (angle_x v) - (z * 15) * sin (angle_x v).

(** What a drag is made of, and what the pointer sends without a pressed
    button. *)
Definition is_move_or_frame (e : Event) : bool :=
  match e with
  | MouseMove _ _ | AnimationFrame => true
  | _ => false
  end.

Definition is_move (e : Event) : bool :=
  match e with
  | MouseMove _ _ => true
  | _ => false
  end.

Definition is_move_or_release (e : Event) : bool :=
  match e with
  | MouseMove _ _ | MouseUp | MouseLeave => true
  | _ => false
  end.

End PSF3DGrid.

(* ================================================================== *)
(** ** services: the payload handed to the model *)
(* ================================================================== *)

Module GeminiService.
Import Ascii String.

(** [s.split(sep)] for a one-character separator; [current] is the segment
    being read. *)
Fixpoint split_on (sep : ascii) (s : string) (current : string)
  : list string :=
  match s with
  | EmptyString => [current]
  | String c rest =>
      if Ascii.eqb c sep then current :: split_on sep rest EmptyString
      else split_on sep rest (current ++ String c EmptyString)
  end.

Definition split (s : string) (sep : ascii) : list string :=
  split_on sep s EmptyString.

Definition comma : ascii := ","%char.

(** [imageBase64.split(',')[1] || imageBase64] of [analyzePSF]: the second
    segment unless it is missing or empty. *)
Definition base64Data (imageBase64 : string) : string :=
  match split imageBase64 comma with
  | _ :: EmptyString :: _ => imageBase64
  | _ :: second :: _ => second
  | _ => imageBase64
  end.

Fixpoint has_comma (s : string) : bool :=
  match s with
  | EmptyString => false
  | String c rest => Ascii.eqb c comma || has_comma rest
  end.

End GeminiService.

(* ================================================================== *)
(** ** App: the checks run on a loaded image *)
(* ================================================================== *)

Module App.
Import Js ImageProcessing.

(** The texts shown to the user. *)
Inductive Message : Type :=
| SaturationWarning   (* Attention : L'etoile est saturee (clipping) ... *)
| SignalTooWeak       (* Signal trop faible ... *)
| SnrTooLow.          (* Rapport Signal/Bruit trop faible ... *)

(** What [processLocalImage] does once the canvas has handed back the
    buffer of the image: the state setters it calls, in order, and the call
    of [generatePreview]. *)
Inductive Effect : Type :=
| SetStats (calculatedStats : ProcessingStats)
| SetWarning (m : Message)
| SetError (m : Message)
| SetRadialProfile (profile : list RadialDataPoint)
| GeneratePreview (currentStats : ProcessingStats) (logMode : bool).

(** [n < r] on a [number]: false on [NaN]. *)
Definition lt (n : number) (r : R) : bool :=
  match n with
  | Finite a => if Rlt_dec a r then true else false
  | NegInfinity => true
  | PosInfinity | NaN => false
  end.

Definition processLocalImage (imageData : ImageData) (isLogView : bool)
  : list Effect :=
  let calculatedStats := estimateStats imageData in
  let isSaturated :=
    checkSaturation imageData (fst (centroid calculatedStats))
      (snd (centroid calculatedStats)) 3 in
  [SetStats calculatedStats]
  ++ (if isSaturated then [SetWarning SaturationWarning] else [])
  ++ (if (peakIntensity calculatedStats <? 20)%Z
      then [SetError SignalTooWeak]
      else if lt (snr calculatedStats) 3
      then [SetError SnrTooLow]
      else
        match calculateRadialProfile imageData
                (fst (centroid calculatedStats))
                (snd (centroid calculatedStats)) 64 with
        | Some profile =>
            [SetRadialProfile profile;
             GeneratePreview calculatedStats isLogView]
        | None => []
        end).

End App.

(* ================================================================== *)
(** ** calculateCentroid in double precision *)
(* ================================================================== *)

(** The same function with every [number] an IEEE-754 binary64 value and
    every operation rounded as the language does.  Channel values and loop
    counters are integers below 2^53, which a double holds exactly. *)
Module Double.
Import Js ImageProcessing.
Import PrimFloat.

(** The double of a non-negative integer. *)
Definition of_Z (z : Z) : float := of_uint63 (Uint63.of_Z z).

(** The literal [0.2]: the double nearest to one fifth. *)
Definition fifth : float := 0x1.999999999999ap-3%float.

(** [(data[idx] + data[idx + 1] + data[idx + 2]) / 3]. *)
Definition mean3 (d : list Z) (idx : Z) : float :=
  ((of_Z (get d idx) + of_Z (get d (idx + 1)) + of_Z (get d (idx + 2))) / 3)%float.

Definition luminosity (img : ImageData) (x y : Z) : float :=
  mean3 (data img) (pixel_index img x y).

Record Centroid : Type := {
  x : float;
  y : float;
  maxVal : float
}.

Record CentroidVars : Type := {
  totalMass : float;
  sumX : float;
  sumY : float;
  runMax : float
}.

Definition centroid_init : CentroidVars :=
  {| totalMass := 0; sumX := 0; sumY := 0; runMax := 0 |}.

(** [a > b] is [b < a]; a comparison with NaN is false. *)
Definition centroid_body (img : ImageData) (py px : Z) (s : CentroidVars)
  : CentroidVars :=
  let idx := pixel_index img px py in
  let intensity := mean3 (data img) idx in
  let maxVal' := if (runMax s <? intensity)%float then intensity else runMax s in
  if (maxVal' * fifth <? intensity)%float then
    {| totalMass := (totalMass s + intensity)%float;
       sumX := (sumX s + of_Z px * intensity)%float;
       sumY := (sumY s + of_Z py * intensity)%float;
       runMax := maxVal' |}
  else
    {| totalMass := totalMass s;
       sumX := sumX s;
       sumY := sumY s;
       runMax := maxVal' |}.

Definition centroid_row (img : ImageData) (py : Z) (s : CentroidVars)
  : CentroidVars :=
  for_ (range 0 (width img)) (centroid_body img py) s.

Definition centroid_scan (img : ImageData) : CentroidVars :=
  for_ (range 0 (height img)) (centroid_row img) centroid_init.

(** [totalMass === 0] is the numeric equality of doubles. *)
Definition calculateCentroid (img : ImageData) : Centroid :=
  let s := centroid_scan img in
  if (totalMass s =? 0)%float then
    {| x := (of_Z (width img) / 2)%float;
       y := (of_Z (height img) / 2)%float;
       maxVal := 0%float |}
  else
    {| x := (sumX s / totalMass s)%float;
       y := (sumY s / totalMass s)%float;
       maxVal := runMax s |}.

(** What the enumerations below check. *)
Definition sum_exact (a b : Z) : bool :=
  Leibniz.eqb (of_Z a + of_Z b)%float (of_Z (a + b)).

Definition sign_clear (f : float) : bool :=
  match FloatOps.Prim2SF f with
  | SpecFloat.S754_zero s | SpecFloat.S754_infinity s
  | SpecFloat.S754_finite s _ _ => negb s
  | SpecFloat.S754_nan => true
  end.

(** A value whose sign bit, if it has one, is [sx]. *)
Definition sign_is (sx : bool) (F : SpecFloat.spec_float) : Prop :=
  match F with
  | SpecFloat.S754_zero s | SpecFloat.S754_infinity s
  | SpecFloat.S754_finite s _ _ => s = sx
  | SpecFloat.S754_nan => True
  end.

(** A state of the scan that a black pixel leaves as it is. *)
Definition quiet (s : CentroidVars) : Prop :=
  (runMax s <? 0)%float = false /\ (runMax s * fifth <? 0)%float = false.

(** The mean of three channels of sum [s]. *)
Definition level (s : Z) : float := (of_Z s / 3)%float.

Definition level_ok (s : Z) : bool :=
  let i := level s in
  ((0 <? i) && (i * fifth <? i) && negb (i <? 0) && negb (i * fifth <? 0)
   && Leibniz.eqb (0 + i) i && negb (i =? 0) && sign_clear i)%float.

Definition quotient_exact (fx i : float) : bool :=
  Leibniz.eqb (fx * i / i)%float fx.

(** The 255 whole luminosities, evaluated once. *)
Definition whole_levels : list float :=
  Eval vm_compute in map (fun k => level (3 * k)) (range 1 256).

Definition whole_level_ok (k : Z) : bool :=
  Leibniz.eqb (level (3 * k)) (of_Z k).

(** The quotient is exact at coordinate [x0] for every whole luminosity. *)
Definition coordinate_ok (x0 : Z) : bool :=
  let fx := of_Z x0 in forallb (quotient_exact fx) whole_levels.

(** [f] holds at [z], [z + 1], ..., [z + n - 1]. *)
Fixpoint all_from (f : Z -> bool) (n : nat) (z : Z) : bool :=
  match n with
  | O => true
  | S n' => f z && all_from f n' (z + 1)
  end.

End Double.

(* ================================================================== *)
(** ** Sample inputs *)
(* ================================================================== *)

Module Samples.
Import ImageProcessing.

(** A 3 x 2 buffer, black but for the pixel at (2, 1). *)
Definition one_star : ImageData :=
  {| width := 3; height := 2;
     data := [ 0; 0; 0; 255;   0; 0; 0; 255;   0; 0; 0; 255;
               0; 0; 0; 255;   0; 0; 0; 255;   30; 60; 90; 255 ]%Z |}.

(** A single black, opaque pixel. *)
Definition black_pixel : ImageData :=
  {| width := 1; height := 1; data := [ 0; 0; 0; 255 ]%Z |}.

(** A 5 x 1 buffer: two bright grey pixels with three black ones between. *)
Definition two_stars : ImageData :=
  {| width := 5; height := 1;
     data := [ 200; 200; 200; 255;   0; 0; 0; 255;   0; 0; 0; 255;
               0; 0; 0; 255;   200; 200; 200; 255 ]%Z |}.

(** A single pixel just below white. *)
Definition near_white : ImageData :=
  {| width := 1; height := 1; data := [ 254; 253; 254; 255 ]%Z |}.

(** A 2 x 2 buffer with every channel at zero. *)
Definition blank : ImageData :=
  {| width := 2; height := 2;
     data := [ 0; 0; 0; 0;   0; 0; 0; 0;   0; 0; 0; 0;   0; 0; 0; 0 ]%Z |}.


Definition five_clipped : ImageData :=
  {| width := 3; height := 3;
     data := [ 250; 0; 0; 255;   0; 251; 0; 255;   0; 0; 252; 255;
               255; 255; 255; 255;   249; 249; 249; 255;   0; 0; 0; 255;
               0; 0; 0; 255;   10; 20; 30; 255;   250; 0; 0; 255 ]%Z |}.

(** A drag far down, a long roll of the wheel one way, then the other. *)
Definition session : list PSF3DViewer.Event :=
  let open := PSF3DViewer.MouseDown 10 10 in
  [ open; PSF3DViewer.MouseMove 10 500; PSF3DViewer.MouseUp;
    PSF3DViewer.AnimationFrame ]
  ++ repeat (PSF3DViewer.Wheel (-100)) 30
  ++ [ PSF3DViewer.MouseDown 0 0; PSF3DViewer.MouseMove 0 (-900);
       PSF3DViewer.MouseLeave ]
  ++ repeat (PSF3DViewer.Wheel 100) 40.

End Samples.

(** Well-formedness of a buffer written out in full. *)
Ltac solve_wf_image :=
  unfold ImageProcessing.wf_image;
  cbn [ImageProcessing.width ImageProcessing.height ImageProcessing.data length];
  repeat split; try lia;
  repeat (constructor; [lia|]); constructor.

(* ================================================================== *)
(** ** Further sample inputs *)
(* ================================================================== *)

Module MoreSamples.
Import ImageProcessing.

(** A 2 x 1 buffer whose colour channels are 0 or 255. *)
Definition black_and_white : ImageData :=
  {| width := 2; height := 1;
     data := [ 0; 0; 0; 255;   255; 255; 255; 255 ]%Z |}.

(** An 8 x 1 buffer, black but for the faint red pixel at (7, 0). *)
Definition faint_red : ImageData :=
  {| width := 8; height := 1;
     data := [ 0; 0; 0; 255;   0; 0; 0; 255;   0; 0; 0; 255;   0; 0; 0; 255;
               0; 0; 0; 255;   0; 0; 0; 255;   0; 0; 0; 255;   1; 0; 0; 255
             ]%Z |}.

(** A 3 x 3 buffer, white all over. *)
Definition white : ImageData :=
  {| width := 3; height := 3;
     data := [ 255; 255; 255; 255;   255; 255; 255; 255;   255; 255; 255; 255;
               255; 255; 255; 255;   255; 255; 255; 255;   255; 255; 255; 255;
               255; 255; 255; 255;   255; 255; 255; 255;   255; 255; 255; 255
             ]%Z |}.

End MoreSamples.

(* ================================================================== *)
(** ** Loops and arrays *)
(* ================================================================== *)

Section Loops.
Import Js.

Lemma range_nil (lo hi : Z) : (hi <= lo)%Z -> range lo hi = [].
Proof.
  intros H. unfold range.
  replace (Z.to_nat (hi - lo)) with O by lia. reflexivity.
Qed.

Lemma range_cons (lo hi : Z) :
  (lo < hi)%Z -> range lo hi = lo :: range (lo + 1) hi.
Proof.
  intros H. unfold range.
  replace (Z.to_nat (hi - lo)) with (S (Z.to_nat (hi - (lo + 1)))) by lia.
  cbn [seq map]. f_equal; [lia|].
  rewrite <- seq_shift, map_map.
  apply map_ext. intros k. lia.
Qed.

Lemma map_seq_offset (lo : Z) (a b n : nat) (mid : Z) :
  (lo + Z.of_nat a = mid + Z.of_nat b)%Z ->
  map (fun k => (lo + Z.of_nat k)%Z) (seq a n)
  = map (fun k => (mid + Z.of_nat k)%Z) (seq b n).
Proof.
  revert a b. induction n as [|n IH]; intros a b H; [reflexivity|].
  cbn [seq map]. f_equal; [exact H|].
  apply IH. lia.
Qed.

Lemma range_app (lo mid hi : Z) :
  (lo <= mid <= hi)%Z -> range lo hi = range lo mid ++ range mid hi.
Proof.
  intros H. unfold range.
  replace (Z.to_nat (hi - lo))
    with (Z.to_nat (mid - lo) + Z.to_nat (hi - mid))%nat by lia.
  rewrite seq_app, map_app. f_equal.
  apply map_seq_offset. lia.
Qed.

Lemma range_split (lo i hi : Z) :
  (lo <= i < hi)%Z -> range lo hi = range lo i ++ i :: range (i + 1) hi.
Proof.
  intros H. rewrite (range_app lo i hi) by lia.
  f_equal. apply range_cons. lia.
Qed.

Lemma in_range (lo hi i : Z) : In i (range lo hi) <-> (lo <= i < hi)%Z.
Proof.
  unfold range. rewrite in_map_iff. split.
  - intros (k & <- & Hk). apply in_seq in Hk. lia.
  - intros H. exists (Z.to_nat (i - lo)). split; [lia|].
    apply in_seq. lia.
Qed.

Lemma length_range (lo hi : Z) : length (range lo hi) = Z.to_nat (hi - lo).
Proof. unfold range. now rewrite length_map, length_seq. Qed.

Lemma for_nil {A S : Type} (body : A -> S -> S) (s : S) : for_ [] body s = s.
Proof. reflexivity. Qed.

Lemma for_cons {A S : Type} (i : A) (l : list A) (body : A -> S -> S) (s : S) :
  for_ (i :: l) body s = for_ l body (body i s).
Proof. reflexivity. Qed.

Lemma for_app {A S : Type} (l1 l2 : list A) (body : A -> S -> S) (s : S) :
  for_ (l1 ++ l2) body s = for_ l2 body (for_ l1 body s).
Proof. unfold for_. apply fold_left_app. Qed.

(** A loop keeps what every turn keeps. *)
Lemma for_invariant {A S : Type} (P : S -> Prop) (l : list A)
  (body : A -> S -> S) :
  (forall i s, In i l -> P s -> P (body i s)) ->
  forall s, P s -> P (for_ l body s).
Proof.
  induction l as [|i l IH]; intros Hstep s Hs; [exact Hs|].
  rewrite for_cons. apply IH.
  - intros j t Hj. apply Hstep. now right.
  - apply Hstep; [now left|exact Hs].
Qed.

(** A loop none of whose turns changes [s] returns [s]. *)
Lemma for_fixed {A S : Type} (l : list A) (body : A -> S -> S) (s : S) :
  (forall i, In i l -> body i s = s) -> for_ l body s = s.
Proof.
  induction l as [|i l IH]; intros H; [reflexivity|].
  rewrite for_cons, H by now left.
  apply IH. intros j Hj. apply H. now right.
Qed.

Lemma for_ext {A S : Type} (l : list A) (f g : A -> S -> S) (s : S) :
  (forall i t, In i l -> f i t = g i t) -> for_ l f s = for_ l g s.
Proof.
  revert s. induction l as [|i l IH]; intros s H; [reflexivity|].
  rewrite !for_cons, H by now left.
  apply IH. intros j t Hj. apply H. now right.
Qed.

End Loops.

(* ================================================================== *)
(** ** calculateCentroid *)
(* ================================================================== *)

Section CentroidFacts.
Import Js ImageProcessing.

Lemma get_Forall (P : Z -> Prop) (d : list Z) (i : Z) :
  Forall P d -> P 0%Z -> P (get d i).
Proof.
  intros Hd H0. unfold get. destruct (i <? 0)%Z; [exact H0|].
  destruct (nth_in_or_default (Z.to_nat i) d 0%Z) as [Hin | ->]; [|exact H0].
  rewrite Forall_forall in Hd. now apply Hd.
Qed.

(** On a well-formed buffer the four channels of a pixel inside the buffer
    are elements of [data]. *)
Lemma pixel_index_in_range (img : ImageData) (px py : Z) :
  wf_image img ->
  (0 <= px < width img)%Z -> (0 <= py < height img)%Z ->
  (0 <= pixel_index img px py)%Z /\
  (pixel_index img px py + 3 < Z.of_nat (length (data img)))%Z.
Proof.
  intros (HW & HH & Hlen & _) Hx Hy. unfold pixel_index. nia.
Qed.

Lemma luminosity_rgb_sum (img : ImageData) (px py : Z) :
  luminosity img px py = IZR (rgb_sum img px py) / 3.
Proof.
  unfold luminosity, mean3, rgb_sum, channel.
  rewrite !plus_IZR, Z.add_0_r. reflexivity.
Qed.

Lemma luminosity_nonneg (img : ImageData) (px py : Z) :
  wf_image img -> 0 <= luminosity img px py.
Proof.
  intros (_ & _ & _ & Hd). unfold luminosity, mean3.
  assert (Hg : forall i, 0 <= IZR (get (data img) i)).
  { intros i. apply IZR_le.
    apply (get_Forall (fun v => (0 <= v)%Z)); [|lia].
    eapply Forall_impl; [|exact Hd]. cbv beta. lia. }
  pose proof (Hg (pixel_index img px py)).
  pose proof (Hg (pixel_index img px py + 1)%Z).
  pose proof (Hg (pixel_index img px py + 2)%Z).
  lra.
Qed.

(** A black pixel leaves the loop variables as they are. *)
Lemma centroid_body_black (img : ImageData) (py px : Z) (s : CentroidVars) :
  luminosity img px py = 0 -> 0 <= runMax s ->
  centroid_body img py px s = s.
Proof.
  unfold luminosity, centroid_body. intros -> Hm.
  destruct (Rgt_dec 0 (runMax s)) as [H|_]; [lra|].
  destruct (Rgt_dec 0 (runMax s * 0.2)) as [H|_]; [lra|].
  destruct s; reflexivity.
Qed.

(** The first lit pixel met with all variables at zero sets them. *)
Lemma centroid_body_first (img : ImageData) (py px : Z) :
  0 < luminosity img px py ->
  centroid_body img py px centroid_init
  = {| totalMass := luminosity img px py;
       sumX := IZR px * luminosity img px py;
       sumY := IZR py * luminosity img px py;
       runMax := luminosity img px py |}.
Proof.
  unfold luminosity, centroid_body. cbn [runMax totalMass sumX sumY centroid_init].
  set (v := mean3 _ _). intros Hv.
  destruct (Rgt_dec v 0) as [_|H]; [|lra].
  destruct (Rgt_dec v (v * 0.2)) as [_|H]; [|lra].
  f_equal; lra.
Qed.

Lemma centroid_row_black (img : ImageData) (py lo hi : Z) (s : CentroidVars) :
  (forall px, (lo <= px < hi)%Z -> luminosity img px py = 0) ->
  0 <= runMax s ->
  for_ (range lo hi) (centroid_body img py) s = s.
Proof.
  intros Hz Hm. apply for_fixed. intros px Hpx.
  apply centroid_body_black; [|exact Hm].
  apply Hz. now apply in_range.
Qed.

Lemma centroid_rows_black (img : ImageData) (lo hi : Z) (s : CentroidVars) :
  (forall px py, (0 <= px < width img)%Z -> (lo <= py < hi)%Z ->
                 luminosity img px py = 0) ->
  0 <= runMax s ->
  for_ (range lo hi) (centroid_row img) s = s.
Proof.
  intros Hz Hm. apply for_fixed. intros py Hpy.
  apply centroid_row_black; [|exact Hm].
  intros px Hpx. apply Hz; [exact Hpx|]. now apply in_range.
Qed.

(** The variables after the scan of a buffer with one lit pixel. *)
Lemma centroid_scan_single (img : ImageData) (x0 y0 : Z) :
  (0 <= x0 < width img)%Z -> (0 <= y0 < height img)%Z ->
  0 < luminosity img x0 y0 ->
  (forall px py, (0 <= px < width img)%Z -> (0 <= py < height img)%Z ->
                 (px, py) <> (x0, y0) -> luminosity img px py = 0) ->
  centroid_scan img
  = {| totalMass := luminosity img x0 y0;
       sumX := IZR x0 * luminosity img x0 y0;
       sumY := IZR y0 * luminosity img x0 y0;
       runMax := luminosity img x0 y0 |}.
Proof.
  intros Hx Hy Hlit Hblack. unfold centroid_scan.
  assert (Hne_y : forall px py, (py <> y0)%Z -> (px, py) <> (x0, y0))
    by (intros px py Hne E; inversion E; lia).
  assert (Hne_x : forall px py, (px <> x0)%Z -> (px, py) <> (x0, y0))
    by (intros px py Hne E; inversion E; lia).
  rewrite (range_split 0 y0 (height img)) by lia.
  rewrite for_app, for_cons.
  rewrite (centroid_rows_black img 0 y0 centroid_init); cycle 1.
  { intros px py Hpx Hpy. apply Hblack; [lia|lia|apply Hne_y; lia]. }
  { cbn. lra. }
  unfold centroid_row at 2.
  rewrite (range_split 0 x0 (width img)) by lia.
  rewrite for_app, for_cons.
  rewrite (centroid_row_black img y0 0 x0 centroid_init); cycle 1.
  { intros px Hpx. apply Hblack; [lia|lia|apply Hne_x; lia]. }
  { cbn. lra. }
  rewrite centroid_body_first by exact Hlit.
  rewrite (centroid_row_black img y0 (x0 + 1) (width img)); cycle 1.
  { intros px Hpx. apply Hblack; [lia|lia|apply Hne_x; lia]. }
  { cbn. lra. }
  apply centroid_rows_black.
  - intros px py Hpx Hpy. apply Hblack; [lia|lia|apply Hne_y; lia].
  - cbn. lra.
Qed.

End CentroidFacts.

Section CentroidClaims.
Import Js ImageProcessing.



(** Over exact arithmetic: a buffer whose only lit pixel is at [(x0, y0)],
    every other pixel having zero intensity, has its centroid exactly at
    [(x0, y0)], with [maxVal] the intensity of that pixel: the streaming
    threshold against the peak seen so far drops no part of it. *)
Theorem calculateCentroid_single_pixel (img : ImageData) (x0 y0 : Z) :
  wf_image img ->
  (0 <= x0 < width img)%Z -> (0 <= y0 < height img)%Z ->
  (0 < rgb_sum img x0 y0)%Z ->
  (forall px py, (0 <= px < width img)%Z -> (0 <= py < height img)%Z ->
                 (px, py) <> (x0, y0) -> rgb_sum img px py = 0%Z) ->
  x (calculateCentroid img) = IZR x0 /\
  y (calculateCentroid img) = IZR y0 /\
  maxVal (calculateCentroid img) = luminosity img x0 y0.
Proof.
  intros _ Hx Hy Hlit Hblack.
  assert (Hlit' : 0 < luminosity img x0 y0).
  { rewrite luminosity_rgb_sum.
    apply IZR_lt in Hlit. lra. }
  assert (Hblack' : forall px py,
            (0 <= px < width img)%Z -> (0 <= py < height img)%Z ->
            (px, py) <> (x0, y0) -> luminosity img px py = 0).
  { intros px py Hpx Hpy Hne.
    rewrite luminosity_rgb_sum, (Hblack px py Hpx Hpy Hne). lra. }
  unfold calculateCentroid.
  rewrite (centroid_scan_single img x0 y0 Hx Hy Hlit' Hblack').
  cbn [totalMass sumX sumY runMax].
  destruct (Req_dec_T (luminosity img x0 y0) 0) as [E|Hne]; [lra|].
  cbn [x y maxVal]. repeat split; field; exact Hne.
Qed.


End CentroidClaims.

Section CentroidWitnesses.
Import Js ImageProcessing Samples.

Lemma wf_one_star : wf_image one_star.
Proof. unfold one_star. solve_wf_image. Defined.

Lemma calculateCentroid_single_pixel_witness :
  x (calculateCentroid one_star) = 2 /\
  y (calculateCentroid one_star) = 1 /\
  maxVal (calculateCentroid one_star) = luminosity one_star 2 1.
Proof.
  apply (calculateCentroid_single_pixel one_star 2 1).
  - exact wf_one_star.
  - cbn; lia.
  - cbn; lia.
  - vm_compute; reflexivity.
  - cbn [width height one_star]. intros px py Hpx Hpy Hne.
    assert (Hx : (px = 0 \/ px = 1 \/ px = 2)%Z) by lia.
    assert (Hy : (py = 0 \/ py = 1)%Z) by lia.
    destruct Hx as [-> | [-> | ->]], Hy as [-> | ->];
      try reflexivity.
    contradiction Hne; reflexivity.
Defined.


End CentroidWitnesses.

(* ================================================================== *)
(** ** Rounding to decimals *)
(* ================================================================== *)

Section Rounding.
Import Js.

Lemma round_half_away_0 : round_half_away 0 = 0%Z.
Proof.
  unfold round_half_away.
  destruct (Rle_dec 0 0) as [_|H]; [|lra].
  apply Zfloor_eq. lra.
Qed.

Lemma round_half_away_nonneg (r : R) : 0 <= r -> (0 <= round_half_away r)%Z.
Proof.
  intros Hr. unfold round_half_away.
  destruct (Rle_dec 0 r) as [_|H]; [|lra].
  apply Zfloor_lub. lra.
Qed.

Lemma pow10_pos (d : nat) : 0 < 10 ^ d.
Proof. apply pow_lt. lra. Qed.

Lemma toFixed_0 (d : nat) : toFixed d 0 = 0.
Proof.
  unfold toFixed. rewrite Rmult_0_l, round_half_away_0.
  unfold Rdiv. apply Rmult_0_l.
Qed.

Lemma toFixed_nonneg (d : nat) (r : R) : 0 <= r -> 0 <= toFixed d r.
Proof.
  intros Hr. unfold toFixed.
  pose proof (pow10_pos d) as Hp.
  apply Rmult_le_pos.
  - apply IZR_le. apply round_half_away_nonneg.
    apply Rmult_le_pos; lra.
  - left. now apply Rinv_0_lt_compat.
Qed.

End Rounding.

(* ================================================================== *)
(** ** The blank buffer *)
(* ================================================================== *)

Section BlankBuffer.
Import Js ImageProcessing.

Variable img : ImageData.
Hypothesis all_zero : Forall (fun v => v = 0%Z) (data img).

Lemma blank_mean3 (i : Z) : mean3 (data img) i = 0.
Proof.
  unfold mean3.
  rewrite !(get_Forall (fun v => v = 0%Z) (data img) _ all_zero eq_refl).
  lra.
Qed.

Lemma blank_centroid_scan : centroid_scan img = centroid_init.
Proof.
  unfold centroid_scan. apply centroid_rows_black.
  - intros px py _ _. apply blank_mean3.
  - cbn. lra.
Qed.

Lemma blank_calculateCentroid :
  calculateCentroid img
  = {| x := IZR (width img) / 2; y := IZR (height img) / 2; maxVal := 0 |}.
Proof.
  unfold calculateCentroid. rewrite blank_centroid_scan.
  cbn [totalMass centroid_init].
  destruct (Req_dec_T 0 0) as [_|H]; [reflexivity|contradiction].
Qed.

Lemma blank_stats_scan :
  stats_scan img
  = {| halfMaxCount := 0; backgroundSum := 0; backgroundCount := 0 |}.
Proof.
  unfold stats_scan. rewrite blank_calculateCentroid. cbn [maxVal].
  apply for_fixed. intros i _.
  unfold stats_body. rewrite blank_mean3.
  destruct (Rgt_dec 0 (0 / 2)) as [H|_]; [lra|].
  destruct (Rlt_dec 0 (0 * 0.1)) as [H|_]; [lra|].
  reflexivity.
Qed.

Lemma blank_stats_bg : stats_bg img = 0.
Proof. unfold stats_bg. rewrite blank_stats_scan. reflexivity. Qed.

Lemma blank_estimateStats :
  estimateStats img
  = {| centroid := (IZR (width img) / 2, IZR (height img) / 2);
       fwhmPixels := 0;
       snr := Finite 0;
       peakIntensity := 0;
       backgroundLevel := 0 |}.
Proof.
  unfold estimateStats, stats_fwhm, stats_signal, stats_noise.
  rewrite blank_stats_bg, blank_stats_scan, blank_calculateCentroid.
  cbn [x y maxVal halfMaxCount].
  replace (0 / PI) with 0 by (unfold Rdiv; now rewrite Rmult_0_l).
  rewrite sqrt_0, Rmult_0_r, toFixed_0.
  replace (0 + 1) with 1 by lra. rewrite sqrt_1.
  unfold div. destruct (Req_dec_T 1 0) as [H|_]; [lra|].
  cbn [toFixed_number].
  replace ((0 - 0) / 1) with 0 by lra. rewrite toFixed_0.
  rewrite (ZfloorZ 0). reflexivity.
Qed.

End BlankBuffer.

Section BlankClaim.
Import Js ImageProcessing Samples.

(** C3. On a W x H buffer all of whose channels are zero,
    [calculateCentroid] returns the geometric centre [(W/2, H/2)] with
    [maxVal = 0], and [estimateStats] returns [fwhmPixels = 0] and [snr = 0];
    every field of the result is a finite number. *)
Theorem blank_buffer_stats (img : ImageData) :
  wf_image img ->
  Forall (fun v => v = 0%Z) (data img) ->
  calculateCentroid img
  = {| x := IZR (width img) / 2; y := IZR (height img) / 2; maxVal := 0 |} /\
  fwhmPixels (estimateStats img) = 0 /\
  snr (estimateStats img) = Finite 0 /\
  estimateStats img
  = {| centroid := (IZR (width img) / 2, IZR (height img) / 2);
       fwhmPixels := 0;
       snr := Finite 0;
       peakIntensity := 0;
       backgroundLevel := 0 |}.
Proof.
  intros _ Hz.
  rewrite (blank_estimateStats img Hz).
  repeat split. apply (blank_calculateCentroid img Hz).
Qed.

Lemma wf_blank : wf_image blank.
Proof. unfold blank. solve_wf_image. Defined.

Lemma blank_buffer_stats_witness :
  calculateCentroid blank = {| x := 2 / 2; y := 2 / 2; maxVal := 0 |} /\
  fwhmPixels (estimateStats blank) = 0 /\
  snr (estimateStats blank) = Finite 0.
Proof.
  destruct (blank_buffer_stats blank wf_blank) as (Hc & Hf & Hs & _).
  - unfold blank; cbn [data]. repeat (constructor; [reflexivity|]). constructor.
  - exact (conj Hc (conj Hf Hs)).
Defined.

End BlankClaim.

(* ================================================================== *)
(** ** estimateStats *)
(* ================================================================== *)

Section StatsFacts.
Import Js ImageProcessing.

Lemma for_map {A B S : Type} (f : A -> B) (l : list A) (body : B -> S -> S)
  (s : S) :
  for_ (map f l) body s = for_ l (fun i => body (f i)) s.
Proof.
  revert s. induction l as [|i l IH]; intros s; [reflexivity|].
  cbn [map]. rewrite !for_cons. apply IH.
Qed.

Lemma range_shift (lo hi k : Z) :
  range (lo + k) (hi + k) = map (fun i => (i + k)%Z) (range lo hi).
Proof.
  unfold range. rewrite map_map.
  replace (hi + k - (lo + k))%Z with (hi - lo)%Z by lia.
  apply map_ext. intros i. lia.
Qed.

Lemma get_skip4 (r g b a : Z) (rest : list Z) (i : Z) :
  (0 <= i)%Z -> get (r :: g :: b :: a :: rest) (i + 4) = get rest i.
Proof.
  intros Hi. unfold get.
  destruct (Z.ltb_spec (i + 4) 0); [lia|].
  destruct (Z.ltb_spec i 0); [lia|].
  replace (Z.to_nat (i + 4)) with (S (S (S (S (Z.to_nat i))))) by lia.
  reflexivity.
Qed.

Lemma mean3_skip4 (r g b a : Z) (rest : list Z) (i : Z) :
  (0 <= i)%Z -> mean3 (r :: g :: b :: a :: rest) (i + 4) = mean3 rest i.
Proof.
  intros Hi. unfold mean3.
  replace (i + 4 + 1)%Z with (i + 1 + 4)%Z by lia.
  replace (i + 4 + 2)%Z with (i + 2 + 4)%Z by lia.
  rewrite !get_skip4 by lia. reflexivity.
Qed.

(** The loop over the indices 0, 4, 8, ... visits the pixels in order. *)
Lemma stats_loop_pixels (halfMax peak : R) (n : nat) :
  forall (d : list Z) (s : StatsVars),
    length d = (4 * n)%nat ->
    for_ (map (fun k => (4 * k)%Z) (range 0 (Z.of_nat n)))
      (stats_body d halfMax peak) s
    = for_ (pixels d) (stats_pixel halfMax peak) s.
Proof.
  induction n as [|n IH]; intros d s Hlen.
  - destruct d; [reflexivity|discriminate].
  - destruct d as [|r [|g [|b [|a rest]]]]; try (cbn in Hlen; lia).
    rewrite (range_cons 0 (Z.of_nat (S n))) by lia.
    replace (Z.of_nat (S n)) with (Z.of_nat n + 1)%Z by lia.
    rewrite (range_shift 0 (Z.of_nat n) 1).
    cbn [map pixels]. rewrite !for_cons, map_map, for_map.
    assert (Hfirst : stats_body (r :: g :: b :: a :: rest) halfMax peak
                       (4 * 0) s
                     = stats_pixel halfMax peak (r, g, b) s) by reflexivity.
    rewrite Hfirst.
    rewrite <- (IH rest) by (cbn in Hlen; lia).
    rewrite for_map. apply for_ext.
    intros k t Hk. apply in_range in Hk.
    unfold stats_body.
    replace (4 * (k + 1))%Z with (4 * k + 4)%Z by lia.
    rewrite mean3_skip4 by lia. reflexivity.
Qed.

Lemma range_by4_length (n : nat) :
  range_by4 (Z.of_nat (4 * n))
  = map (fun k => (4 * k)%Z) (range 0 (Z.of_nat n)).
Proof.
  unfold range_by4. do 2 f_equal.
  replace (Z.of_nat (4 * n) + 3)%Z with (3 + Z.of_nat n * 4)%Z by lia.
  rewrite Z.div_add by lia. reflexivity.
Qed.

Lemma wf_length (img : ImageData) :
  wf_image img ->
  length (data img) = (4 * Z.to_nat (width img * height img))%nat.
Proof. intros (HW & HH & Hlen & _). nia. Qed.

Lemma stats_scan_pixels (img : ImageData) :
  wf_image img ->
  stats_scan img
  = for_ (pixels (data img))
      (stats_pixel (maxVal (calculateCentroid img) / 2)
                   (maxVal (calculateCentroid img)))
      {| halfMaxCount := 0; backgroundSum := 0; backgroundCount := 0 |}.
Proof.
  intros Hwf. unfold stats_scan.
  rewrite (wf_length img Hwf) at 1.
  rewrite range_by4_length.
  apply stats_loop_pixels. apply wf_length, Hwf.
Qed.

Lemma stats_pixels_count (halfMax peak : R) (ps : list (Z * Z * Z)) :
  forall s,
    halfMaxCount (for_ ps (stats_pixel halfMax peak) s)
    = (halfMaxCount s + Z.of_nat (length (filter (above halfMax) ps)))%Z.
Proof.
  induction ps as [|p ps IH]; intros s.
  - cbn. lia.
  - rewrite for_cons, IH. cbn [filter].
    unfold stats_pixel, above.
    destruct (Rgt_dec (pixel_mean p) halfMax);
      destruct (Rlt_dec (pixel_mean p) (peak * 0.1));
      cbn [halfMaxCount length]; lia.
Qed.

Lemma pixel_mean_nonneg (d : list Z) (p : Z * Z * Z) :
  Forall (fun v => (0 <= v <= 255)%Z) d -> In p (pixels d) ->
  0 <= pixel_mean p.
Proof.
  remember (length d) as n eqn:Hn. revert d Hn.
  induction n as [n IH] using lt_wf_ind. intros d Hn Hd Hin.
  destruct d as [|r [|g [|b [|a rest]]]]; try contradiction.
  cbn [pixels] in Hin. destruct Hin as [<- | Hin].
  - inversion Hd as [|? ? Hr Hd1]; subst.
    inversion Hd1 as [|? ? Hg Hd2]; subst.
    inversion Hd2 as [|? ? Hb Hd3]; subst.
    unfold pixel_mean.
    assert (0 <= IZR r) by (apply IZR_le; lia).
    assert (0 <= IZR g) by (apply IZR_le; lia).
    assert (0 <= IZR b) by (apply IZR_le; lia).
    lra.
  - apply (IH (length rest)) with (d := rest); auto.
    + subst n. cbn. lia.
    + now do 4 (apply Forall_inv_tail in Hd).
Qed.

Lemma stats_scan_background (img : ImageData) :
  wf_image img ->
  0 <= backgroundSum (stats_scan img) /\
  (0 <= backgroundCount (stats_scan img))%Z.
Proof.
  intros Hwf. rewrite stats_scan_pixels by exact Hwf.
  apply (for_invariant
           (fun s => 0 <= backgroundSum s /\ (0 <= backgroundCount s)%Z)).
  - intros p s Hp (Hs & Hc).
    pose proof (pixel_mean_nonneg (data img) p) as Hv.
    destruct Hwf as (_ & _ & _ & Hd). specialize (Hv Hd Hp).
    unfold stats_pixel.
    destruct (Rgt_dec (pixel_mean p) _);
      destruct (Rlt_dec (pixel_mean p) _);
      cbn [backgroundSum backgroundCount]; split; try lra; lia.
  - cbn. split; [lra|lia].
Qed.

Lemma stats_bg_nonneg (img : ImageData) : wf_image img -> 0 <= stats_bg img.
Proof.
  intros Hwf. destruct (stats_scan_background img Hwf) as (Hs & Hc).
  unfold stats_bg.
  destruct (Z.ltb_spec 0 (backgroundCount (stats_scan img))) as [Hpos|_];
    [|lra].
  apply Rmult_le_pos; [exact Hs|].
  left. apply Rinv_0_lt_compat. now apply IZR_lt.
Qed.

Lemma stats_noise_ge_1 (img : ImageData) :
  wf_image img -> 1 <= stats_noise img.
Proof.
  intros Hwf. pose proof (stats_bg_nonneg img Hwf) as Hbg.
  unfold stats_noise. rewrite <- sqrt_1 at 1.
  apply sqrt_le_1_alt. lra.
Qed.

End StatsFacts.

Section StatsClaims.
Import Js ImageProcessing Samples.

(** C7. [estimateStats] reports [fwhmPixels] as [2 * sqrt (count / PI)]
    rounded to two decimals, where [count] is the number of pixels whose
    mean of R, G and B is strictly above half of the centroid's [maxVal];
    hence [fwhmPixels >= 0]. *)
Theorem estimateStats_fwhm (img : ImageData) :
  wf_image img ->
  fwhmPixels (estimateStats img)
  = toFixed 2 (2 * sqrt (IZR (pixels_above_half_max img) / PI)) /\
  0 <= fwhmPixels (estimateStats img).
Proof.
  intros Hwf.
  assert (Hcount : halfMaxCount (stats_scan img) = pixels_above_half_max img).
  { rewrite stats_scan_pixels by exact Hwf.
    rewrite stats_pixels_count. cbn [halfMaxCount].
    unfold pixels_above_half_max. lia. }
  unfold estimateStats; cbn [fwhmPixels]. unfold stats_fwhm.
  rewrite Hcount. split; [reflexivity|].
  apply toFixed_nonneg.
  apply Rmult_le_pos; [lra|apply sqrt_pos].
Qed.

Lemma estimateStats_fwhm_witness :
  fwhmPixels (estimateStats one_star)
  = toFixed 2 (2 * sqrt (IZR (pixels_above_half_max one_star) / PI)) /\
  0 <= fwhmPixels (estimateStats one_star).
Proof. exact (estimateStats_fwhm one_star wf_one_star). Defined.

(** C8. In [estimateStats] the divisor of the SNR is
    [noise = sqrt (background + 1)] with [background >= 0], so
    [noise >= 1]: the division is never by zero and [snr] is a finite
    number. *)
Theorem estimateStats_snr_finite (img : ImageData) :
  wf_image img ->
  stats_noise img = sqrt (stats_bg img + 1) /\
  0 <= stats_bg img /\
  1 <= stats_noise img /\
  snr (estimateStats img)
  = Finite (toFixed 1 (stats_signal img / stats_noise img)).
Proof.
  intros Hwf.
  pose proof (stats_noise_ge_1 img Hwf) as Hn.
  repeat split; [apply stats_bg_nonneg, Hwf|exact Hn|].
  unfold estimateStats; cbn [snr]. unfold div.
  destruct (Req_dec_T (stats_noise img) 0) as [E|_]; [lra|].
  reflexivity.
Qed.

Lemma estimateStats_snr_finite_witness :
  1 <= stats_noise one_star /\
  snr (estimateStats one_star)
  = Finite (toFixed 1 (stats_signal one_star / stats_noise one_star)).
Proof.
  destruct (estimateStats_snr_finite one_star wf_one_star) as (_ & _ & Hn & Hs).
  exact (conj Hn Hs).
Defined.

End StatsClaims.

(* ================================================================== *)
(** ** checkSaturation *)
(* ================================================================== *)

Section SaturationFacts.
Import Js ImageProcessing.

(** The scanned region holds each pixel of the clipped square once. *)
Lemma NoDup_range (lo hi : Z) : NoDup (range lo hi).
Proof.
  remember (Z.to_nat (hi - lo)) as n eqn:Hn. revert lo Hn.
  induction n as [|n IH]; intros lo Hn.
  - rewrite range_nil by lia. constructor.
  - rewrite range_cons by lia. constructor.
    + rewrite in_range. lia.
    + apply IH. lia.
Qed.

Lemma NoDup_row (py : Z) (xs : list Z) :
  NoDup xs -> NoDup (map (fun px => (px, py)) xs).
Proof.
  induction 1 as [|px xs Hnin Hnd IH]; cbn [map]; constructor; [|exact IH].
  rewrite in_map_iff. intros (qx & E & Hq). inversion E; subst. contradiction.
Qed.

Lemma NoDup_rows (xs ys : list Z) :
  NoDup xs -> NoDup ys ->
  NoDup (flat_map (fun py => map (fun px => (px, py)) xs) ys).
Proof.
  intros Hxs. induction 1 as [|py ys Hnin Hnd IH]; cbn [flat_map]; [constructor|].
  apply NoDup_app; [now apply NoDup_row|exact IH|].
  intros [qx qy] H1 H2.
  apply in_map_iff in H1. destruct H1 as (px & E & _). inversion E; subst.
  apply in_flat_map in H2. destruct H2 as (py' & Hpy' & H2).
  apply in_map_iff in H2. destruct H2 as (px' & E' & _). inversion E'; subst.
  contradiction.
Qed.

Lemma NoDup_scanned_region (img : ImageData) (centerX centerY radius : R) :
  NoDup (scanned_region img centerX centerY radius).
Proof.
  unfold scanned_region, square.
  apply NoDup_filter, NoDup_rows; apply NoDup_range.
Qed.

Lemma in_scanned_region (img : ImageData) (centerX centerY radius : R)
  (px py : Z) :
  In (px, py) (scanned_region img centerX centerY radius) <->
  (Zfloor (centerX - radius) <= px <= Zceil (centerX + radius))%Z /\
  (Zfloor (centerY - radius) <= py <= Zceil (centerY + radius))%Z /\
  (0 <= px < width img)%Z /\ (0 <= py < height img)%Z.
Proof.
  unfold scanned_region, square.
  rewrite filter_In, in_flat_map. unfold in_buffer.
  rewrite !andb_true_iff, !Z.leb_le, !Z.ltb_lt.
  split.
  - intros ((qy & Hqy & Hin) & Hb).
    apply in_map_iff in Hin. destruct Hin as (qx & E & Hqx).
    inversion E; subst. apply in_range in Hqx, Hqy. lia.
  - intros (Hx & Hy & Hbx & Hby). split; [|lia].
    exists py. split; [apply in_range; lia|].
    apply in_map_iff. exists px. split; [reflexivity|apply in_range; lia].
Qed.

Lemma saturation_body_spec (img : ImageData) (py px n : Z) :
  saturation_body img py px n
  = (n + Z.of_nat
           (length (filter (saturated img) (filter (in_buffer img) [(px, py)]))))%Z.
Proof.
  unfold saturation_body. cbn [filter in_buffer].
  destruct ((0 <=? px) && (px <? width img) && (0 <=? py) && (py <? height img))%Z;
    cbn [filter length]; [|lia].
  unfold saturated, channel. rewrite Z.add_0_r.
  destruct ((250 <=? get (data img) (pixel_index img px py))
            || (250 <=? get (data img) (pixel_index img px py + 1))
            || (250 <=? get (data img) (pixel_index img px py + 2)))%Z;
    cbn [length]; lia.
Qed.

Lemma saturation_row_spec (img : ImageData) (py : Z) (xs : list Z) :
  forall n,
    for_ xs (saturation_body img py) n
    = (n + Z.of_nat
             (length (filter (saturated img)
                        (filter (in_buffer img)
                           (map (fun px => (px, py)) xs)))))%Z.
Proof.
  induction xs as [|px xs IH]; intros n.
  - cbn. lia.
  - rewrite for_cons, IH, saturation_body_spec.
    change (map (fun px0 => (px0, py)) (px :: xs))
      with ([(px, py)] ++ map (fun px0 => (px0, py)) xs).
    rewrite !filter_app, length_app. lia.
Qed.

Lemma saturation_rows_spec (img : ImageData) (xs ys : list Z) :
  forall n,
    for_ ys (fun py m => for_ xs (saturation_body img py) m) n
    = (n + Z.of_nat
             (length (filter (saturated img)
                        (filter (in_buffer img)
                           (flat_map (fun py => map (fun px => (px, py)) xs)
                                     ys)))))%Z.
Proof.
  induction ys as [|py ys IH]; intros n.
  - cbn. lia.
  - rewrite for_cons, IH, saturation_row_spec.
    cbn [flat_map]. rewrite !filter_app, length_app. lia.
Qed.

Lemma saturation_scan_count (img : ImageData) (centerX centerY radius : R) :
  saturation_scan img centerX centerY radius
  = saturated_count img centerX centerY radius.
Proof.
  unfold saturation_scan, saturated_count, scanned_region, square.
  rewrite saturation_rows_spec. lia.
Qed.

End SaturationFacts.

Section SaturationClaim.
Import Js ImageProcessing Samples.


Lemma square_1_1_1 :
  square 1 1 1
  = [ (0, 0); (1, 0); (2, 0); (0, 1); (1, 1); (2, 1); (0, 2); (1, 2); (2, 2) ]%Z.
Proof.
  unfold square.
  replace (1 - 1) with (IZR 0) by lra.
  replace (1 + 1) with (IZR 2) by lra.
  rewrite ZfloorZ. unfold Zceil.
  replace (- IZR 2) with (IZR (-2)) by lra.
  rewrite ZfloorZ. reflexivity.
Defined.


End SaturationClaim.

(* ================================================================== *)
(** ** The 3D viewer *)
(* ================================================================== *)

Section ViewerFacts.
Import Js PSF3DViewer.

Lemma PI_gt_3 : 3 < PI.
Proof. pose proof PI2_3_2. lra. Qed.

Lemma clamp_zoom (t : R) : 0.5 <= Rmin (Rmax 0.5 t) 3.0 <= 3.0.
Proof.
  unfold Rmin, Rmax.
  destruct (Rle_dec 0.5 t); destruct (Rle_dec _ 3.0); lra.
Qed.

Lemma clamp_elevation (t : R) :
  0.2 <= Rmax 0.2 (Rmin (PI / 2.2) t) <= PI / 2.2.
Proof.
  pose proof PI_gt_3.
  unfold Rmin, Rmax.
  destruct (Rle_dec (PI / 2.2) t); destruct (Rle_dec 0.2 _); lra.
Qed.

Lemma step_in_range (v : Viewer) (e : Event) :
  zoom_in_range v -> elevation_in_range v ->
  zoom_in_range (step v e) /\ elevation_in_range (step v e).
Proof.
  unfold zoom_in_range, elevation_in_range. intros Hz He.
  destruct e as [cx cy | | | cx cy | dy | ]; cbn [step].
  - split; assumption.
  - split; assumption.
  - split; assumption.
  - unfold handleMouseMove.
    destruct (negb (isDragging v)); cbn [scale angle_x]; [now split|].
    split; [assumption|apply clamp_elevation].
  - unfold handleWheel; cbn [scale angle_x].
    split; [apply clamp_zoom|assumption].
  - unfold animate, with_azimuth.
    destruct (negb (isDragging v)); cbn [scale angle_x]; now split.
Qed.

Lemma run_in_range (es : list Event) :
  forall v, zoom_in_range v -> elevation_in_range v ->
            zoom_in_range (run v es) /\ elevation_in_range (run v es).
Proof.
  induction es as [|e es IH]; intros v Hz He; [now split|].
  destruct (step_in_range v e Hz He) as (Hz' & He').
  exact (IH (step v e) Hz' He').
Qed.

Lemma handleWheel_scale (deltaY : R) (v : Viewer) :
  let target := scale v + - sign deltaY * 0.1 in
  (3.0 < target -> scale (handleWheel deltaY v) = 3.0) /\
  (target < 0.5 -> scale (handleWheel deltaY v) = 0.5) /\
  (0.5 <= target <= 3.0 -> scale (handleWheel deltaY v) = target).
Proof.
  cbv zeta. unfold handleWheel; cbn [scale].
  unfold Rmin, Rmax.
  destruct (Rle_dec 0.5 (scale v + - sign deltaY * 0.1));
    destruct (Rle_dec _ 3.0); repeat split; intros; lra.
Qed.

Lemma handleMouseMove_elevation (clientX clientY : R) (v : Viewer) :
  isDragging v = true ->
  let target := angle_x v + (clientY - lastMouse_y v) * 0.01 in
  (PI / 2.2 < target -> angle_x (handleMouseMove clientX clientY v) = PI / 2.2) /\
  (target < 0.2 -> angle_x (handleMouseMove clientX clientY v) = 0.2) /\
  (0.2 <= target <= PI / 2.2 ->
   angle_x (handleMouseMove clientX clientY v) = target).
Proof.
  intros Hd. cbv zeta. unfold handleMouseMove. rewrite Hd; cbn [negb angle_x].
  pose proof PI_gt_3.
  unfold Rmin, Rmax.
  destruct (Rle_dec (PI / 2.2) _); destruct (Rle_dec 0.2 _);
    repeat split; intros; lra.
Qed.

Lemma sign_cases (r : R) :
  (0 < r -> sign r = 1) /\ (r < 0 -> sign r = -1) /\ (r = 0 -> sign r = 0).
Proof.
  unfold sign. destruct (Rlt_dec 0 r); destruct (Rlt_dec r 0);
    repeat split; intros; lra.
Qed.

End ViewerFacts.

Section ViewerClaims.
Import Js PSF3DViewer Samples.

(** C6. From a zoom in [0.5, 3.0] and an elevation in [0.2, PI/2.2], every
    finite sequence of events (wheel, pointer down, move, up, leave and
    animation frames) leaves the zoom in [0.5, 3.0] and the elevation in
    [0.2, PI/2.2].  A wheel step moves the zoom by 0.1 against the sign of
    [deltaY], and a step or a drag that would pass a bound leaves the value
    at that bound. *)
Theorem viewer_clamped (v : Viewer) (es : list Event) :
  zoom_in_range v -> elevation_in_range v ->
  let v' := run v es in
  (zoom_in_range v' /\ elevation_in_range v') /\
  (forall deltaY,
      let target := scale v' + - sign deltaY * 0.1 in
      (0 < deltaY -> target = scale v' - 0.1) /\
      (deltaY < 0 -> target = scale v' + 0.1) /\
      (3.0 < target -> scale (handleWheel deltaY v') = 3.0) /\
      (target < 0.5 -> scale (handleWheel deltaY v') = 0.5) /\
      (0.5 <= target <= 3.0 -> scale (handleWheel deltaY v') = target)) /\
  (forall clientX clientY,
      isDragging v' = true ->
      let target := angle_x v' + (clientY - lastMouse_y v') * 0.01 in
      (PI / 2.2 < target ->
       angle_x (handleMouseMove clientX clientY v') = PI / 2.2) /\
      (target < 0.2 -> angle_x (handleMouseMove clientX clientY v') = 0.2) /\
      (0.2 <= target <= PI / 2.2 ->
       angle_x (handleMouseMove clientX clientY v') = target)).
Proof.
  intros Hz He v'. split; [apply run_in_range; assumption|]. split.
  - intros deltaY target.
    destruct (sign_cases deltaY) as (Hp & Hn & _).
    destruct (handleWheel_scale deltaY v') as (H1 & H2 & H3).
    repeat split; try assumption.
    + intros H. unfold target. rewrite (Hp H). lra.
    + intros H. unfold target. rewrite (Hn H). lra.
  - intros clientX clientY Hd.
    apply handleMouseMove_elevation. exact Hd.
Qed.

Lemma viewer_clamped_witness :
  zoom_in_range (run initial session) /\
  elevation_in_range (run initial session).
Proof.
  apply (viewer_clamped initial session).
  - unfold zoom_in_range, initial; cbn [scale]. lra.
  - unfold elevation_in_range, initial; cbn [angle_x].
    pose proof PI_gt_3. lra.
Defined.

(** C9. For every point [(x, y, z)], every elevation and every zoom, the
    projection at azimuth [a + 2 * PI] is the projection at azimuth [a]
    (over the reals). *)
Theorem project_azimuth_period (v : Viewer) (a width height x y z : R) :
  project (with_azimuth v (a + 2 * PI)) width height x y z
  = project (with_azimuth v a) width height x y z.
Proof.
  unfold project, with_azimuth; cbn [angle_x angle_z scale].
  replace (a + 2 * PI) with (a + 2 * INR 1 * PI) by (cbn [INR]; lra).
  rewrite cos_period, sin_period. reflexivity.
Qed.

End ViewerClaims.

(* ================================================================== *)
(** ** calculateRadialProfile *)
(* ================================================================== *)

Section ProfileFacts.
Import Js ImageProcessing.

Lemma for_push {A B : Type} (f : A -> B) (l : list A) :
  forall acc, for_ l (fun i profile => profile ++ [f i]) acc = acc ++ map f l.
Proof.
  induction l as [|i l IH]; intros acc.
  - cbn. now rewrite app_nil_r.
  - rewrite for_cons, IH. cbn [map]. now rewrite <- app_assoc.
Qed.

Lemma profile_pushes (s : ProfileVars) (peak : R) (l : list Z) :
  for_ l (profile_push s peak) [] = map (profile_point s peak) l.
Proof.
  change (profile_push s peak)
    with (fun i profile => profile ++ [profile_point s peak i]).
  now rewrite for_push.
Qed.

Lemma calculateRadialProfile_eq (img : ImageData) (centerX centerY : R)
  (maxRadius : Z) :
  (0 <= maxRadius < 2 ^ 32)%Z ->
  calculateRadialProfile img centerX centerY maxRadius
  = Some (map (profile_point (profile_scan img centerX centerY maxRadius)
                 (profile_peak (profile_scan img centerX centerY maxRadius)))
              (range 0 maxRadius)).
Proof.
  intros H. unfold calculateRadialProfile.
  destruct (Z.ltb_spec maxRadius 0); [lia|].
  destruct (Z.leb_spec (2 ^ 32) maxRadius); [lia|].
  cbn [orb]. now rewrite profile_pushes.
Qed.

Lemma update_nat_Forall {A : Type} (P : A -> Prop) (f : A -> A) (a : list A) :
  (forall v, P v -> P (f v)) -> Forall P a ->
  forall i, Forall P (update_nat a i f).
Proof.
  intros Hf Ha. induction Ha as [|v a Hv Ha IH]; intros i.
  - destruct i; constructor.
  - destruct i; cbn [update_nat]; constructor; auto.
Qed.

Lemma update_Forall {A : Type} (P : A -> Prop) (f : A -> A) (a : list A)
  (i : Z) :
  (forall v, P v -> P (f v)) -> Forall P a -> Forall P (update a i f).
Proof.
  intros Hf Ha. unfold update. destruct (i <? 0)%Z; [exact Ha|].
  now apply update_nat_Forall.
Qed.

Lemma getR_Forall (P : R -> Prop) (a : list R) (i : Z) :
  Forall P a -> P 0 -> P (getR a i).
Proof.
  intros Ha H0. unfold getR. destruct (i <? 0)%Z; [exact H0|].
  destruct (nth_in_or_default (Z.to_nat i) a 0) as [Hin | ->]; [|exact H0].
  rewrite Forall_forall in Ha. now apply Ha.
Qed.

(** The sums and the counts of the pass are non-negative. *)
Lemma profile_scan_nonneg (img : ImageData) (centerX centerY : R)
  (maxRadius : Z) :
  wf_image img ->
  Forall (fun b => 0 <= b) (bins (profile_scan img centerX centerY maxRadius)) /\
  Forall (fun c => (0 <= c)%Z)
    (counts (profile_scan img centerX centerY maxRadius)).
Proof.
  intros Hwf. unfold profile_scan.
  apply (for_invariant
           (fun s => Forall (fun b => 0 <= b) (bins s) /\
                     Forall (fun c => (0 <= c)%Z) (counts s))).
  - intros py s _ Hs. apply for_invariant; [|exact Hs].
    intros px t _ (Hb & Hc). unfold profile_body.
    destruct (Rlt_dec _ _); [|now split].
    cbn [bins counts]. split.
    + apply update_Forall; [|exact Hb].
      intros v Hv. pose proof (luminosity_nonneg img px py Hwf) as Hl.
      unfold luminosity in Hl. lra.
    + apply update_Forall; [|exact Hc]. intros v Hv. lia.
  - cbn [bins counts]. split; apply Forall_forall; intros v Hv;
      apply repeat_spec in Hv; subst v; [lra|lia].
Qed.

Lemma profile_mean_nonneg (s : ProfileVars) (i : Z) :
  Forall (fun b => 0 <= b) (bins s) ->
  0 <= (if (0 <? get (counts s) i)%Z
        then getR (bins s) i / IZR (get (counts s) i)
        else 0).
Proof.
  intros Hb. destruct (Z.ltb_spec 0 (get (counts s) i)) as [Hpos|_]; [|lra].
  apply Rmult_le_pos.
  - apply (getR_Forall (fun b => 0 <= b)); [exact Hb|lra].
  - left. apply Rinv_0_lt_compat. now apply IZR_lt.
Qed.

Lemma profile_peak_nonneg (s : ProfileVars) :
  Forall (fun b => 0 <= b) (bins s) -> 0 <= profile_peak s.
Proof.
  intros Hb. unfold profile_peak.
  pose proof (profile_mean_nonneg s 0 Hb) as H.
  destruct (0 <? get (counts s) 0)%Z; [exact H|lra].
Qed.

(** The bin index of a pixel that passes the test [distance < maxRadius]
    is an index of the two arrays. *)
Lemma bin_index_in_range (distance : R) (maxRadius : Z) :
  0 <= distance -> distance < IZR maxRadius ->
  (0 <= Zfloor distance < maxRadius)%Z.
Proof.
  intros H0 Hlt. split.
  - apply Zfloor_lub. exact H0.
  - apply lt_IZR. pose proof (Zfloor_bound distance). lra.
Qed.

(** X7. What [calculateRadialProfile] does guarantee: on a well-formed
    buffer and for [0 <= maxRadius < 2^32] it returns [maxRadius] entries
    with radii [0, 1, ..., maxRadius - 1]; and when the peak reference is
    not zero, every intensity is a finite number [>= 0] and a bin without
    pixels reports [0]. *)
Theorem calculateRadialProfile_shape (img : ImageData) (centerX centerY : R)
  (maxRadius : Z) :
  wf_image img -> (0 <= maxRadius < 2 ^ 32)%Z ->
  exists profile,
    calculateRadialProfile img centerX centerY maxRadius = Some profile /\
    Z.of_nat (length profile) = maxRadius /\
    map radius profile = range 0 maxRadius /\
    let s := profile_scan img centerX centerY maxRadius in
    (profile_peak s <> 0 ->
     forall p, In p profile ->
       (exists r, intensity p = Finite r /\ 0 <= r) /\
       (get (counts s) (radius p) = 0%Z -> intensity p = Finite 0)).
Proof.
  intros Hwf HR. eexists. split; [apply calculateRadialProfile_eq, HR|].
  split; [rewrite length_map, length_range; lia|].
  split; [rewrite map_map; cbn [radius profile_point]; apply map_id|].
  intros s Hpeak p Hp.
  destruct (profile_scan_nonneg img centerX centerY maxRadius Hwf) as (Hb & _).
  fold s in Hb, Hp.
  pose proof (profile_peak_nonneg s Hb) as Hp0.
  clearbody s.
  apply in_map_iff in Hp. destruct Hp as (i & <- & _).
  cbn [intensity radius profile_point]. unfold div.
  destruct (Req_dec_T (profile_peak s) 0) as [E|_]; [contradiction|].
  split.
  - eexists. split; [reflexivity|].
    apply Rmult_le_pos; [apply profile_mean_nonneg, Hb|].
    left. apply Rinv_0_lt_compat. lra.
  - intros ->. cbn. f_equal. unfold Rdiv. apply Rmult_0_l.
Qed.

(** And what it returns when the centre bin holds only black pixels: the
    peak reference is zero and every intensity is [NaN] or [Infinity]. *)
Lemma calculateRadialProfile_zero_peak (img : ImageData) (centerX centerY : R)
  (maxRadius : Z) :
  wf_image img -> (0 <= maxRadius < 2 ^ 32)%Z ->
  profile_peak (profile_scan img centerX centerY maxRadius) = 0 ->
  exists profile,
    calculateRadialProfile img centerX centerY maxRadius = Some profile /\
    forall p, In p profile -> intensity p = NaN \/ intensity p = PosInfinity.
Proof.
  intros Hwf HR Hpeak. eexists. split; [apply calculateRadialProfile_eq, HR|].
  intros p Hp.
  destruct (profile_scan_nonneg img centerX centerY maxRadius Hwf) as (Hb & _).
  apply in_map_iff in Hp. destruct Hp as (i & <- & _).
  cbn [intensity profile_point]. rewrite Hpeak. unfold div.
  pose proof (profile_mean_nonneg _ i Hb) as Hm.
  destruct (Req_dec_T 0 0) as [_|H]; [|contradiction].
  destruct (Rlt_dec 0 _); [now right|].
  destruct (Rlt_dec _ 0); [lra|now left].
Qed.

End ProfileFacts.

Section ProfileDefect.
Import Js ImageProcessing Samples.

(** Settles the comparisons of reals that stand in the goal. *)
Ltac decide_reals :=
  repeat match goal with
    | |- context [Rgt_dec ?a ?b] =>
        destruct (Rgt_dec a b); try (exfalso; lra)
    | |- context [Rlt_dec ?a ?b] =>
        destruct (Rlt_dec a b); try (exfalso; lra)
    | |- context [Req_dec_T ?a ?b] =>
        destruct (Req_dec_T a b); try (exfalso; lra)
    end.

Lemma wf_two_stars : wf_image two_stars.
Proof. unfold two_stars. solve_wf_image. Qed.

Lemma two_stars_bright (px : Z) :
  px = 0%Z \/ px = 4%Z -> mean3 (data two_stars) (pixel_index two_stars px 0) = 200.
Proof.
  intros [-> | ->]; change (mean3 _ _) with ((200 + 200 + 200) / 3); lra.
Qed.

Lemma two_stars_dark (px : Z) :
  px = 1%Z \/ px = 2%Z \/ px = 3%Z ->
  mean3 (data two_stars) (pixel_index two_stars px 0) = 0.
Proof.
  intros [-> | [-> | ->]]; change (mean3 _ _) with ((0 + 0 + 0) / 3); lra.
Qed.

(** A pixel at least as bright as the running peak enters the sums. *)
Lemma centroid_body_lit (img : ImageData) (py px : Z) (s : CentroidVars)
  (v : R) :
  mean3 (data img) (pixel_index img px py) = v -> 0 < v -> runMax s <= v ->
  centroid_body img py px s
  = {| totalMass := totalMass s + v;
       sumX := sumX s + IZR px * v;
       sumY := sumY s + IZR py * v;
       runMax := v |}.
Proof.
  intros Hv Hpos Hle. unfold centroid_body. rewrite Hv.
  destruct (Rgt_dec v (runMax s)) as [Hgt | Hngt].
  - destruct (Rgt_dec v (v * 0.2)) as [_|H]; [reflexivity|exfalso; lra].
  - assert (E : runMax s = v) by lra. rewrite E.
    destruct (Rgt_dec v (v * 0.2)) as [_|H]; [reflexivity|exfalso; lra].
Qed.

(** The centroid of the two stars is the black pixel midway. *)
Lemma two_stars_centroid :
  calculateCentroid two_stars = {| x := 2; y := 0; maxVal := 200 |}.
Proof.
  assert (Hscan : centroid_scan two_stars
                  = {| totalMass := 0 + 200 + 200;
                       sumX := 0 + 0 * 200 + 4 * 200;
                       sumY := 0 + 0 * 200 + 0 * 200;
                       runMax := 200 |}).
  { unfold centroid_scan.
    change (range 0 (height two_stars)) with [0%Z].
    rewrite for_cons, for_nil. unfold centroid_row.
    change (range 0 (width two_stars)) with [0; 1; 2; 3; 4]%Z.
    rewrite for_cons.
    rewrite (centroid_body_lit two_stars 0 0 centroid_init 200);
      [|apply two_stars_bright; auto|lra|cbn; lra].
    cbn [totalMass sumX sumY runMax centroid_init].
    rewrite for_cons, centroid_body_black;
      [|apply two_stars_dark; auto|cbn; lra].
    rewrite for_cons, centroid_body_black;
      [|apply two_stars_dark; auto|cbn; lra].
    rewrite for_cons, centroid_body_black;
      [|apply two_stars_dark; auto|cbn; lra].
    rewrite for_cons.
    rewrite (centroid_body_lit two_stars 0 4 _ 200);
      [|apply two_stars_bright; auto|lra|cbn; lra].
    reflexivity. }
  unfold calculateCentroid. rewrite Hscan. cbn [totalMass sumX sumY runMax].
  destruct (Req_dec_T (0 + 200 + 200) 0) as [H|_]; [exfalso; lra|].
  f_equal; lra.
Qed.

Lemma round_half_away_IZR (n : Z) : (0 <= n)%Z -> round_half_away (IZR n) = n.
Proof.
  intros Hn. unfold round_half_away.
  destruct (Rle_dec 0 (IZR n)) as [_|H]; [|exfalso; apply H, IZR_le, Hn].
  apply Zfloor_eq. lra.
Qed.

Lemma stats_pixel_core (halfMax peak : R) (p : Z * Z * Z) (s : StatsVars) :
  halfMax < pixel_mean p -> peak * 0.1 <= pixel_mean p ->
  stats_pixel halfMax peak p s
  = {| halfMaxCount := halfMaxCount s + 1;
       backgroundSum := backgroundSum s;
       backgroundCount := backgroundCount s |}.
Proof.
  intros H1 H2. unfold stats_pixel.
  destruct (Rgt_dec (pixel_mean p) halfMax) as [_|H]; [|exfalso; lra].
  destruct (Rlt_dec (pixel_mean p) (peak * 0.1)) as [H|_]; [exfalso; lra|].
  reflexivity.
Qed.

Lemma stats_pixel_background (halfMax peak : R) (p : Z * Z * Z)
  (s : StatsVars) :
  pixel_mean p <= halfMax -> pixel_mean p < peak * 0.1 ->
  stats_pixel halfMax peak p s
  = {| halfMaxCount := halfMaxCount s;
       backgroundSum := backgroundSum s + pixel_mean p;
       backgroundCount := backgroundCount s + 1 |}.
Proof.
  intros H1 H2. unfold stats_pixel.
  destruct (Rgt_dec (pixel_mean p) halfMax) as [H|_]; [exfalso; lra|].
  destruct (Rlt_dec (pixel_mean p) (peak * 0.1)) as [_|H]; [|exfalso; lra].
  reflexivity.
Qed.

(** The two stars pass the checks the application makes before it asks for
    the profile (peak at least 20, SNR at least 3), and the centre it passes
    on is the black pixel (2, 0). *)
Lemma two_stars_stats :
  centroid (estimateStats two_stars) = (2, 0) /\
  peakIntensity (estimateStats two_stars) = 200%Z /\
  snr (estimateStats two_stars) = Finite 200.
Proof.
  assert (Hb : pixel_mean (200, 200, 200)%Z = 200)
    by (unfold pixel_mean; lra).
  assert (Hd : pixel_mean (0, 0, 0)%Z = 0) by (unfold pixel_mean; lra).
  assert (Hscan : stats_scan two_stars
                  = {| halfMaxCount := 2;
                       backgroundSum := 0 + 0 + 0 + 0;
                       backgroundCount := 3 |}).
  { rewrite stats_scan_pixels by exact wf_two_stars.
    rewrite two_stars_centroid; cbn [maxVal].
    unfold two_stars; cbn [data pixels].
    rewrite for_cons, stats_pixel_core by (rewrite Hb; lra).
    rewrite for_cons, stats_pixel_background by (rewrite Hd; lra).
    rewrite for_cons, stats_pixel_background by (rewrite Hd; lra).
    rewrite for_cons, stats_pixel_background by (rewrite Hd; lra).
    rewrite for_cons, stats_pixel_core by (rewrite Hb; lra).
    rewrite for_nil, Hd.
    cbn [halfMaxCount backgroundSum backgroundCount]. reflexivity. }
  assert (Hbg : stats_bg two_stars = 0).
  { unfold stats_bg. rewrite Hscan.
    cbn [backgroundCount backgroundSum Z.ltb Z.compare]. lra. }
  unfold estimateStats, stats_signal, stats_noise.
  rewrite two_stars_centroid, Hbg; cbn [x y maxVal centroid peakIntensity snr].
  split; [reflexivity|]. split; [apply (ZfloorZ 200)|].
  replace (0 + 1) with 1 by lra. rewrite sqrt_1.
  unfold div.
  destruct (Req_dec_T 1 0) as [H|_]; [exfalso; lra|].
  cbn [toFixed_number]. f_equal.
  unfold toFixed.
  replace ((200 - 0) / 1 * 10 ^ 1) with (IZR 2000) by (cbn [pow]; lra).
  rewrite round_half_away_IZR by lia. cbn [pow]. lra.
Qed.

(** A pixel at distance [k] below [maxRadius] falls into bin [k]. *)
Lemma profile_body_bin (img : ImageData) (centerX centerY : R)
  (maxRadius py px : Z) (s : ProfileVars) (k : Z) (v : R) :
  (IZR px - centerX) * (IZR px - centerX)
  + (IZR py - centerY) * (IZR py - centerY) = IZR k * IZR k ->
  (0 <= k < maxRadius)%Z ->
  mean3 (data img) (pixel_index img px py) = v ->
  profile_body img centerX centerY maxRadius py px s
  = {| bins := update (bins s) k (fun b => b + v);
       counts := update (counts s) k (fun c => (c + 1)%Z) |}.
Proof.
  intros Hd Hk Hv. unfold profile_body.
  rewrite Hd, sqrt_square by (apply IZR_le; lia).
  destruct (Rlt_dec (IZR k) (IZR maxRadius)) as [_|H];
    [|exfalso; apply H, IZR_lt; lia].
  rewrite ZfloorZ, Hv. reflexivity.
Qed.

(** C2, at a failing input that the application reaches.  Around the black
    midpoint of the two stars the centre bin has mean 0, so the peak
    reference is 0: the bins of mean 0, the empty bin 3 among them, report
    [NaN] and the bin holding the stars reports [Infinity], where the claim
    says that every intensity is [>= 0] and that an empty bin reports 0. *)
Theorem calculateRadialProfile_dark_centre :
  calculateRadialProfile two_stars 2 0 4
  = Some [ {| radius := 0; intensity := NaN;
              idealDiffraction := exp (- 0.1 * 0 * 0) |};
           {| radius := 1; intensity := NaN;
              idealDiffraction := exp (- 0.1 * 1 * 1) |};
           {| radius := 2; intensity := PosInfinity;
              idealDiffraction := exp (- 0.1 * 2 * 2) |};
           {| radius := 3; intensity := NaN;
              idealDiffraction := exp (- 0.1 * 3 * 3) |} ].
Proof.
  rewrite calculateRadialProfile_eq by lia.
  assert (Hscan : profile_scan two_stars 2 0 4
                  = {| bins := [0 + 0; 0 + 0 + 0; 0 + 200 + 200; 0];
                       counts := [1; 2; 2; 0]%Z |}).
  { unfold profile_scan.
    change (range 0 (height two_stars)) with [0%Z].
    change (range 0 (width two_stars)) with [0; 1; 2; 3; 4]%Z.
    rewrite for_cons, for_nil.
    rewrite for_cons, (profile_body_bin two_stars 2 0 4 0 0 _ 2 200);
      [|lra|lia|apply two_stars_bright; auto].
    rewrite for_cons, (profile_body_bin two_stars 2 0 4 0 1 _ 1 0);
      [|lra|lia|apply two_stars_dark; auto].
    rewrite for_cons, (profile_body_bin two_stars 2 0 4 0 2 _ 0 0);
      [|lra|lia|apply two_stars_dark; auto].
    rewrite for_cons, (profile_body_bin two_stars 2 0 4 0 3 _ 1 0);
      [|lra|lia|apply two_stars_dark; auto].
    rewrite for_cons, (profile_body_bin two_stars 2 0 4 0 4 _ 2 200);
      [|lra|lia|apply two_stars_bright; auto].
    reflexivity. }
  rewrite Hscan.
  change (range 0 4) with [0; 1; 2; 3]%Z.
  unfold profile_peak, profile_point; cbn [map bins counts].
  change (get [1; 2; 2; 0]%Z 0) with 1%Z.
  change (get [1; 2; 2; 0]%Z 1) with 2%Z.
  change (get [1; 2; 2; 0]%Z 2) with 2%Z.
  change (get [1; 2; 2; 0]%Z 3) with 0%Z.
  change (getR [0 + 0; 0 + 0 + 0; 0 + 200 + 200; 0] 0) with (0 + 0).
  change (getR [0 + 0; 0 + 0 + 0; 0 + 200 + 200; 0] 1) with (0 + 0 + 0).
  change (getR [0 + 0; 0 + 0 + 0; 0 + 200 + 200; 0] 2) with (0 + 200 + 200).
  cbn [Z.ltb Z.compare].
  unfold div. decide_reals. reflexivity.
Qed.

(** The smallest instance: on a single black pixel with the centre on it and
    two bins, both entries report [NaN], the bin holding the pixel and the
    bin without pixels. *)
Lemma calculateRadialProfile_black_pixel :
  calculateRadialProfile black_pixel 0 0 2
  = Some [ {| radius := 0; intensity := NaN;
              idealDiffraction := exp (- 0.1 * 0 * 0) |};
           {| radius := 1; intensity := NaN;
              idealDiffraction := exp (- 0.1 * 1 * 1) |} ].
Proof.
  rewrite calculateRadialProfile_eq by lia.
  assert (Hscan : profile_scan black_pixel 0 0 2
                  = {| bins := [0 + (0 + 0 + 0) / 3; 0]; counts := [1; 0]%Z |}).
  { unfold profile_scan, black_pixel; cbn [width height data].
    change (range 0 1) with [0%Z].
    unfold for_; cbn [fold_left]. unfold profile_body.
    replace ((0 - 0) * (0 - 0) + (0 - 0) * (0 - 0)) with 0 by lra.
    rewrite sqrt_0.
    destruct (Rlt_dec 0 2) as [_|H]; [|lra].
    rewrite (ZfloorZ 0). reflexivity. }
  rewrite Hscan.
  assert (Hpeak : profile_peak
                    {| bins := [0 + (0 + 0 + 0) / 3; 0]; counts := [1; 0]%Z |}
                  = (0 + (0 + 0 + 0) / 3) / 1) by reflexivity.
  rewrite Hpeak.
  change (range 0 2) with [0%Z; 1%Z]. cbn [map].
  unfold profile_point; cbn [counts bins].
  change (get [1; 0]%Z 0) with 1%Z. change (get [1; 0]%Z 1) with 0%Z.
  change (getR [0 + (0 + 0 + 0) / 3; 0] 0) with (0 + (0 + 0 + 0) / 3).
  cbn [Z.ltb Z.compare].
  unfold div.
  destruct (Req_dec_T ((0 + (0 + 0 + 0) / 3) / 1) 0) as [_|H]; [|lra].
  destruct (Rlt_dec 0 ((0 + (0 + 0 + 0) / 3) / 1)) as [H|_]; [lra|].
  destruct (Rlt_dec ((0 + (0 + 0 + 0) / 3) / 1) 0) as [H|_]; [lra|].
  destruct (Rlt_dec 0 0) as [H|_]; [lra|].
  reflexivity.
Qed.

End ProfileDefect.

(* ================================================================== *)
(** ** The log stretch: the curve over the reals *)
(* ================================================================== *)

Section StretchCurve.
Import Js ImageProcessing.

(** The logarithm lies below its tangent at 1. *)
Lemma ln_below_tangent (w : R) : 0 < w -> w <> 1 -> ln w < w - 1.
Proof.
  intros Hw Hne.
  assert (H : 1 + (w - 1) < exp (w - 1)) by (apply exp_ineq1; lra).
  replace (1 + (w - 1)) with w in H by lra.
  rewrite <- (ln_exp (w - 1)). now apply ln_increasing.
Qed.

Lemma ln_quotient (a c : R) : 0 < a -> 0 < c -> ln (a / c) = ln a - ln c.
Proof.
  intros Ha Hc. unfold Rdiv.
  rewrite ln_mult by (auto using Rinv_0_lt_compat).
  rewrite ln_Rinv by exact Hc. lra.
Qed.

(** The logarithm lies strictly above its chords. *)
Lemma ln_above_chord (a b t : R) :
  0 < a -> 0 < b -> a <> b -> 0 < t < 1 ->
  (1 - t) * ln a + t * ln b < ln ((1 - t) * a + t * b).
Proof.
  intros Ha Hb Hne Ht.
  set (c := (1 - t) * a + t * b).
  assert (Hc : 0 < c) by (unfold c; nra).
  assert (Hac : a <> c) by (unfold c; nra).
  assert (Hbc : b <> c) by (unfold c; nra).
  assert (Hqa : a / c <> 1).
  { intros E. apply Hac. apply (Rmult_eq_compat_r c) in E.
    unfold Rdiv in E. rewrite Rmult_assoc, Rinv_l in E; lra. }
  assert (Hqb : b / c <> 1).
  { intros E. apply Hbc. apply (Rmult_eq_compat_r c) in E.
    unfold Rdiv in E. rewrite Rmult_assoc, Rinv_l in E; lra. }
  assert (Hpa : 0 < a / c) by (apply Rdiv_lt_0_compat; assumption).
  assert (Hpb : 0 < b / c) by (apply Rdiv_lt_0_compat; assumption).
  pose proof (ln_below_tangent (a / c) Hpa Hqa) as Ta.
  pose proof (ln_below_tangent (b / c) Hpb Hqb) as Tb.
  rewrite ln_quotient in Ta, Tb by assumption.
  assert (Hsum : (1 - t) * (a / c - 1) + t * (b / c - 1) = 0).
  { unfold c. field. fold c. lra. }
  assert (H1 : (1 - t) * (ln a - ln c) < (1 - t) * (a / c - 1))
    by (apply Rmult_lt_compat_l; lra).
  assert (H2 : t * (ln b - ln c) < t * (b / c - 1))
    by (apply Rmult_lt_compat_l; lra).
  lra.
Qed.

Lemma ln_256_pos : 0 < ln (1 + 255).
Proof. rewrite <- ln_1. apply ln_increasing; lra. Qed.

Lemma constant_pos : 0 < constant.
Proof.
  unfold constant. apply Rdiv_lt_0_compat; [lra|apply ln_256_pos].
Qed.

Lemma stretch_0 : stretch 0 = 0.
Proof.
  unfold stretch. replace (1 + 0) with 1 by lra. rewrite ln_1. lra.
Qed.

Lemma stretch_255 : stretch 255 = 255.
Proof.
  unfold stretch, constant. pose proof ln_256_pos. field. lra.
Qed.

Lemma stretch_increasing (u v : R) : -1 < u -> u < v -> stretch u < stretch v.
Proof.
  intros Hu Huv. unfold stretch.
  apply Rmult_lt_compat_l; [apply constant_pos|].
  apply ln_increasing; lra.
Qed.

(** Between its two fixed points the curve lies above the diagonal. *)
Lemma stretch_above (x : R) : 0 < x < 255 -> x < stretch x.
Proof.
  intros Hx.
  pose proof (ln_above_chord 1 256 (x / 255)) as H.
  rewrite ln_1 in H.
  replace ((1 - x / 255) * 1 + x / 255 * 256) with (1 + x) in H by field.
  assert (Ht : 0 < x / 255 < 1) by lra.
  specialize (H ltac:(lra) ltac:(lra) ltac:(lra) Ht).
  pose proof ln_256_pos as HL.
  unfold stretch, constant.
  replace (1 + 255) with 256 in * by lra.
  set (L := ln 256) in *. set (A := ln (1 + x)) in *.
  assert (Hc : 0 < 255 / L) by (apply Rdiv_lt_0_compat; lra).
  assert (Hm : 255 / L * (x / 255 * L) < 255 / L * A)
    by (apply Rmult_lt_compat_l; lra).
  replace (255 / L * (x / 255 * L)) with x in Hm by (field; lra).
  exact Hm.
Qed.

(** Beyond 255 it lies below. *)
Lemma stretch_below (x : R) : 255 < x -> stretch x < x.
Proof.
  intros Hx.
  pose proof (ln_above_chord 1 (1 + x) (255 / x)) as H.
  rewrite ln_1 in H.
  replace ((1 - 255 / x) * 1 + 255 / x * (1 + x)) with 256 in H
    by (field; lra).
  assert (Ht : 0 < 255 / x < 1).
  { split; [apply Rdiv_lt_0_compat; lra|].
    apply (Rmult_lt_reg_r x); [lra|]. unfold Rdiv.
    rewrite Rmult_assoc, Rinv_l; lra. }
  specialize (H ltac:(lra) ltac:(lra) ltac:(lra) Ht).
  pose proof ln_256_pos as HL.
  unfold stretch, constant.
  replace (1 + 255) with 256 in * by lra.
  set (L := ln 256) in *. set (A := ln (1 + x)) in *.
  assert (Hc : 0 < x / L) by (apply Rdiv_lt_0_compat; lra).
  assert (Hm : x / L * ((1 - 255 / x) * 0 + 255 / x * A) < x / L * L)
    by (apply Rmult_lt_compat_l; lra).
  replace (x / L * ((1 - 255 / x) * 0 + 255 / x * A)) with (255 / L * A) in Hm
    by (field; lra).
  replace (x / L * L) with x in Hm by (field; lra).
  exact Hm.
Qed.

Lemma stretch_fixed_points (x : R) :
  0 <= x -> (stretch x = x <-> x = 0 \/ x = 255).
Proof.
  intros Hx. split.
  - intros E.
    destruct (Rtotal_order x 0) as [H | [H | H]]; [lra|now left|].
    destruct (Rtotal_order x 255) as [H' | [H' | H']]; [|now right|].
    + pose proof (stretch_above x (conj H H')). lra.
    + pose proof (stretch_below x H'). lra.
  - intros [-> | ->]; [apply stretch_0|apply stretch_255].
Qed.

Lemma stretch_twice_differs (x : R) :
  0 < x < 255 -> stretch (stretch x) <> stretch x.
Proof.
  intros Hx.
  pose proof (stretch_increasing 0 x) as H0.
  pose proof (stretch_increasing x 255) as H1.
  rewrite stretch_0 in H0. rewrite stretch_255 in H1.
  assert (Hs : 0 < stretch x < 255) by lra.
  pose proof (stretch_above (stretch x) Hs). lra.
Qed.

End StretchCurve.

(* ================================================================== *)
(** ** The log stretch: the value kept by the buffer *)
(* ================================================================== *)

Section StretchStore.
Import Js ImageProcessing.

Lemma ln_2_pos : 0 < ln 2.
Proof. rewrite <- ln_1. apply ln_increasing; lra. Qed.

Lemma ln_256 : ln (1 + 255) = 8 * ln 2.
Proof.
  replace (1 + 255) with (2 ^ 8) by (cbn [pow]; lra).
  rewrite ln_pow by lra. cbn [INR]. lra.
Qed.

Lemma stretch_log2 (v : R) : 8 * ln 2 * stretch v = 255 * ln (1 + v).
Proof.
  unfold stretch, constant. rewrite ln_256.
  pose proof ln_2_pos. field. lra.
Qed.

Lemma ln_IZR_pow (u : Z) (n : nat) :
  (0 < u)%Z -> ln (IZR (u ^ Z.of_nat n)) = INR n * ln (IZR u).
Proof.
  intros Hu. rewrite <- pow_IZR. apply ln_pow. now apply IZR_lt.
Qed.

Lemma ln_le_mono (a b : R) : 0 < a -> a <= b -> ln a <= ln b.
Proof.
  intros Ha [Hlt | ->]; [left; now apply ln_increasing|right; reflexivity].
Qed.

(** [ln] of the 255th power of [1 + v], in terms of the curve. *)
Lemma ln_power_stretch (v : Z) :
  (0 <= v)%Z ->
  ln (IZR (power255 (1 + v))) = 8 * ln 2 * stretch (IZR v).
Proof.
  intros Hv. assert (Hu : (0 < 1 + v)%Z) by lia.
  unfold power255. change 255%Z with (Z.of_nat 255).
  rewrite (ln_IZR_pow (1 + v) 255 Hu).
  rewrite stretch_log2, plus_IZR.
  replace (INR 255) with 255 by (rewrite INR_IZR_INZ; reflexivity).
  reflexivity.
Qed.

Lemma power255_pos (u : Z) : (0 < u)%Z -> (0 < power255 u)%Z.
Proof. intros Hu. unfold power255. apply Z.pow_pos_nonneg; [exact Hu|discriminate]. Qed.

Lemma ln_power_two (n : Z) : (0 <= n)%Z -> ln (IZR (2 ^ n)) = IZR n * ln 2.
Proof.
  intros Hn. rewrite <- (Z2Nat.id n) at 1 by exact Hn.
  rewrite (ln_IZR_pow 2 (Z.to_nat n) eq_refl).
  rewrite INR_IZR_INZ, Z2Nat.id by exact Hn. reflexivity.
Qed.

Lemma power_two_pos (n : Z) : (0 <= n)%Z -> 0 < IZR (2 ^ n).
Proof.
  intros Hn. apply IZR_lt. apply Z.pow_pos_nonneg; [reflexivity|exact Hn].
Qed.

(** Comparing the curve with an integer is comparing integer powers. *)
Lemma stretch_ge_eighth (v m : Z) :
  (0 <= v)%Z -> (0 <= m)%Z -> (2 ^ m <= power255 (1 + v))%Z ->
  IZR m <= 8 * stretch (IZR v).
Proof.
  intros Hv Hm H. apply IZR_le in H.
  apply ln_le_mono in H; [|now apply power_two_pos].
  rewrite ln_power_two, ln_power_stretch in H by assumption.
  pose proof ln_2_pos as H2. clear Hv Hm.
  apply (Rmult_le_reg_r (ln 2)); [exact H2|]. lra.
Qed.

Lemma stretch_lt_eighth (v m : Z) :
  (0 <= v)%Z -> (0 <= m)%Z -> (power255 (1 + v) < 2 ^ m)%Z ->
  8 * stretch (IZR v) < IZR m.
Proof.
  intros Hv Hm H. assert (Hu : (0 < 1 + v)%Z) by lia. apply IZR_lt in H.
  apply ln_increasing in H; [|apply IZR_lt, power255_pos, Hu].
  rewrite ln_power_two, ln_power_stretch in H by assumption.
  pose proof ln_2_pos as H2. clear Hv Hm Hu.
  apply (Rmult_lt_reg_r (ln 2)); [exact H2|]. lra.
Qed.

Lemma stretch_gt_eighth (v m : Z) :
  (0 <= v)%Z -> (0 <= m)%Z -> (2 ^ m < power255 (1 + v))%Z ->
  IZR m < 8 * stretch (IZR v).
Proof.
  intros Hv Hm H. apply IZR_lt in H.
  apply ln_increasing in H; [|now apply power_two_pos].
  rewrite ln_power_two, ln_power_stretch in H by assumption.
  pose proof ln_2_pos as H2. clear Hv Hm.
  apply (Rmult_lt_reg_r (ln 2)); [exact H2|]. lra.
Qed.

Lemma div8_bounds (n : Z) :
  (8 * ((n + 4) / 8) <= n + 4 <= 8 * ((n + 4) / 8) + 7)%Z.
Proof.
  pose proof (Z.div_mod (n + 4) 8 ltac:(lia)).
  pose proof (Z.mod_pos_bound (n + 4) 8 ltac:(lia)). lia.
Qed.

Lemma stretch_range (v : R) : 0 <= v <= 255 -> 0 <= stretch v <= 255.
Proof.
  intros [H0 H1]. split.
  - destruct H0 as [H0 | <-]; [|rewrite stretch_0; lra].
    left. rewrite <- stretch_0. apply stretch_increasing; lra.
  - destruct H1 as [H1 | ->]; [|rewrite stretch_255; lra].
    left. pose proof (stretch_increasing v 255) as H.
    rewrite stretch_255 in H. apply H; lra.
Qed.

(** The store keeps the nearest integer. *)
Lemma ToUint8Clamp_nearest (r : R) (k : Z) :
  0 <= r <= 255 ->
  IZR k - / 2 <= r < IZR k + / 2 ->
  (r = IZR k - / 2 -> Z.even k = true) ->
  ToUint8Clamp r = k.
Proof.
  intros Hr Hk Htie. unfold ToUint8Clamp.
  replace (Rmin (Rmax r 0) 255) with r; cycle 1.
  { rewrite Rmax_left by lra. rewrite Rmin_left by lra. reflexivity. }
  destruct (Rle_lt_dec (IZR k) r) as [Hge | Hlt].
  - rewrite (Zfloor_eq k r) by lra.
    destruct (Rlt_dec r (IZR k + / 2)) as [_|H]; [reflexivity|lra].
  - rewrite (Zfloor_eq (k - 1) r) by (rewrite minus_IZR; lra).
    rewrite minus_IZR.
    destruct (Rlt_dec r (IZR k - 1 + / 2)) as [H|_]; [lra|].
    destruct (Rlt_dec (IZR k - 1 + / 2) r) as [_|H]; [lia|].
    assert (E : r = IZR k - / 2) by lra.
    specialize (Htie E).
    replace (k - 1)%Z with (Z.pred k) by lia.
    rewrite Z.even_pred, <- Z.negb_even, Htie. cbn. lia.
Qed.

Lemma tie_log (s l2 : R) (k : Z) :
  s = IZR k - / 2 -> 8 * l2 * s = IZR (8 * k - 4) * l2.
Proof. intros ->. rewrite minus_IZR, mult_IZR. field. Qed.

(** From the floor [L] of eight times [r] to the nearest integer of [r]. *)
Lemma nearest_from_floor8 (r : R) (L k : Z) :
  0 <= r <= 255 ->
  IZR L <= 8 * r < IZR L + 1 ->
  k = ((L + 4) / 8)%Z ->
  (8 * r = IZR L -> L = (8 * k - 4)%Z -> Z.even k = true) ->
  ToUint8Clamp r = k.
Proof.
  intros Hr [Rlo Rhi] Ek Htie.
  destruct (div8_bounds L) as [Hk1 Hk2]. rewrite <- Ek in Hk1, Hk2.
  apply ToUint8Clamp_nearest; [exact Hr| |].
  - apply IZR_le in Hk1, Hk2.
    rewrite plus_IZR, mult_IZR in Hk1. rewrite !plus_IZR, mult_IZR in Hk2.
    lra.
  - intros E.
    assert (H1 : IZR L <= 8 * IZR k - 4) by lra.
    assert (H2 : 8 * IZR k - 4 <= IZR L).
    { apply IZR_le in Hk1. rewrite plus_IZR, mult_IZR in Hk1. lra. }
    apply Htie; [lra|].
    apply eq_IZR. rewrite minus_IZR, mult_IZR. lra.
Qed.

Lemma tie_to_even_eq (v : Z) :
  tie_to_even v
  = negb ((power255 (1 + v) =? 2 ^ Z.log2 (power255 (1 + v)))%Z
          && ((Z.log2 (power255 (1 + v)) + 4) mod 8 =? 0)%Z)
    || Z.even ((Z.log2 (power255 (1 + v)) + 4) / 8).
Proof. reflexivity. Qed.

Lemma stretch_exact_eq (v : Z) :
  stretch_exact v = ((Z.log2 (power255 (1 + v)) + 4) / 8)%Z.
Proof. reflexivity. Qed.

(** A tie rounds to the even neighbour. *)
Lemma tie_is_even (v p L k : Z) :
  (0 <= v)%Z ->
  tie_to_even v = true ->
  p = power255 (1 + v) -> L = Z.log2 p -> k = ((L + 4) / 8)%Z ->
  8 * stretch (IZR v) = IZR L -> L = (8 * k - 4)%Z -> Z.even k = true.
Proof.
  intros Hv0 Htie Ep EL Ek E8r E8.
  pose proof (power255_pos (1 + v) ltac:(lia)) as Hp.
  pose proof (ln_power_stretch v Hv0) as Hln.
  rewrite <- Ep in Hp, Hln.
  assert (HL : (0 <= L)%Z) by (rewrite EL; apply Z.log2_nonneg).
  assert (Epow : p = (2 ^ L)%Z).
  { apply eq_IZR. apply ln_inv.
    - apply IZR_lt. exact Hp.
    - apply power_two_pos. exact HL.
    - rewrite Hln, ln_power_two by exact HL.
      rewrite <- E8r. ring. }
  assert (Emod : ((L + 4) mod 8 = 0)%Z).
  { rewrite E8.
    replace (8 * k - 4 + 4)%Z with (k * 8)%Z by (clear; lia).
    apply Z.mod_mul. discriminate. }
  rewrite tie_to_even_eq in Htie.
  rewrite <- Ep, <- EL, <- Ek in Htie.
  rewrite Emod, <- Epow, Z.eqb_refl in Htie.
  exact Htie.
Qed.

(** [stretch_exact] computes the stored value. *)
Lemma stretch_store_exact (v : Z) :
  (0 <= v <= 255)%Z -> tie_to_even v = true ->
  stretch_store v = stretch_exact v.
Proof.
  intros Hv Htie.
  assert (Hv0 : (0 <= v)%Z) by lia.
  assert (Hr : 0 <= stretch (IZR v) <= 255).
  { apply stretch_range. split; apply IZR_le; lia. }
  pose proof (power255_pos (1 + v) ltac:(lia)) as Hp.
  clear Hv.
  pose proof (Z.log2_nonneg (power255 (1 + v))) as HL.
  destruct (Z.log2_spec (power255 (1 + v)) Hp) as [Hlo Hhi].
  pose proof (stretch_ge_eighth v _ Hv0 HL Hlo) as Rlo.
  pose proof (stretch_lt_eighth v _ Hv0 (Z.le_le_succ_r _ _ HL) Hhi) as Rhi.
  rewrite succ_IZR in Rhi.
  rewrite stretch_exact_eq.
  apply (nearest_from_floor8 _ (Z.log2 (power255 (1 + v))) _ Hr (conj Rlo Rhi)
           eq_refl).
  apply (tie_is_even v _ _ _ Hv0 Htie eq_refl eq_refl eq_refl).
Qed.

Lemma stretch_store_252 : stretch_store 252 = 254%Z.
Proof.
  rewrite stretch_store_exact; [|lia|]; vm_compute; reflexivity.
Qed.

Lemma stretch_store_253 : stretch_store 253 = 255%Z.
Proof.
  rewrite stretch_store_exact; [|lia|]; vm_compute; reflexivity.
Qed.

Lemma stretch_store_254 : stretch_store 254 = 255%Z.
Proof.
  rewrite stretch_store_exact; [|lia|]; vm_compute; reflexivity.
Qed.

Lemma stretch_store_255 : stretch_store 255 = 255%Z.
Proof.
  rewrite stretch_store_exact; [|lia|]; vm_compute; reflexivity.
Qed.

(** The rounding of a clamped value, by cases. *)
Lemma ToUint8Clamp_cases (r : R) :
  let c := Rmin (Rmax r 0) 255 in
  let f := Zfloor c in
  (ToUint8Clamp r = f /\ c <= IZR f + / 2) \/
  (ToUint8Clamp r = (f + 1)%Z /\ IZR f + / 2 <= c).
Proof.
  cbv zeta. unfold ToUint8Clamp.
  set (c := Rmin (Rmax r 0) 255). set (f := Zfloor c).
  destruct (Rlt_dec c (IZR f + / 2)) as [H1|H1]; [left; split; [reflexivity|lra]|].
  destruct (Rlt_dec (IZR f + / 2) c) as [H2|H2]; [right; split; [reflexivity|lra]|].
  destruct (Z.even f); [left|right]; split; try reflexivity; lra.
Qed.

Lemma clamp_bounds (r : R) : 0 <= Rmin (Rmax r 0) 255 <= 255.
Proof.
  unfold Rmin, Rmax.
  destruct (Rle_dec r 0); destruct (Rle_dec _ 255); lra.
Qed.

Lemma clamp_mono (r1 r2 : R) :
  r1 <= r2 -> Rmin (Rmax r1 0) 255 <= Rmin (Rmax r2 0) 255.
Proof.
  intros H. unfold Rmin, Rmax.
  destruct (Rle_dec r1 0); destruct (Rle_dec r2 0);
    repeat match goal with |- context [Rle_dec ?a ?b] => destruct (Rle_dec a b) end;
    lra.
Qed.

Lemma ToUint8Clamp_range (r : R) : (0 <= ToUint8Clamp r <= 255)%Z.
Proof.
  pose proof (clamp_bounds r) as Hc.
  pose proof (Zfloor_bound (Rmin (Rmax r 0) 255)) as Hf.
  assert (H0 : (0 <= Zfloor (Rmin (Rmax r 0) 255))%Z) by (apply Zfloor_lub; lra).
  assert (H1 : (Zfloor (Rmin (Rmax r 0) 255) <= 255)%Z)
    by (apply le_IZR; lra).
  destruct (ToUint8Clamp_cases r) as [[-> _] | [-> Hge]]; [lia|].
  split; [lia|].
  apply le_IZR. rewrite plus_IZR. 
  assert (IZR (Zfloor (Rmin (Rmax r 0) 255)) < 255) by lra.
  assert (Hlt : (Zfloor (Rmin (Rmax r 0) 255) < 255)%Z) by (apply lt_IZR; lra).
  apply IZR_le in H0. 
  assert (Hle : (Zfloor (Rmin (Rmax r 0) 255) + 1 <= 255)%Z) by lia.
  apply IZR_le in Hle. rewrite plus_IZR in Hle. exact Hle.
Qed.

(** Rounding to nearest, ties to even, is monotone. *)
Lemma ToUint8Clamp_mono (r1 r2 : R) :
  r1 <= r2 -> (ToUint8Clamp r1 <= ToUint8Clamp r2)%Z.
Proof.
  intros H. pose proof (clamp_mono r1 r2 H) as Hc.
  destruct (Rle_lt_or_eq_dec _ _ Hc) as [Hlt | Heq].
  - pose proof (Zfloor_le _ _ Hc) as Hf.
    pose proof (Zfloor_bound (Rmin (Rmax r1 0) 255)) as B1.
    pose proof (Zfloor_bound (Rmin (Rmax r2 0) 255)) as B2.
    destruct (ToUint8Clamp_cases r1) as [[-> C1] | [-> C1]];
      destruct (ToUint8Clamp_cases r2) as [[-> C2] | [-> C2]]; try lia.
    apply Z.le_succ_l. apply lt_IZR. lra.
  - unfold ToUint8Clamp. rewrite Heq. lia.
Qed.

Lemma stretch_store_range (v : Z) : (0 <= stretch_store v <= 255)%Z.
Proof. apply ToUint8Clamp_range. Qed.

Lemma stretch_store_mono (u v : Z) :
  (0 <= u <= v)%Z -> (stretch_store u <= stretch_store v)%Z.
Proof.
  intros Huv. apply ToUint8Clamp_mono.
  destruct (Z.eq_dec u v) as [-> | Hne]; [lra|].
  left. apply stretch_increasing; [|apply IZR_lt; lia].
  assert (0 <= IZR u) by (apply IZR_le; lia). lra.
Qed.

End StretchStore.

(* ================================================================== *)
(** ** The log stretch of cropImage *)
(* ================================================================== *)

Section StretchBuffer.
Import Js ImageProcessing.

Lemma update_skip4 {A : Type} (x0 x1 x2 x3 : A) (d : list A) (i : Z)
  (f : A -> A) :
  (0 <= i)%Z ->
  update (x0 :: x1 :: x2 :: x3 :: d) (i + 4) f
  = x0 :: x1 :: x2 :: x3 :: update d i f.
Proof.
  intros Hi. unfold update.
  destruct (Z.ltb_spec (i + 4) 0); [lia|].
  destruct (Z.ltb_spec i 0); [lia|].
  replace (Z.to_nat (i + 4)) with (S (S (S (S (Z.to_nat i))))) by lia.
  reflexivity.
Qed.

Lemma stretch_body_skip4 (x0 x1 x2 x3 : Z) (d : list Z) (i : Z) :
  (0 <= i)%Z ->
  stretch_body (i + 4) (x0 :: x1 :: x2 :: x3 :: d)
  = x0 :: x1 :: x2 :: x3 :: stretch_body i d.
Proof.
  intros Hi. unfold stretch_body.
  replace (i + 4 + 1)%Z with (i + 1 + 4)%Z by lia.
  replace (i + 4 + 2)%Z with (i + 2 + 4)%Z by lia.
  rewrite !update_skip4 by lia. reflexivity.
Qed.

Lemma stretch_loop_skip4 (x0 x1 x2 x3 : Z) (l : list Z) :
  (forall k, In k l -> (0 <= k)%Z) ->
  forall d,
    for_ l (fun k => stretch_body (4 * (k + 1))) (x0 :: x1 :: x2 :: x3 :: d)
    = x0 :: x1 :: x2 :: x3 :: for_ l (fun k => stretch_body (4 * k)) d.
Proof.
  induction l as [|k l IH]; intros Hl d; [reflexivity|].
  rewrite !for_cons.
  replace (4 * (k + 1))%Z with (4 * k + 4)%Z by lia.
  rewrite stretch_body_skip4 by (specialize (Hl k (or_introl eq_refl)); lia).
  apply IH. intros j Hj. apply Hl. now right.
Qed.

(** The loop over the indices 0, 4, 8, ... stretches pixel by pixel. *)
Lemma stretch_loop_pixels (n : nat) :
  forall d : list Z,
    length d = (4 * n)%nat ->
    for_ (map (fun k => (4 * k)%Z) (range 0 (Z.of_nat n))) stretch_body d
    = stretch_pixels d.
Proof.
  induction n as [|n IH]; intros d Hlen.
  - destruct d; [reflexivity|discriminate].
  - destruct d as [|r [|g [|b [|a rest]]]]; try (cbn in Hlen; lia).
    rewrite (range_cons 0 (Z.of_nat (S n))) by lia.
    replace (Z.of_nat (S n)) with (Z.of_nat n + 1)%Z by lia.
    rewrite (range_shift 0 (Z.of_nat n) 1).
    cbn [map stretch_pixels]. rewrite for_cons, map_map, for_map.
    assert (Hfirst : stretch_body (4 * 0) (r :: g :: b :: a :: rest)
                     = stretch_store r :: stretch_store g :: stretch_store b
                       :: a :: rest) by reflexivity.
    rewrite Hfirst, stretch_loop_skip4.
    + do 4 f_equal. rewrite <- (IH rest) by (cbn in Hlen; lia).
      now rewrite for_map.
    + intros k Hk. apply in_range in Hk. lia.
Qed.

Lemma cropImage_data (img : ImageData) :
  wf_image img -> data (cropImage img true) = stretch_pixels (data img).
Proof.
  intros Hwf. unfold cropImage; cbn [data].
  rewrite (wf_length img Hwf) at 1. rewrite range_by4_length.
  apply stretch_loop_pixels. apply wf_length, Hwf.
Qed.

Lemma get_stretch_pixels (n : nat) :
  forall (d : list Z) (k : Z),
    length d = (4 * n)%nat -> (0 <= k < Z.of_nat n)%Z ->
    get (stretch_pixels d) (4 * k) = stretch_store (get d (4 * k)) /\
    get (stretch_pixels d) (4 * k + 1) = stretch_store (get d (4 * k + 1)) /\
    get (stretch_pixels d) (4 * k + 2) = stretch_store (get d (4 * k + 2)) /\
    get (stretch_pixels d) (4 * k + 3) = get d (4 * k + 3).
Proof.
  induction n as [|n IH]; intros d k Hlen Hk; [lia|].
  destruct d as [|r [|g [|b [|a rest]]]]; try (cbn in Hlen; lia).
  cbn [stretch_pixels].
  destruct (Z.eq_dec k 0) as [-> | Hne].
  - repeat split; reflexivity.
  - specialize (IH rest (k - 1)%Z ltac:(cbn in Hlen; lia) ltac:(lia)).
    replace (4 * k)%Z with (4 * (k - 1) + 4)%Z by lia.
    replace (4 * (k - 1) + 4 + 1)%Z with (4 * (k - 1) + 1 + 4)%Z by lia.
    replace (4 * (k - 1) + 4 + 2)%Z with (4 * (k - 1) + 2 + 4)%Z by lia.
    replace (4 * (k - 1) + 4 + 3)%Z with (4 * (k - 1) + 3 + 4)%Z by lia.
    rewrite !get_skip4 by lia. exact IH.
Qed.

(** In the stretched crop the three colour channels of every pixel hold the
    stored stretch of the original and alpha is untouched. *)
Lemma cropImage_channels (img : ImageData) (px py : Z) :
  wf_image img ->
  (0 <= px < width img)%Z -> (0 <= py < height img)%Z ->
  channel (cropImage img true) px py 0 = stretch_store (channel img px py 0) /\
  channel (cropImage img true) px py 1 = stretch_store (channel img px py 1) /\
  channel (cropImage img true) px py 2 = stretch_store (channel img px py 2) /\
  channel (cropImage img true) px py 3 = channel img px py 3.
Proof.
  intros Hwf Hx Hy. unfold channel.
  rewrite cropImage_data by exact Hwf.
  assert (Hidx : pixel_index (cropImage img true) px py
                 = (4 * (py * width img + px))%Z)
    by (unfold pixel_index, cropImage; cbn [width]; lia).
  assert (Hidx' : pixel_index img px py = (4 * (py * width img + px))%Z)
    by (unfold pixel_index; lia).
  rewrite Hidx, Hidx', !Z.add_0_r.
  apply (get_stretch_pixels (Z.to_nat (width img * height img))).
  - apply wf_length, Hwf.
  - destruct Hwf as (HW & HH & _). nia.
Qed.

End StretchBuffer.

Section StretchClaim.
Import Js ImageProcessing Samples.

Lemma stretch_1 : stretch 1 = 255 / 8.
Proof.
  unfold stretch, constant. rewrite ln_256.
  replace (1 + 1) with 2 by lra.
  pose proof ln_2_pos. field. lra.
Qed.

Lemma stretch_254_above : 254 + / 2 < stretch 254.
Proof.
  assert (H : (2 ^ 2036 < power255 (1 + 254))%Z)
    by (apply Z.ltb_lt; vm_compute; reflexivity).
  apply stretch_gt_eighth in H; [|lia|lia]. lra.
Qed.

(** From 1 to 254 the curve is more than a half above the diagonal. *)
Lemma stretch_above_half (x : R) : 1 <= x <= 254 -> x + / 2 < stretch x.
Proof.
  intros [H1 H2].
  destruct H1 as [H1 | <-]; [|rewrite stretch_1; lra].
  destruct H2 as [H2 | ->]; [|apply stretch_254_above].
  set (t := (x - 1) / 253).
  assert (Ht : 0 < t < 1) by (unfold t; lra).
  pose proof (ln_above_chord 2 255 t ltac:(lra) ltac:(lra) ltac:(lra) Ht) as H.
  replace ((1 - t) * 2 + t * 255) with (1 + x) in H by (unfold t; field).
  pose proof constant_pos as Hc.
  assert (Hm : constant * ((1 - t) * ln 2 + t * ln 255) < constant * ln (1 + x))
    by (apply Rmult_lt_compat_l; assumption).
  assert (E1 : constant * ln 2 = 255 / 8).
  { rewrite <- stretch_1. unfold stretch.
    replace (1 + 1) with 2 by lra. reflexivity. }
  assert (E2 : 254 + / 2 < constant * ln 255).
  { pose proof stretch_254_above as Hs. unfold stretch in Hs.
    replace (1 + 254) with 255 in Hs by lra. exact Hs. }
  unfold stretch.
  assert (Hx : x = 1 + 253 * t) by (unfold t; field).
  assert (Ha : (1 - t) * (1 + / 2) <= (1 - t) * (constant * ln 2))
    by (apply Rmult_le_compat_l; lra).
  assert (Hb : t * (254 + / 2) < t * (constant * ln 255))
    by (apply Rmult_lt_compat_l; lra).
  lra.
Qed.

Lemma round_above (r : R) (n : Z) :
  (0 <= n)%Z -> IZR n + / 2 < r -> r <= 255 -> (n < ToUint8Clamp r)%Z.
Proof.
  intros Hn Hlo Hhi.
  assert (H0 : 0 <= IZR n) by (apply IZR_le; lia).
  pose proof (ToUint8Clamp_cases r) as Hc. cbv zeta in Hc.
  replace (Rmin (Rmax r 0) 255) with r in Hc; cycle 1.
  { rewrite Rmax_left by lra. rewrite Rmin_left by lra. reflexivity. }
  pose proof (Zfloor_bound r) as Hf.
  destruct Hc as [[-> C] | [-> C]].
  - apply lt_IZR. lra.
  - assert (Hle : (n <= Zfloor r)%Z) by (apply Zfloor_lub; lra). lia.
Qed.

Lemma stretch_store_above (x : Z) :
  (1 <= x <= 254)%Z -> (x < stretch_store x)%Z.
Proof.
  intros Hx. unfold stretch_store.
  assert (Hr : 1 <= IZR x <= 254) by (split; apply IZR_le; lia).
  apply round_above; [lia| |].
  - apply stretch_above_half, Hr.
  - apply stretch_range. lra.
Qed.

Lemma stretch_store_0 : stretch_store 0 = 0%Z.
Proof.
  unfold stretch_store. rewrite stretch_0.
  apply ToUint8Clamp_nearest; [lra|lra|]. intros H. lra.
Qed.

Lemma stretch_store_fixed_points (x : Z) :
  (0 <= x <= 255)%Z -> (stretch_store x = x <-> x = 0%Z \/ x = 255%Z).
Proof.
  intros Hx. split.
  - intros E.
    destruct (Z.eq_dec x 0) as [-> | H0]; [now left|].
    destruct (Z.eq_dec x 255) as [-> | H255]; [now right|].
    pose proof (stretch_store_above x ltac:(lia)). lia.
  - intros [-> | ->]; [apply stretch_store_0|apply stretch_store_255].
Qed.

Lemma stretch_store_twice_differs (x : Z) :
  (0 < x < 253)%Z -> stretch_store (stretch_store x) <> stretch_store x.
Proof.
  intros Hx.
  pose proof (stretch_store_above x ltac:(lia)) as Hlo.
  pose proof (stretch_store_mono x 252 ltac:(lia)) as Hhi.
  rewrite stretch_store_252 in Hhi.
  pose proof (stretch_store_above (stretch_store x) ltac:(lia)). lia.
Qed.

(** C5, the claim as stated: on the channel values of the buffer the
    stretch is not strictly increasing (253 and 254 are both stored as 255)
    and stretching 254 twice gives what stretching it once gives. *)
Lemma stretch_store_254_twice :
  (0 < 254 < 255)%Z /\
  stretch_store (stretch_store 254) = stretch_store 254 /\
  (253 < 254)%Z /\ stretch_store 253 = stretch_store 254 /\
  data (cropImage (cropImage near_white true) true)
  = data (cropImage near_white true).
Proof.
  assert (Hwf : wf_image near_white) by (unfold near_white; solve_wf_image).
  assert (Hd : data (cropImage near_white true) = [255; 255; 255; 255]%Z).
  { rewrite cropImage_data by exact Hwf.
    unfold near_white; cbn [data stretch_pixels].
    now rewrite stretch_store_253, stretch_store_254. }
  assert (Hwf' : wf_image (cropImage near_white true)).
  { unfold wf_image. rewrite Hd. cbn [cropImage width height near_white length].
    repeat split; try lia. repeat (constructor; [lia|]); constructor. }
  split; [lia|]. split; [now rewrite stretch_store_254, stretch_store_255|].
  split; [lia|]. split; [now rewrite stretch_store_253, stretch_store_254|].
  rewrite (cropImage_data _ Hwf'), Hd. cbn [stretch_pixels].
  now rewrite stretch_store_255.
Qed.

(** C5, amended.  The curve [stretch v = (255 / ln 256) * ln (1 + v)] is
    strictly increasing on [v >= 0]; for real [0 < x < 255],
    [stretch (stretch x) <> stretch x]; its only fixed points on [x >= 0]
    are 0 and 255.  The value kept by the 8-bit buffer is the curve rounded
    to the nearest integer: it is monotonically non-decreasing, for channel
    values [0 < x < 253] stretching twice differs from stretching once, and
    its only fixed points in [0, 255] are 0 and 255.  In the stretched crop
    R, G and B of every pixel hold that value and alpha is untouched. *)
Theorem log_stretch_properties :
  (forall u v : R, 0 <= u -> u < v -> stretch u < stretch v) /\
  (forall x : R, 0 < x < 255 -> stretch (stretch x) <> stretch x) /\
  (forall x : R, 0 <= x -> (stretch x = x <-> x = 0 \/ x = 255)) /\
  (forall u v : Z, (0 <= u <= v)%Z -> (stretch_store u <= stretch_store v)%Z) /\
  (forall x : Z, (0 < x < 253)%Z ->
                 stretch_store (stretch_store x) <> stretch_store x) /\
  (forall x : Z, (0 <= x <= 255)%Z ->
                 (stretch_store x = x <-> x = 0%Z \/ x = 255%Z)) /\
  (forall (img : ImageData) (px py : Z),
      wf_image img ->
      (0 <= px < width img)%Z -> (0 <= py < height img)%Z ->
      channel (cropImage img true) px py 0 = stretch_store (channel img px py 0) /\
      channel (cropImage img true) px py 1 = stretch_store (channel img px py 1) /\
      channel (cropImage img true) px py 2 = stretch_store (channel img px py 2) /\
      channel (cropImage img true) px py 3 = channel img px py 3).
Proof.
  split; [intros u v Hu Huv; apply stretch_increasing; lra|].
  split; [exact stretch_twice_differs|].
  split; [exact stretch_fixed_points|].
  split; [exact stretch_store_mono|].
  split; [exact stretch_store_twice_differs|].
  split; [exact stretch_store_fixed_points|].
  exact cropImage_channels.
Qed.

Lemma log_stretch_properties_witness :
  stretch 1 < stretch 2 /\
  stretch (stretch 100) <> stretch 100 /\
  stretch_store (stretch_store 100) <> stretch_store 100 /\
  channel (cropImage one_star true) 2 1 3 = channel one_star 2 1 3.
Proof.
  destruct log_stretch_properties as (Hinc & Htw & _ & _ & Hst & _ & Hch).
  split; [apply Hinc; lra|].
  split; [apply Htw; lra|].
  split; [apply Hst; lia|].
  apply (Hch one_star 2%Z 1%Z wf_one_star); cbn; lia.
Defined.

End StretchClaim.

(* ================================================================== *)
(** ** The scans as one loop over the pixels *)
(* ================================================================== *)

Section ScanOrder.
Import Js ImageProcessing Reference.

Lemma for_flat_map {A B S : Type} (f : A -> list B) (l : list A)
  (body : B -> S -> S) :
  forall s,
    for_ (flat_map f l) body s = for_ l (fun i t => for_ (f i) body t) s.
Proof.
  induction l as [|a l IH]; intros s; [reflexivity|].
  cbn [flat_map]. rewrite for_app, for_cons. apply IH.
Qed.

Lemma in_scan_order (img : ImageData) (px py : Z) :
  In (px, py) (scan_order img) <->
  (0 <= px < width img)%Z /\ (0 <= py < height img)%Z.
Proof.
  unfold scan_order. rewrite in_flat_map. split.
  - intros [qy [Hy Hin]]. apply in_map_iff in Hin.
    destruct Hin as [qx [E Hx]]. inversion E; subst.
    apply in_range in Hx. apply in_range in Hy. split; assumption.
  - intros [Hx Hy]. exists py. split; [apply in_range; assumption|].
    apply in_map_iff. exists px. split; [reflexivity|].
    apply in_range; assumption.
Qed.

Lemma scan_order_flat {S : Type} (img : ImageData) (body : Z -> Z -> S -> S)
  (s : S) :
  for_ (range 0 (height img))
    (fun py t => for_ (range 0 (width img)) (body py) t) s
  = for_ (scan_order img) (fun p => body (snd p) (fst p)) s.
Proof.
  unfold scan_order. rewrite for_flat_map. apply for_ext.
  intros py t _. rewrite for_map. reflexivity.
Qed.

Lemma centroid_scan_flat (img : ImageData) :
  centroid_scan img
  = for_ (scan_order img) (fun p => centroid_body img (snd p) (fst p))
      centroid_init.
Proof.
  unfold centroid_scan.
  rewrite <- (scan_order_flat img (centroid_body img)). reflexivity.
Qed.

Lemma profile_scan_flat (img : ImageData) (centerX centerY : R)
  (maxRadius : Z) :
  profile_scan img centerX centerY maxRadius
  = for_ (scan_order img)
      (fun p => profile_body img centerX centerY maxRadius (snd p) (fst p))
      {| bins := repeat 0 (Z.to_nat maxRadius);
         counts := repeat 0%Z (Z.to_nat maxRadius) |}.
Proof.
  unfold profile_scan.
  rewrite <- (scan_order_flat img
                (profile_body img centerX centerY maxRadius)).
  reflexivity.
Qed.

Lemma luminosity_le_255 (img : ImageData) (px py : Z) :
  wf_image img -> luminosity img px py <= 255.
Proof.
  intros (_ & _ & _ & Hb). unfold luminosity, mean3.
  assert (G : forall i, (0 <= get (data img) i <= 255)%Z).
  { intros i. apply get_Forall; [assumption|lia]. }
  pose proof (G (pixel_index img px py)) as G0.
  pose proof (G (pixel_index img px py + 1)%Z) as G1.
  pose proof (G (pixel_index img px py + 2)%Z) as G2.
  destruct G0 as [_ G0]. destruct G1 as [_ G1]. destruct G2 as [_ G2].
  apply IZR_le in G0, G1, G2. lra.
Qed.

End ScanOrder.

(* ================================================================== *)
(** ** calculateCentroid: the peak and the uniform image *)
(* ================================================================== *)

Section CentroidPeak.
Import Js ImageProcessing Reference MoreSamples.

Lemma centroid_body_runMax (img : ImageData) (py px : Z) (s : CentroidVars) :
  runMax (centroid_body img py px s) = Rmax (runMax s) (luminosity img px py).
Proof.
  unfold centroid_body, luminosity.
  set (v := mean3 (data img) (pixel_index img px py)).
  destruct (Rgt_dec v (runMax s)) as [Hgt|Hle];
    match goal with |- context [Rgt_dec ?a ?b] => destruct (Rgt_dec a b) end;
    cbn [runMax]; unfold Rmax; destruct (Rle_dec (runMax s) v); lra.
Qed.

(** The loop keeps the running maximum at the largest luminosity met. *)
Lemma centroid_loop_peak (img : ImageData) (l : list (Z * Z)) :
  forall s,
    let s' := for_ l (fun p => centroid_body img (snd p) (fst p)) s in
    runMax s <= runMax s' /\
    (forall p, In p l -> lum img p <= runMax s') /\
    (runMax s' = runMax s \/ exists p, In p l /\ runMax s' = lum img p).
Proof.
  induction l as [|p l IH]; intros s.
  - cbn. split; [lra|]. split; [intros p []|left; reflexivity].
  - cbn zeta. rewrite for_cons.
    specialize (IH (centroid_body img (snd p) (fst p) s)).
    cbn zeta in IH. destruct IH as (Hmono & Hall & Hex).
    rewrite centroid_body_runMax in Hmono, Hex.
    fold (lum img p) in Hmono, Hex.
    pose proof (Rmax_l (runMax s) (lum img p)) as Hl.
    pose proof (Rmax_r (runMax s) (lum img p)) as Hr.
    split; [lra|]. split.
    + intros q [<-|Hq]; [lra|apply Hall; assumption].
    + destruct Hex as [E|[q [Hq E]]].
      * rewrite E. unfold Rmax. destruct (Rle_dec (runMax s) (lum img p)).
        -- right. exists p. split; [left; reflexivity|reflexivity].
        -- left. reflexivity.
      * right. exists q. split; [right; assumption|assumption].
Qed.

Lemma centroid_body_mass (img : ImageData) (py px : Z) (s : CentroidVars) :
  0 <= luminosity img px py ->
  mass_inv s -> mass_inv (centroid_body img py px s).
Proof.
  unfold mass_inv, centroid_body, luminosity.
  set (v := mean3 (data img) (pixel_index img px py)).
  intros Hv (Hr & Hm & Hpos).
  destruct (Rgt_dec v (runMax s)) as [Hgt|Hle];
    match goal with |- context [Rgt_dec ?a ?b] => destruct (Rgt_dec a b) end;
    cbn [runMax totalMass]; repeat split; try lra; intros; try lra.
Qed.

Lemma centroid_scan_mass (img : ImageData) :
  wf_image img -> mass_inv (centroid_scan img).
Proof.
  intros Hwf. unfold centroid_scan, centroid_row.
  apply for_invariant.
  - intros py s _ Hs. apply for_invariant; [|assumption].
    intros px t _ Ht. apply centroid_body_mass; [|assumption].
    apply luminosity_nonneg; assumption.
  - unfold mass_inv, centroid_init; cbn. repeat split; lra.
Qed.

Lemma calculateCentroid_maxVal (img : ImageData) :
  wf_image img ->
  maxVal (calculateCentroid img) = runMax (centroid_scan img).
Proof.
  intros Hwf. destruct (centroid_scan_mass img Hwf) as (Hr & Hm & Hpos).
  unfold calculateCentroid.
  destruct (Req_dec_T (totalMass (centroid_scan img)) 0) as [E|NE];
    cbn [maxVal]; [|reflexivity].
  destruct (Rle_lt_or_eq_dec _ _ Hr) as [Hlt|Heq]; [|assumption].
  apply Hpos in Hlt. lra.
Qed.

Lemma calculateCentroid_maxVal_spec (img : ImageData) :
  wf_image img ->
  (forall px py, (0 <= px < width img)%Z -> (0 <= py < height img)%Z ->
                 luminosity img px py <= maxVal (calculateCentroid img)) /\
  (exists px py, (0 <= px < width img)%Z /\ (0 <= py < height img)%Z /\
                 luminosity img px py = maxVal (calculateCentroid img)).
Proof.
  intros Hwf. rewrite (calculateCentroid_maxVal img Hwf).
  rewrite centroid_scan_flat.
  destruct (centroid_loop_peak img (scan_order img) centroid_init)
    as (_ & Hall & Hex).
  cbn zeta in Hall, Hex. split.
  - intros px py Hx Hy. apply (Hall (px, py)). apply in_scan_order.
    split; assumption.
  - destruct Hex as [E|[[qx qy] [Hq E]]].
    + exists 0%Z, 0%Z. destruct Hwf as (HW & HH & Hrest).
      split; [lia|]. split; [lia|].
      assert (Hin : In (0%Z, 0%Z) (scan_order img))
        by (apply in_scan_order; lia).
      apply Hall in Hin. unfold lum in Hin. cbn [fst snd] in Hin.
      rewrite E in *. cbn [runMax centroid_init] in *.
      pose proof (luminosity_nonneg img 0 0
                    (conj HW (conj HH Hrest))). lra.
    + apply in_scan_order in Hq. exists qx, qy.
      split; [apply Hq|]. split; [apply Hq|]. symmetry. exact E.
Qed.

Lemma calculateCentroid_maxVal_range (img : ImageData) :
  wf_image img -> 0 <= maxVal (calculateCentroid img) <= 255.
Proof.
  intros Hwf.
  destruct (calculateCentroid_maxVal_spec img Hwf) as (_ & px & py & _ & _ & E).
  rewrite <- E. split; [apply luminosity_nonneg|apply luminosity_le_255];
    assumption.
Qed.

(** X1. [calculateCentroid] reports as [maxVal] the largest luminosity of
    the buffer: no pixel is brighter, some pixel attains it, and it lies in
    [0, 255]. *)
Theorem calculateCentroid_peak (img : ImageData) :
  wf_image img ->
  let c := calculateCentroid img in
  (forall px py, (0 <= px < width img)%Z -> (0 <= py < height img)%Z ->
                 luminosity img px py <= maxVal c) /\
  (exists px py, (0 <= px < width img)%Z /\ (0 <= py < height img)%Z /\
                 luminosity img px py = maxVal c) /\
  0 <= maxVal c <= 255.
Proof.
  intros Hwf c. subst c.
  destruct (calculateCentroid_maxVal_spec img Hwf) as (Hall & Hex).
  split; [exact Hall|]. split; [exact Hex|].
  apply calculateCentroid_maxVal_range. assumption.
Qed.

Lemma calculateCentroid_peak_witness :
  0 <= maxVal (calculateCentroid Samples.one_star) <= 255.
Proof.
  exact (proj2 (proj2 (calculateCentroid_peak Samples.one_star wf_one_star))).
Defined.

End CentroidPeak.

Section CentroidUniform.
Import Js ImageProcessing Reference MoreSamples.

Lemma range_snoc (n : nat) :
  range 0 (Z.of_nat (S n)) = range 0 (Z.of_nat n) ++ [Z.of_nat n].
Proof.
  rewrite (range_app 0 (Z.of_nat n) (Z.of_nat (S n))) by lia.
  f_equal. rewrite range_cons by lia. rewrite range_nil by lia. reflexivity.
Qed.

(** A row of [n] pixels of luminosity [v] adds [n * v] to the mass. *)
Lemma centroid_row_uniform (img : ImageData) (py : Z) (v : R) (n : nat) :
  0 < v ->
  (forall px, (0 <= px < Z.of_nat n)%Z -> luminosity img px py = v) ->
  forall s, runMax s <= v ->
    let s' := for_ (range 0 (Z.of_nat n)) (centroid_body img py) s in
    totalMass s' = totalMass s + INR n * v /\
    sumX s' = sumX s + v * (INR n * (INR n - 1) / 2) /\
    sumY s' = sumY s + IZR py * (INR n * v) /\
    runMax s' <= v /\ (0 < n -> runMax s' = v)%nat.
Proof.
  intros Hv. induction n as [|n IH]; intros Hrow s Hs.
  - cbn. repeat split; try lra. intros H; inversion H.
  - cbn zeta. rewrite range_snoc, for_app.
    destruct (IH (fun px Hpx => Hrow px ltac:(lia)) s Hs)
      as (Hm & Hx & Hy & Hr & _).
    cbn zeta in Hm, Hx, Hy, Hr.
    set (t := for_ (range 0 (Z.of_nat n)) (centroid_body img py) s) in *.
    rewrite for_cons, for_nil.
    rewrite (centroid_body_lit img py (Z.of_nat n) t v);
      [|apply Hrow; lia|assumption|assumption].
    cbn [totalMass sumX sumY runMax].
    rewrite Hm, Hx, Hy, S_INR, <- INR_IZR_INZ.
    repeat split; try lra; try field.
Qed.

Lemma centroid_rows_uniform (img : ImageData) (v : R) (m : nat) :
  0 < v -> (1 <= width img)%Z ->
  (forall px py, (0 <= px < width img)%Z -> (0 <= py < Z.of_nat m)%Z ->
                 luminosity img px py = v) ->
  forall s, runMax s <= v ->
    let s' := for_ (range 0 (Z.of_nat m)) (centroid_row img) s in
    let w := IZR (width img) in
    totalMass s' = totalMass s + INR m * (w * v) /\
    sumX s' = sumX s + INR m * (v * (w * (w - 1) / 2)) /\
    sumY s' = sumY s + INR m * (INR m - 1) / 2 * (w * v) /\
    runMax s' <= v /\ (0 < m -> runMax s' = v)%nat.
Proof.
  intros Hv HW. induction m as [|m IH]; intros Hall s Hs.
  - cbn. repeat split; try lra. intros H; inversion H.
  - cbn zeta. rewrite range_snoc, for_app.
    destruct (IH (fun px py Hx Hy => Hall px py Hx ltac:(lia)) s Hs)
      as (Hm & Hx & Hy & Hr & _).
    cbn zeta in Hm, Hx, Hy, Hr.
    set (t := for_ (range 0 (Z.of_nat m)) (centroid_row img) s) in *.
    rewrite for_cons, for_nil.
    assert (HWn : width img = Z.of_nat (Z.to_nat (width img))) by lia.
    assert (Erow : centroid_row img (Z.of_nat m) t
                   = for_ (range 0 (Z.of_nat (Z.to_nat (width img))))
                       (centroid_body img (Z.of_nat m)) t).
    { unfold centroid_row. rewrite Z2Nat.id by lia. reflexivity. }
    rewrite Erow.
    destruct (centroid_row_uniform img (Z.of_nat m) v (Z.to_nat (width img)) Hv
                (fun px Hpx => Hall px (Z.of_nat m) ltac:(lia) ltac:(lia))
                t Hr)
      as (Rm & Rx & Ry & Rr & Rv).
    cbn zeta in Rm, Rx, Ry, Rr, Rv.
    set (u := for_ (range 0 (Z.of_nat (Z.to_nat (width img))))
                (centroid_body img (Z.of_nat m)) t) in *.
    clearbody u.
    rewrite (INR_IZR_INZ (Z.to_nat (width img))), <- HWn in Rm, Rx, Ry.
    rewrite Rm, Rx, Ry, Hm, Hx, Hy, S_INR.
    rewrite <- (INR_IZR_INZ m).
    repeat split; try lra; try field.
    intros _. apply Rv. lia.
Qed.

(** Over exact arithmetic, a buffer of one non-zero luminosity [v] has its
    centroid at the centre of the pixel grid. *)
Lemma centroid_of_uniform (img : ImageData) (v : R) :
  wf_image img -> 0 < v ->
  (forall px py, (0 <= px < width img)%Z -> (0 <= py < height img)%Z ->
                 luminosity img px py = v) ->
  calculateCentroid img
  = {| x := (IZR (width img) - 1) / 2;
       y := (IZR (height img) - 1) / 2;
       maxVal := v |}.
Proof.
  intros (HW & HH & _) Hv Hall.
  assert (HHn : height img = Z.of_nat (Z.to_nat (height img))) by lia.
  destruct (centroid_rows_uniform img v (Z.to_nat (height img)) Hv HW
              (fun px py Hx Hy => Hall px py Hx ltac:(lia))
              centroid_init ltac:(cbn; lra))
    as (Hm & Hx & Hy & _ & Hr).
  cbn zeta in Hm, Hx, Hy, Hr. rewrite <- HHn in Hm, Hx, Hy, Hr.
  fold (centroid_scan img) in Hm, Hx, Hy, Hr.
  rewrite (INR_IZR_INZ (Z.to_nat (height img))), <- HHn in Hm, Hx, Hy.
  cbn [centroid_init totalMass sumX sumY] in Hm, Hx, Hy.
  assert (Hw : 1 <= IZR (width img)) by (apply IZR_le; assumption).
  assert (Hh : 1 <= IZR (height img)) by (apply IZR_le; assumption).
  unfold calculateCentroid.
  destruct (Req_dec_T (totalMass (centroid_scan img)) 0) as [E|NE].
  - exfalso. rewrite Hm in E.
    assert (0 < IZR (height img) * (IZR (width img) * v)).
    { apply Rmult_lt_0_compat; [lra|]. apply Rmult_lt_0_compat; lra. }
    lra.
  - rewrite Hm, Hx, Hy, Hr by lia. f_equal; field; lra.
Qed.

End CentroidUniform.

(* ================================================================== *)
(** ** estimateStats: bounds of the reported figures *)
(* ================================================================== *)

Section StatsBounds.
Import Js ImageProcessing Reference MoreSamples.

Lemma pow10_IZR (d : nat) : 10 ^ d = IZR (10 ^ Z.of_nat d).
Proof. rewrite <- pow_IZR. reflexivity. Qed.

(** Rounding to decimals does not cross an integer. *)
Lemma toFixed_ge (d : nat) (r : R) (n : Z) :
  (0 <= n)%Z -> IZR n <= r -> IZR n <= toFixed d r.
Proof.
  intros Hn Hr. unfold toFixed.
  pose proof (pow10_pos d) as Hp.
  assert (H0 : 0 <= IZR n) by (apply IZR_le; assumption).
  assert (Hm : IZR n * 10 ^ d <= r * 10 ^ d)
    by (apply Rmult_le_compat_r; lra).
  assert (Hx : 0 <= r * 10 ^ d) by (apply Rmult_le_pos; lra).
  assert (Hz : (n * 10 ^ Z.of_nat d <= round_half_away (r * 10 ^ d))%Z).
  { unfold round_half_away.
    destruct (Rle_dec 0 (r * 10 ^ d)) as [_|H]; [|lra].
    apply Zfloor_lub. rewrite mult_IZR, <- pow10_IZR. lra. }
  apply IZR_le in Hz. rewrite mult_IZR, <- pow10_IZR in Hz.
  apply Rmult_le_reg_r with (10 ^ d); [assumption|].
  unfold Rdiv. rewrite Rmult_assoc, Rinv_l by lra. lra.
Qed.

Lemma toFixed_le (d : nat) (r : R) (n : Z) :
  0 <= r -> r <= IZR n -> toFixed d r <= IZR n.
Proof.
  intros H0 Hr. unfold toFixed.
  pose proof (pow10_pos d) as Hp.
  assert (Hm : r * 10 ^ d <= IZR n * 10 ^ d)
    by (apply Rmult_le_compat_r; lra).
  assert (Hx : 0 <= r * 10 ^ d) by (apply Rmult_le_pos; lra).
  assert (Hz : (round_half_away (r * 10 ^ d) <= n * 10 ^ Z.of_nat d)%Z).
  { unfold round_half_away.
    destruct (Rle_dec 0 (r * 10 ^ d)) as [_|H]; [|lra].
    pose proof (Zfloor_bound (r * 10 ^ d + / 2)) as [Hlo _].
    assert (Hlt : IZR (Zfloor (r * 10 ^ d + / 2))
                  < IZR (n * 10 ^ Z.of_nat d + 1)).
    { rewrite plus_IZR, mult_IZR, <- pow10_IZR. lra. }
    apply lt_IZR in Hlt. lia. }
  apply IZR_le in Hz. rewrite mult_IZR, <- pow10_IZR in Hz.
  apply Rmult_le_reg_r with (10 ^ d); [assumption|].
  unfold Rdiv. rewrite Rmult_assoc, Rinv_l by lra. lra.
Qed.

(** The pixels read four channel values at a time are the pixels of the
    grid. *)
Lemma pixels_nth (n : nat) :
  forall (d : list Z) (k : Z),
    length d = (4 * n)%nat -> (0 <= k < Z.of_nat n)%Z ->
    In (get d (4 * k), get d (4 * k + 1), get d (4 * k + 2))%Z (pixels d).
Proof.
  induction n as [|n IH]; intros d k Hlen Hk; [lia|].
  destruct d as [|r [|g [|b [|a rest]]]]; cbn [length] in Hlen; try lia.
  cbn [pixels]. destruct (Z.eq_dec k 0) as [->|Hne].
  - left. reflexivity.
  - right.
    replace (4 * k)%Z with (4 * (k - 1) + 4)%Z by lia.
    replace (4 * (k - 1) + 4 + 1)%Z with (4 * (k - 1) + 1 + 4)%Z by lia.
    replace (4 * (k - 1) + 4 + 2)%Z with (4 * (k - 1) + 2 + 4)%Z by lia.
    rewrite !get_skip4 by lia. apply IH; lia.
Qed.

Lemma pixels_in (n : nat) :
  forall (d : list Z) (p : Z * Z * Z),
    length d = (4 * n)%nat -> In p (pixels d) ->
    exists k, (0 <= k < Z.of_nat n)%Z /\
              p = (get d (4 * k), get d (4 * k + 1), get d (4 * k + 2))%Z.
Proof.
  induction n as [|n IH]; intros d p Hlen Hin.
  - destruct d; [destruct Hin|discriminate].
  - destruct d as [|r [|g [|b [|a rest]]]]; cbn [length] in Hlen; try lia.
    cbn [pixels] in Hin. destruct Hin as [<-|Hin].
    + exists 0%Z. split; [lia|reflexivity].
    + destruct (IH rest p ltac:(lia) Hin) as [k [Hk ->]].
      exists (k + 1)%Z. split; [lia|].
      replace (4 * (k + 1))%Z with (4 * k + 4)%Z by lia.
      replace (4 * k + 4 + 1)%Z with (4 * k + 1 + 4)%Z by lia.
      replace (4 * k + 4 + 2)%Z with (4 * k + 2 + 4)%Z by lia.
      rewrite !get_skip4 by lia. reflexivity.
Qed.

Lemma luminosity_pixel_mean (img : ImageData) (px py : Z) :
  luminosity img px py
  = pixel_mean (get (data img) (4 * (py * width img + px)),
                get (data img) (4 * (py * width img + px) + 1),
                get (data img) (4 * (py * width img + px) + 2))%Z.
Proof.
  unfold luminosity, mean3, pixel_index, pixel_mean.
  replace ((py * width img + px) * 4)%Z with (4 * (py * width img + px))%Z
    by lia.
  reflexivity.
Qed.

Lemma pixel_of_grid (img : ImageData) (px py : Z) :
  wf_image img ->
  (0 <= px < width img)%Z -> (0 <= py < height img)%Z ->
  exists p, In p (pixels (data img)) /\ pixel_mean p = luminosity img px py.
Proof.
  intros Hwf Hx Hy. pose proof (wf_length img Hwf) as Hlen.
  destruct Hwf as (HW & HH & _).
  eexists. split; [|symmetry; apply luminosity_pixel_mean].
  apply (pixels_nth _ _ _ Hlen). nia.
Qed.

Lemma grid_of_pixel (img : ImageData) (p : Z * Z * Z) :
  wf_image img -> In p (pixels (data img)) ->
  exists px py, (0 <= px < width img)%Z /\ (0 <= py < height img)%Z /\
                pixel_mean p = luminosity img px py.
Proof.
  intros Hwf Hin. pose proof (wf_length img Hwf) as Hlen.
  destruct Hwf as (HW & HH & _).
  destruct (pixels_in _ _ _ Hlen Hin) as [k [Hk ->]].
  exists (k mod width img)%Z, (k / width img)%Z.
  pose proof (Z.mod_pos_bound k (width img) ltac:(lia)) as Hm.
  pose proof (Z.div_mod k (width img) ltac:(lia)) as Hd.
  split; [lia|]. split.
  - split; [apply Z.div_pos; lia|].
    apply Z.div_lt_upper_bound; nia.
  - rewrite luminosity_pixel_mean.
    replace (k / width img * width img + k mod width img)%Z with k by lia.
    reflexivity.
Qed.

Lemma pixels_below_peak (img : ImageData) (p : Z * Z * Z) :
  wf_image img -> In p (pixels (data img)) ->
  0 <= pixel_mean p <= maxVal (calculateCentroid img).
Proof.
  intros Hwf Hin.
  destruct (grid_of_pixel img p Hwf Hin) as (px & py & Hx & Hy & ->).
  split; [apply luminosity_nonneg; assumption|].
  apply (calculateCentroid_maxVal_spec img Hwf); assumption.
Qed.

(** The background sum collects values below a tenth of the peak. *)
Lemma stats_scan_background_bound (img : ImageData) :
  wf_image img ->
  backgroundSum (stats_scan img)
  <= maxVal (calculateCentroid img) * 0.1
     * IZR (backgroundCount (stats_scan img)).
Proof.
  intros Hwf. rewrite stats_scan_pixels by exact Hwf.
  set (peak := maxVal (calculateCentroid img)).
  apply (for_invariant
           (fun s => backgroundSum s <= peak * 0.1 * IZR (backgroundCount s))).
  - intros p s _ Hs. unfold stats_pixel.
    destruct (Rgt_dec (pixel_mean p) _);
      destruct (Rlt_dec (pixel_mean p) _);
      cbn [backgroundSum backgroundCount]; try rewrite plus_IZR; lra.
  - cbn [backgroundSum backgroundCount]. lra.
Qed.

Lemma stats_bg_le_tenth (img : ImageData) :
  wf_image img -> stats_bg img <= maxVal (calculateCentroid img) * 0.1.
Proof.
  intros Hwf. pose proof (stats_scan_background_bound img Hwf) as Hb.
  pose proof (calculateCentroid_maxVal_range img Hwf) as Hm.
  unfold stats_bg.
  destruct (Z.ltb_spec 0 (backgroundCount (stats_scan img))) as [Hpos|_];
    [|lra].
  apply IZR_lt in Hpos.
  apply Rmult_le_reg_r with (IZR (backgroundCount (stats_scan img)));
    [assumption|].
  unfold Rdiv. rewrite Rmult_assoc, Rinv_l by lra. lra.
Qed.

Lemma stats_halfMaxCount (img : ImageData) :
  wf_image img -> halfMaxCount (stats_scan img) = pixels_above_half_max img.
Proof.
  intros Hwf. rewrite stats_scan_pixels by exact Hwf.
  rewrite stats_pixels_count. cbn [halfMaxCount].
  unfold pixels_above_half_max. lia.
Qed.

Lemma snr_value (img : ImageData) :
  wf_image img ->
  snr (estimateStats img)
  = Finite (toFixed 1 (stats_signal img / stats_noise img)).
Proof.
  intros Hwf. pose proof (stats_noise_ge_1 img Hwf) as Hn.
  unfold estimateStats; cbn [snr]. unfold div.
  destruct (Req_dec_T (stats_noise img) 0) as [E|_]; [lra|].
  reflexivity.
Qed.

Lemma filter_none {A : Type} (f : A -> bool) (l : list A) :
  (forall a, In a l -> f a = false) -> filter f l = [].
Proof.
  induction l as [|a l IH]; intros H; [reflexivity|].
  cbn [filter]. rewrite (H a (or_introl eq_refl)).
  apply IH. intros b Hb. apply H. right. assumption.
Qed.

(** With a peak of 20 or more the signal is at least ten times the noise
    estimate. *)
Lemma snr_ge_10 (img : ImageData) :
  wf_image img ->
  (20 <= peakIntensity (estimateStats img))%Z ->
  10 <= toFixed 1 (stats_signal img / stats_noise img).
Proof.
  intros Hwf Hpeak.
  pose proof (stats_bg_nonneg img Hwf) as Hb0.
  pose proof (stats_bg_le_tenth img Hwf) as Hb.
  pose proof (stats_noise_ge_1 img Hwf) as Hn.
  unfold estimateStats in Hpeak; cbn [peakIntensity] in Hpeak.
  set (m := maxVal (calculateCentroid img)) in *.
  pose proof (Zfloor_bound m) as [Hfm _]. apply IZR_le in Hpeak.
  apply (toFixed_ge 1 _ 10); [lia|].
  unfold stats_signal. fold m.
  set (b := stats_bg img) in *.
  assert (Hsq : sqrt (b + 1) <= (m - b) / 10).
  { rewrite <- (sqrt_square ((m - b) / 10)) by lra.
    apply sqrt_le_1_alt.
    destruct (Rle_dec b 2); nra. }
  fold (stats_noise img) in Hsq. unfold stats_noise in *. fold b in Hn |- *.
  apply Rmult_le_reg_r with (sqrt (b + 1)); [lra|].
  unfold Rdiv. rewrite Rmult_assoc, Rinv_l by lra. lra.
Qed.

Lemma estimateStats_snr_value (img : ImageData) :
  wf_image img ->
  (20 <= peakIntensity (estimateStats img))%Z ->
  exists r, snr (estimateStats img) = Finite r /\ 10 <= r.
Proof.
  intros Hwf Hpeak. rewrite (snr_value img Hwf).
  eexists. split; [reflexivity|].
  apply (snr_ge_10 img Hwf Hpeak).
Qed.

(** X3. The figures of [estimateStats] are bounded: the peak is a channel
    level in [0, 255], the background level is at most a tenth of the peak,
    and the signal-to-noise ratio is a finite number in [0, 255]. *)
Theorem estimateStats_bounds (img : ImageData) :
  wf_image img ->
  let st := estimateStats img in
  (0 <= peakIntensity st <= 255)%Z /\
  (0 <= backgroundLevel st)%Z /\
  (10 * backgroundLevel st <= peakIntensity st)%Z /\
  exists r, snr st = Finite r /\ 0 <= r <= 255.
Proof.
  intros Hwf st. subst st.
  pose proof (calculateCentroid_maxVal_range img Hwf) as Hm.
  pose proof (stats_bg_nonneg img Hwf) as Hb0.
  pose proof (stats_bg_le_tenth img Hwf) as Hb.
  pose proof (stats_noise_ge_1 img Hwf) as Hn.
  unfold estimateStats at 1 2 3 4; cbn [peakIntensity backgroundLevel].
  set (m := maxVal (calculateCentroid img)) in *.
  pose proof (Zfloor_bound m) as [Hfm _].
  pose proof (Zfloor_bound (stats_bg img)) as [Hfb _].
  split; [split|split; [|split]].
  - apply Zfloor_lub. fold m. lra.
  - apply le_IZR. lra.
  - apply Zfloor_lub. lra.
  - apply Zfloor_lub. fold m. rewrite mult_IZR. lra.
  - rewrite (snr_value img Hwf). eexists. split; [reflexivity|].
    assert (Hs : 0 <= stats_signal img <= 255)
      by (unfold stats_signal; fold m; lra).
    assert (Hq : 0 <= stats_signal img / stats_noise img <= 255).
    { split.
      - apply Rmult_le_pos; [lra|].
        left. apply Rinv_0_lt_compat. lra.
      - apply Rmult_le_reg_r with (stats_noise img); [lra|].
        unfold Rdiv. rewrite Rmult_assoc, Rinv_l by lra. nra. }
    split; [apply toFixed_nonneg; lra|apply toFixed_le; lra].
Qed.

Lemma estimateStats_bounds_witness :
  (0 <= peakIntensity (estimateStats Samples.one_star) <= 255)%Z.
Proof.
  exact (proj1 (estimateStats_bounds Samples.one_star wf_one_star)).
Defined.

(** X4. [estimateStats] reports [fwhmPixels = 0] exactly on a black buffer
    (peak zero); on any other buffer at least one pixel lies above half of
    the peak and [fwhmPixels >= 1]. *)
Theorem estimateStats_fwhm_floor (img : ImageData) :
  wf_image img ->
  (maxVal (calculateCentroid img) = 0 ->
   pixels_above_half_max img = 0%Z /\ fwhmPixels (estimateStats img) = 0) /\
  (0 < maxVal (calculateCentroid img) ->
   (1 <= pixels_above_half_max img)%Z /\ 1 <= fwhmPixels (estimateStats img)).
Proof.
  intros Hwf.
  assert (Hf : fwhmPixels (estimateStats img)
               = toFixed 2 (2 * sqrt (IZR (pixels_above_half_max img) / PI))).
  { unfold estimateStats; cbn [fwhmPixels]. unfold stats_fwhm.
    rewrite (stats_halfMaxCount img Hwf). reflexivity. }
  rewrite Hf. unfold pixels_above_half_max.
  set (m := maxVal (calculateCentroid img)).
  split; intros Hm.
  - assert (E : filter (above (m / 2)) (pixels (data img)) = []).
    { apply filter_none. intros p Hp.
      pose proof (pixels_below_peak img p Hwf Hp) as Hb. fold m in Hb.
      unfold above. destruct (Rgt_dec (pixel_mean p) (m / 2)); [lra|].
      reflexivity. }
    rewrite E. cbn [length Z.of_nat]. unfold Rdiv at 1.
    rewrite Rmult_0_l, sqrt_0, Rmult_0_r.
    split; [reflexivity|apply toFixed_0].
  - destruct (calculateCentroid_maxVal_spec img Hwf)
      as (_ & px & py & Hx & Hy & E).
    destruct (pixel_of_grid img px py Hwf Hx Hy) as (p & Hp & Ep).
    assert (Hin : In p (filter (above (m / 2)) (pixels (data img)))).
    { apply filter_In. split; [assumption|].
      unfold above. destruct (Rgt_dec (pixel_mean p) (m / 2)) as [_|H];
        [reflexivity|]. exfalso. apply H. rewrite Ep, E. fold m. lra. }
    assert (Hc : (1 <= Z.of_nat
                         (length (filter (above (m / 2))
                                    (pixels (data img)))))%Z).
    { destruct (filter (above (m / 2)) (pixels (data img)));
        [destruct Hin|cbn [length]; lia]. }
    split; [exact Hc|].
    apply (toFixed_ge 2 _ 1); [lia|].
    apply IZR_le in Hc.
    set (c := IZR (Z.of_nat (length (filter (above (m / 2))
                                       (pixels (data img)))))) in *.
    pose proof PI_4 as H4. pose proof PI_RGT_0 as H0.
    assert (Hq : / 2 * / 2 <= c / PI).
    { apply Rmult_le_reg_r with PI; [assumption|].
      unfold Rdiv. rewrite (Rmult_assoc c), Rinv_l by lra. lra. }
    apply sqrt_le_1_alt in Hq. rewrite sqrt_square in Hq by lra. lra.
Qed.

Lemma one_star_peak : 60 <= maxVal (calculateCentroid Samples.one_star).
Proof.
  pose proof (proj1 (calculateCentroid_maxVal_spec Samples.one_star wf_one_star)
                2%Z 1%Z ltac:(cbn; lia) ltac:(cbn; lia)) as H.
  change (luminosity _ _ _) with ((30 + 60 + 90) / 3) in H. lra.
Qed.

Lemma estimateStats_fwhm_floor_witness :
  (1 <= pixels_above_half_max Samples.one_star)%Z /\
  1 <= fwhmPixels (estimateStats Samples.one_star).
Proof.
  apply (estimateStats_fwhm_floor Samples.one_star wf_one_star).
  pose proof one_star_peak. lra.
Defined.

(** X5. A buffer whose reported peak is 20 or more has a signal-to-noise
    ratio of 10 or more: the background is at most a tenth of the peak, so
    the noise estimate [sqrt (background + 1)] stays small against the
    signal. *)
Theorem estimateStats_snr_of_peak (img : ImageData) :
  wf_image img ->
  (20 <= peakIntensity (estimateStats img))%Z ->
  exists r, snr (estimateStats img) = Finite r /\ 10 <= r.
Proof. exact (estimateStats_snr_value img). Qed.

Lemma estimateStats_snr_of_peak_witness :
  exists r, snr (estimateStats Samples.one_star) = Finite r /\ 10 <= r.
Proof.
  apply (estimateStats_snr_of_peak Samples.one_star wf_one_star).
  unfold estimateStats; cbn [peakIntensity].
  apply Zfloor_lub. pose proof one_star_peak. lra.
Defined.

End StatsBounds.

(* ================================================================== *)
(** ** calculateRadialProfile: the rings *)
(* ================================================================== *)

Section ProfileRings.
Import Js ImageProcessing Reference MoreSamples.

Lemma length_update_nat {A : Type} (a : list A) (f : A -> A) :
  forall i, length (update_nat a i f) = length a.
Proof.
  induction a as [|v a IH]; intros [|i]; cbn; try reflexivity.
  now rewrite IH.
Qed.

Lemma length_update {A : Type} (a : list A) (i : Z) (f : A -> A) :
  length (update a i f) = length a.
Proof.
  unfold update. destruct (i <? 0)%Z; [reflexivity|apply length_update_nat].
Qed.

Lemma nth_update_nat {A : Type} (f : A -> A) (d : A) (a : list A) :
  forall i k, (i < length a)%nat ->
    nth k (update_nat a i f) d
    = if Nat.eqb k i then f (nth k a d) else nth k a d.
Proof.
  induction a as [|v a IH]; intros i k Hi; [cbn in Hi; lia|].
  destruct i as [|i], k as [|k]; cbn; try reflexivity.
  apply IH. cbn in Hi. lia.
Qed.

Lemma get_update (a : list Z) (i k : Z) (f : Z -> Z) :
  (0 <= i < Z.of_nat (length a))%Z -> (0 <= k)%Z ->
  get (update a i f) k = if (k =? i)%Z then f (get a k) else get a k.
Proof.
  intros Hi Hk. unfold get, update.
  destruct (Z.ltb_spec i 0); [lia|]. destruct (Z.ltb_spec k 0); [lia|].
  rewrite nth_update_nat by lia.
  destruct (Z.eqb_spec k i) as [->|Hne].
  - now rewrite Nat.eqb_refl.
  - destruct (Nat.eqb_spec (Z.to_nat k) (Z.to_nat i)); [lia|reflexivity].
Qed.

Lemma getR_update (a : list R) (i k : Z) (f : R -> R) :
  (0 <= i < Z.of_nat (length a))%Z -> (0 <= k)%Z ->
  getR (update a i f) k = if (k =? i)%Z then f (getR a k) else getR a k.
Proof.
  intros Hi Hk. unfold getR, update.
  destruct (Z.ltb_spec i 0); [lia|]. destruct (Z.ltb_spec k 0); [lia|].
  rewrite nth_update_nat by lia.
  destruct (Z.eqb_spec k i) as [->|Hne].
  - now rewrite Nat.eqb_refl.
  - destruct (Nat.eqb_spec (Z.to_nat k) (Z.to_nat i)); [lia|reflexivity].
Qed.

Lemma distance_nonneg (centerX centerY : R) (p : Z * Z) :
  0 <= distance centerX centerY p.
Proof. apply sqrt_pos. Qed.

(** One turn of the loop, by the ring of the pixel. *)
Lemma profile_body_ring (img : ImageData) (centerX centerY : R)
  (maxRadius k : Z) (p : Z * Z) (s : ProfileVars) :
  (0 <= k < maxRadius)%Z ->
  length (bins s) = Z.to_nat maxRadius ->
  length (counts s) = Z.to_nat maxRadius ->
  let s' := profile_body img centerX centerY maxRadius (snd p) (fst p) s in
  length (bins s') = Z.to_nat maxRadius /\
  length (counts s') = Z.to_nat maxRadius /\
  get (counts s') k
  = (if in_ring centerX centerY k p then get (counts s) k + 1
     else get (counts s) k)%Z /\
  getR (bins s') k
  = if in_ring centerX centerY k p then getR (bins s) k + lum img p
    else getR (bins s) k.
Proof.
  intros Hk Hb Hc. cbn zeta. unfold profile_body, in_ring.
  fold (distance centerX centerY p).
  pose proof (distance_nonneg centerX centerY p) as H0.
  destruct (Rlt_dec (distance centerX centerY p) (IZR maxRadius)) as [Hlt|Hge].
  - pose proof (bin_index_in_range _ _ H0 Hlt) as Hbin.
    cbn [bins counts]. rewrite !length_update.
    rewrite get_update, getR_update by lia.
    rewrite (Z.eqb_sym k).
    destruct (Z.eqb_spec (Zfloor (distance centerX centerY p)) k);
      repeat split; try assumption; reflexivity.
  - assert (Hfl : (maxRadius <= Zfloor (distance centerX centerY p))%Z)
      by (apply Zfloor_lub; lra).
    destruct (Z.eqb_spec (Zfloor (distance centerX centerY p)) k); [lia|].
    repeat split; assumption.
Qed.

Lemma profile_loop_ring (img : ImageData) (centerX centerY : R)
  (maxRadius k : Z) (l : list (Z * Z)) :
  (0 <= k < maxRadius)%Z ->
  forall s,
    length (bins s) = Z.to_nat maxRadius ->
    length (counts s) = Z.to_nat maxRadius ->
    let s' := for_ l
                (fun p => profile_body img centerX centerY maxRadius
                            (snd p) (fst p)) s in
    get (counts s') k
    = (get (counts s) k
       + Z.of_nat (length (filter (in_ring centerX centerY k) l)))%Z /\
    getR (bins s') k
    = fold_left Rplus (map (lum img) (filter (in_ring centerX centerY k) l))
        (getR (bins s) k).
Proof.
  intros Hk. induction l as [|p l IH]; intros s Hb Hc.
  - cbn. split; [lia|reflexivity].
  - cbn zeta. rewrite for_cons.
    destruct (profile_body_ring img centerX centerY maxRadius k p s Hk Hb Hc)
      as (Hb' & Hc' & Ec & Eb).
    cbn zeta in Hb', Hc', Ec, Eb.
    destruct (IH _ Hb' Hc') as (IHc & IHb). cbn zeta in IHc, IHb.
    rewrite IHc, IHb, Ec, Eb. cbn [filter].
    destruct (in_ring centerX centerY k p); cbn [length map fold_left];
      split; try reflexivity; lia.
Qed.

Lemma get_repeat_0 (n : nat) (k : Z) : get (repeat 0%Z n) k = 0%Z.
Proof.
  unfold get. destruct (k <? 0)%Z; [reflexivity|].
  generalize (Z.to_nat k). induction n as [|n IH]; intros [|j]; cbn;
    try reflexivity. apply IH.
Qed.

Lemma getR_repeat_0 (n : nat) (k : Z) : getR (repeat 0 n) k = 0.
Proof.
  unfold getR. destruct (k <? 0)%Z; [reflexivity|].
  generalize (Z.to_nat k). induction n as [|n IH]; intros [|j]; cbn;
    try reflexivity. apply IH.
Qed.

(** The two arrays after the scan: the histogram of the rings. *)
Lemma profile_scan_ring (img : ImageData) (centerX centerY : R)
  (maxRadius k : Z) :
  (0 <= k < maxRadius)%Z ->
  get (counts (profile_scan img centerX centerY maxRadius)) k
  = ring_count img centerX centerY k /\
  getR (bins (profile_scan img centerX centerY maxRadius)) k
  = ring_sum img centerX centerY k.
Proof.
  intros Hk. rewrite profile_scan_flat.
  destruct (profile_loop_ring img centerX centerY maxRadius k (scan_order img)
              Hk
              {| bins := repeat 0 (Z.to_nat maxRadius);
                 counts := repeat 0%Z (Z.to_nat maxRadius) |})
    as (Ec & Eb); try apply repeat_length.
  cbn zeta in Ec, Eb. cbn [bins counts] in Ec, Eb.
  rewrite get_repeat_0 in Ec. rewrite getR_repeat_0 in Eb.
  rewrite Ec, Eb. split; [unfold ring_count, ring; lia|reflexivity].
Qed.

Lemma profile_peak_ring (img : ImageData) (centerX centerY : R)
  (maxRadius : Z) :
  (0 < maxRadius)%Z ->
  profile_peak (profile_scan img centerX centerY maxRadius)
  = ring_peak img centerX centerY.
Proof.
  intros HR. unfold profile_peak, ring_peak.
  destruct (profile_scan_ring img centerX centerY maxRadius 0 ltac:(lia))
    as (-> & ->).
  reflexivity.
Qed.



End ProfileRings.

Section ProfileCentre.
Import Js ImageProcessing Reference MoreSamples.

Lemma NoDup_scan_order (img : ImageData) : NoDup (scan_order img).
Proof. apply NoDup_rows; apply NoDup_range. Qed.

Lemma filter_single {A : Type} (f : A -> bool) (a : A) (l : list A) :
  NoDup l -> In a l -> f a = true ->
  (forall b, In b l -> f b = true -> b = a) ->
  filter f l = [a].
Proof.
  induction l as [|c l IH]; intros Hnd Hin Hfa Huniq; [destruct Hin|].
  inversion Hnd as [|? ? Hnotin Hnd']; subst. cbn [filter].
  destruct Hin as [->|Hin].
  - rewrite Hfa. f_equal. apply filter_none. intros b Hb.
    destruct (f b) eqn:Hfb; [|reflexivity].
    exfalso. apply Hnotin.
    rewrite <- (Huniq b (or_intror Hb) Hfb). assumption.
  - destruct (f c) eqn:Hfc.
    + exfalso. apply Hnotin.
      rewrite (Huniq c (or_introl eq_refl) Hfc). assumption.
    + apply IH; try assumption.
      intros b Hb. apply Huniq. right. assumption.
Qed.

(** Around a pixel, ring 0 is that pixel alone. *)
Lemma in_ring_0_centre (px0 py0 : Z) (p : Z * Z) :
  in_ring (IZR px0) (IZR py0) 0 p = true <-> p = (px0, py0).
Proof.
  destruct p as [px py]. unfold in_ring, distance. cbn [fst snd].
  rewrite <- !minus_IZR, <- !mult_IZR, <- plus_IZR.
  set (n := ((px - px0) * (px - px0) + (py - py0) * (py - py0))%Z).
  split.
  - intros H. apply Z.eqb_eq in H.
    destruct (Z.eq_dec n 0) as [E|NE].
    + subst n.
      pose proof (Z.square_nonneg (px - px0)) as Ha.
      pose proof (Z.square_nonneg (py - py0)) as Hb.
      assert (Ea : ((px - px0) * (px - px0) = 0)%Z) by lia.
      assert (Eb : ((py - py0) * (py - py0) = 0)%Z) by lia.
      apply Z.mul_eq_0 in Ea, Eb. f_equal; lia.
    + exfalso.
      pose proof (Z.square_nonneg (px - px0)) as Ha.
      pose proof (Z.square_nonneg (py - py0)) as Hb.
      assert (Hn : (1 <= n)%Z) by (subst n; lia).
      apply IZR_le in Hn. apply sqrt_le_1_alt in Hn. rewrite sqrt_1 in Hn.
      pose proof (Zfloor_lub 1 _ Hn). lia.
  - intros E. inversion E; subst. subst n.
    replace ((px0 - px0) * (px0 - px0) + (py0 - py0) * (py0 - py0))%Z
      with 0%Z by lia.
    rewrite sqrt_0. apply Z.eqb_eq. apply Zfloor_eq. lra.
Qed.

Lemma ring_0_centre (img : ImageData) (px0 py0 : Z) :
  (0 <= px0 < width img)%Z -> (0 <= py0 < height img)%Z ->
  ring img (IZR px0) (IZR py0) 0 = [(px0, py0)].
Proof.
  intros Hx Hy. unfold ring. apply filter_single.
  - apply NoDup_scan_order.
  - apply in_scan_order. split; assumption.
  - apply in_ring_0_centre. reflexivity.
  - intros b _ Hb. apply in_ring_0_centre. assumption.
Qed.

Lemma profile_point_finite (img : ImageData) (centerX centerY : R)
  (maxRadius k : Z) (peak : R) :
  wf_image img -> 0 < peak ->
  exists r,
    intensity (profile_point (profile_scan img centerX centerY maxRadius)
                 peak k) = Finite r /\ 0 <= r.
Proof.
  intros Hwf Hp.
  destruct (profile_scan_nonneg img centerX centerY maxRadius Hwf) as (Hb & _).
  pose proof (profile_mean_nonneg _ k Hb) as Hm.
  unfold profile_point; cbn [intensity]. unfold div.
  destruct (Req_dec_T peak 0) as [E|_]; [lra|].
  eexists. split; [reflexivity|].
  apply Rmult_le_pos; [exact Hm|]. left. apply Rinv_0_lt_compat. assumption.
Qed.

(** X8. Centred on a pixel of non-zero luminosity, the radial profile is
    normalised to that pixel: the entry of radius 0 has intensity 1 and
    [idealDiffraction] 1, and every other intensity is a finite number
    [>= 0]. *)
Theorem calculateRadialProfile_lit_centre (img : ImageData) (px0 py0 : Z)
  (maxRadius : Z) :
  wf_image img ->
  (0 <= px0 < width img)%Z -> (0 <= py0 < height img)%Z ->
  0 < luminosity img px0 py0 ->
  (1 <= maxRadius < 2 ^ 32)%Z ->
  exists rest,
    calculateRadialProfile img (IZR px0) (IZR py0) maxRadius
    = Some ({| radius := 0; intensity := Finite 1; idealDiffraction := 1 |}
            :: rest) /\
    Z.of_nat (length rest) = (maxRadius - 1)%Z /\
    forall p, In p rest -> exists r, intensity p = Finite r /\ 0 <= r.
Proof.
  intros Hwf Hx Hy Hlit HR.
  rewrite calculateRadialProfile_eq by lia.
  rewrite profile_peak_ring by lia.
  assert (Hpeak : ring_peak img (IZR px0) (IZR py0) = luminosity img px0 py0).
  { unfold ring_peak, ring_count, ring_sum.
    rewrite (ring_0_centre img px0 py0 Hx Hy).
    change (Z.of_nat (length [(px0, py0)])) with 1%Z.
    change (0 <? 1)%Z with true. cbv iota.
    cbn [map]. unfold sum_list, lum. cbn [fold_left fst snd]. field. }
  assert (Hmean : ring_mean img (IZR px0) (IZR py0) 0
                  = luminosity img px0 py0).
  { unfold ring_mean, ring_count, ring_sum.
    rewrite (ring_0_centre img px0 py0 Hx Hy).
    change (Z.of_nat (length [(px0, py0)])) with 1%Z.
    change (0 <? 1)%Z with true. cbv iota.
    cbn [map]. unfold sum_list, lum. cbn [fold_left fst snd]. field. }
  rewrite Hpeak. rewrite range_cons by lia. cbn [map].
  eexists. split; [|split].
  - f_equal. f_equal.
    unfold profile_point. f_equal.
    + destruct (profile_scan_ring img (IZR px0) (IZR py0) maxRadius 0
                  ltac:(lia)) as (-> & ->).
      fold (ring_mean img (IZR px0) (IZR py0) 0).
      rewrite Hmean. unfold div.
      destruct (Req_dec_T (luminosity img px0 py0) 0) as [E|_]; [lra|].
      f_equal. field. lra.
    + replace (- 0.1 * 0 * 0) with 0 by ring. apply exp_0.
  - rewrite length_map, length_range. lia.
  - intros p Hp. apply in_map_iff in Hp. destruct Hp as [k [<- _]].
    apply profile_point_finite; assumption.
Qed.

Lemma calculateRadialProfile_lit_centre_witness :
  exists rest,
    calculateRadialProfile Samples.one_star 2 1 2
    = Some ({| radius := 0; intensity := Finite 1; idealDiffraction := 1 |}
            :: rest).
Proof.
  destruct (calculateRadialProfile_lit_centre Samples.one_star 2 1 2
              wf_one_star ltac:(cbn; lia) ltac:(cbn; lia))
    as (rest & H & _).
  - change (luminosity _ _ _) with ((30 + 60 + 90) / 3). lra.
  - lia.
  - exists rest. exact H.
Defined.

(** X9. No pixel within [maxRadius] of the centre: every entry of the
    profile has intensity 0. *)
Theorem calculateRadialProfile_out_of_reach (img : ImageData)
  (centerX centerY : R) (maxRadius : Z) :
  (0 <= maxRadius < 2 ^ 32)%Z ->
  (forall px py, (0 <= px < width img)%Z -> (0 <= py < height img)%Z ->
                 IZR maxRadius <= distance centerX centerY (px, py)) ->
  exists profile,
    calculateRadialProfile img centerX centerY maxRadius = Some profile /\
    Z.of_nat (length profile) = maxRadius /\
    forall p, In p profile -> intensity p = Finite 0.
Proof.
  intros HR Hfar.
  assert (Hempty : forall k, (0 <= k < maxRadius)%Z ->
                             ring img centerX centerY k = []).
  { intros k Hk. unfold ring. apply filter_none. intros [px py] Hin.
    apply in_scan_order in Hin. destruct Hin as [Hx Hy].
    pose proof (Hfar px py Hx Hy) as Hd.
    unfold in_ring. apply Z.eqb_neq.
    pose proof (Zfloor_lub maxRadius _ Hd). lia. }
  rewrite calculateRadialProfile_eq by assumption.
  eexists. split; [reflexivity|]. split.
  - rewrite length_map, length_range. lia.
  - intros p Hp. apply in_map_iff in Hp. destruct Hp as [k [<- Hk]].
    apply in_range in Hk.
    rewrite profile_peak_ring by lia.
    unfold profile_point; cbn [intensity].
    destruct (profile_scan_ring img centerX centerY maxRadius k Hk)
      as (-> & ->).
    unfold ring_peak, ring_count. rewrite !Hempty by lia.
    cbn [length Z.of_nat]. change (0 <? 0)%Z with false. cbv iota.
    unfold div. destruct (Req_dec_T 255 0) as [E|_]; [lra|].
    f_equal. unfold Rdiv. apply Rmult_0_l.
Qed.

Lemma calculateRadialProfile_out_of_reach_witness :
  exists profile,
    calculateRadialProfile Samples.black_pixel 5 0 2 = Some profile /\
    Z.of_nat (length profile) = 2%Z /\
    forall p, In p profile -> intensity p = Finite 0.
Proof.
  apply (calculateRadialProfile_out_of_reach Samples.black_pixel 5 0 2).
  - lia.
  - intros px py Hx Hy. cbn [Samples.black_pixel width height] in Hx, Hy.
    assert (px = 0%Z) by lia. assert (py = 0%Z) by lia. subst.
    unfold distance. cbn [fst snd].
    replace ((0 - 5) * (0 - 5) + (0 - 0) * (0 - 0)) with (5 * 5) by ring.
    rewrite sqrt_square by lra. lra.
Defined.

(** X10. For [maxRadius] up to 87 the [idealDiffraction] column does not
    depend on the image: it is [exp (-0.1 r^2)] at radius [r], positive, at
    most 1, and strictly decreasing along the profile.  (Beyond radius 86
    the doubles of the code underflow to 0.) *)
Theorem calculateRadialProfile_ideal (img : ImageData) (centerX centerY : R)
  (maxRadius : Z) :
  (0 <= maxRadius <= 87)%Z ->
  exists profile,
    calculateRadialProfile img centerX centerY maxRadius = Some profile /\
    (forall p, In p profile ->
       idealDiffraction p = exp (- 0.1 * IZR (radius p) * IZR (radius p)) /\
       0 < idealDiffraction p <= 1) /\
    (forall p q, In p profile -> In q profile ->
       (radius p < radius q)%Z -> idealDiffraction q < idealDiffraction p).
Proof.
  intros HR. rewrite calculateRadialProfile_eq by lia.
  eexists. split; [reflexivity|]. split.
  - intros p Hp. apply in_map_iff in Hp. destruct Hp as [k [<- Hk]].
    apply in_range in Hk. cbn [profile_point idealDiffraction radius].
    split; [reflexivity|]. split; [apply exp_pos|].
    rewrite <- exp_0.
    assert (Hk0 : 0 <= IZR k) by (apply IZR_le; lia).
    destruct (Req_dec (- 0.1 * IZR k * IZR k) 0) as [->|NE]; [lra|].
    left. apply exp_increasing. nra.
  - intros p q Hp Hq. apply in_map_iff in Hp, Hq.
    destruct Hp as [i [<- Hi]]. destruct Hq as [j [<- Hj]].
    apply in_range in Hi, Hj. cbn [profile_point idealDiffraction radius].
    intros Hlt. apply exp_increasing.
    assert (Hi0 : 0 <= IZR i) by (apply IZR_le; lia).
    apply IZR_lt in Hlt. nra.
Qed.

Lemma calculateRadialProfile_ideal_witness :
  exists profile,
    calculateRadialProfile Samples.one_star 2 1 64 = Some profile /\
    (forall p, In p profile -> 0 < idealDiffraction p <= 1).
Proof.
  destruct (calculateRadialProfile_ideal Samples.one_star 2 1 64 ltac:(lia))
    as (profile & H & Hall & _).
  exists profile. split; [exact H|]. intros p Hp. apply (Hall p Hp).
Defined.

Lemma calculateRadialProfile_shape_witness :
  exists profile,
    calculateRadialProfile Samples.one_star 2 1 2 = Some profile /\
    Z.of_nat (length profile) = 2%Z /\
    map radius profile = range 0 2.
Proof.
  destruct (calculateRadialProfile_shape Samples.one_star 2 1 2 wf_one_star
              ltac:(lia))
    as (profile & H & Hlen & Hrad & _).
  exists profile. repeat split; assumption.
Defined.

End ProfileCentre.

(* ================================================================== *)
(** ** checkSaturation: when the verdict is fixed *)
(* ================================================================== *)

Section SaturationEdges.
Import Js ImageProcessing Reference MoreSamples.

Lemma length_rows {A B : Type} (f : A -> B -> A * B) (xs : list A)
  (ys : list B) :
  length (flat_map (fun py => map (fun px => f px py) xs) ys)
  = (length ys * length xs)%nat.
Proof.
  induction ys as [|b ys IH]; [reflexivity|].
  cbn [flat_map length]. rewrite length_app, length_map, IH. lia.
Qed.

Lemma filter_length_le {A : Type} (f : A -> bool) (l : list A) :
  (length (filter f l) <= length l)%nat.
Proof.
  induction l as [|a l IH]; [cbn; lia|].
  cbn [filter]. destruct (f a); cbn [length]; lia.
Qed.

Lemma saturated_count_le (img : ImageData) (centerX centerY radius : R) :
  (saturated_count img centerX centerY radius
   <= Z.of_nat (length (square centerX centerY radius)))%Z.
Proof.
  unfold saturated_count, scanned_region.
  pose proof (filter_length_le (saturated img)
                (filter (in_buffer img) (square centerX centerY radius))).
  pose proof (filter_length_le (in_buffer img)
                (square centerX centerY radius)).
  lia.
Qed.

Lemma Zceil_floor (r : R) : (Zceil r <= Zfloor r + 1)%Z.
Proof.
  pose proof (Zceil_bound r) as [Hc _].
  pose proof (Zfloor_bound r) as [_ Hf].
  assert (H : IZR (Zceil r) < IZR (Zfloor r + 2)).
  { rewrite plus_IZR. lra. }
  apply lt_IZR in H. lia.
Qed.

(** X11. A buffer none of whose pixels has a colour channel at 250 or more
    is never reported as saturated, whatever the centre and the radius. *)
Theorem checkSaturation_unclipped (img : ImageData)
  (centerX centerY radius : R) :
  (forall px py c, (0 <= px < width img)%Z -> (0 <= py < height img)%Z ->
                   (0 <= c <= 2)%Z -> (channel img px py c < 250)%Z) ->
  checkSaturation img centerX centerY radius = false.
Proof.
  intros Hd. unfold checkSaturation. rewrite saturation_scan_count.
  unfold saturated_count.
  rewrite (filter_none (saturated img)); [reflexivity|].
  intros [px py] Hin. apply in_scanned_region in Hin.
  destruct Hin as (_ & _ & Hx & Hy). unfold saturated.
  pose proof (Hd px py 0%Z Hx Hy ltac:(lia)).
  pose proof (Hd px py 1%Z Hx Hy ltac:(lia)).
  pose proof (Hd px py 2%Z Hx Hy ltac:(lia)).
  repeat match goal with
    | |- context [(?a <=? ?b)%Z] => destruct (Z.leb_spec a b); [lia|]
    end.
  reflexivity.
Qed.

Lemma checkSaturation_unclipped_witness :
  checkSaturation Samples.one_star 2 1 3 = false.
Proof.
  apply (checkSaturation_unclipped Samples.one_star 2 1 3).
  intros px py c Hx Hy Hc. cbn [Samples.one_star width height] in Hx, Hy.
  assert (Hpx : (px = 0 \/ px = 1 \/ px = 2)%Z) by lia.
  assert (Hpy : (py = 0 \/ py = 1)%Z) by lia.
  assert (Hcc : (c = 0 \/ c = 1 \/ c = 2)%Z) by lia.
  destruct Hpx as [-> | [-> | ->]], Hpy as [-> | ->],
    Hcc as [-> | [-> | ->]]; vm_compute; reflexivity.
Defined.

(** X12. With radius 0 the scanned square has at most 2 x 2 pixels, so
    [checkSaturation] answers [false] on every buffer. *)
Theorem checkSaturation_radius_0 (img : ImageData) (centerX centerY : R) :
  checkSaturation img centerX centerY 0 = false.
Proof.
  unfold checkSaturation. rewrite saturation_scan_count.
  pose proof (saturated_count_le img centerX centerY 0) as Hle.
  unfold square in Hle.
  rewrite (length_rows (fun px py => (px, py))) in Hle.
  rewrite !length_range in Hle.
  rewrite !Rminus_0_r, !Rplus_0_r in Hle.
  pose proof (Zceil_floor centerX). pose proof (Zceil_floor centerY).
  apply Z.ltb_ge.
  assert (Hx : (Z.to_nat (Zceil centerX + 1 - Zfloor centerX) <= 2)%nat)
    by lia.
  assert (Hy : (Z.to_nat (Zceil centerY + 1 - Zfloor centerY) <= 2)%nat)
    by lia.
  nia.
Qed.

(** X13. Enlarging the radius only adds pixels to the scanned region: a
    centre reported as saturated stays so under any larger radius. *)
Theorem checkSaturation_radius_mono (img : ImageData)
  (centerX centerY radius radius' : R) :
  radius <= radius' ->
  checkSaturation img centerX centerY radius = true ->
  checkSaturation img centerX centerY radius' = true.
Proof.
  intros Hr. unfold checkSaturation. rewrite !saturation_scan_count.
  intros H. apply Z.ltb_lt in H. apply Z.ltb_lt.
  enough (Hle : (saturated_count img centerX centerY radius
                 <= saturated_count img centerX centerY radius')%Z) by lia.
  unfold saturated_count. apply inj_le. apply NoDup_incl_length.
  - apply NoDup_filter. apply NoDup_scanned_region.
  - intros [px py] Hin. apply filter_In in Hin. destruct Hin as [Hin Hsat].
    apply filter_In. split; [|assumption].
    apply in_scanned_region in Hin. apply in_scanned_region.
    destruct Hin as (Hx & Hy & Hbx & Hby).
    pose proof (Zfloor_le (centerX - radius') (centerX - radius) ltac:(lra)).
    pose proof (Zfloor_le (centerY - radius') (centerY - radius) ltac:(lra)).
    pose proof (Zceil_le (centerX + radius) (centerX + radius') ltac:(lra)).
    pose proof (Zceil_le (centerY + radius) (centerY + radius') ltac:(lra)).
    repeat split; lia.
Qed.

Lemma five_clipped_saturated :
  checkSaturation Samples.five_clipped 1 1 1 = true.
Proof.
  unfold checkSaturation. rewrite saturation_scan_count.
  unfold saturated_count, scanned_region. rewrite square_1_1_1.
  vm_compute. reflexivity.
Qed.

Lemma checkSaturation_radius_mono_witness :
  checkSaturation Samples.five_clipped 1 1 3 = true.
Proof.
  apply (checkSaturation_radius_mono Samples.five_clipped 1 1 1 3).
  - lra.
  - exact five_clipped_saturated.
Defined.

End SaturationEdges.

(* ================================================================== *)
(** ** cropImage: the stretched buffer as a whole *)
(* ================================================================== *)

Section StretchImage.
Import Js ImageProcessing Reference MoreSamples.

Lemma stretch_store_ge (v : Z) :
  (0 <= v <= 255)%Z -> (v <= stretch_store v)%Z.
Proof.
  intros Hv. destruct (Z.eq_dec v 0) as [->|H0].
  - rewrite stretch_store_0. lia.
  - destruct (Z.eq_dec v 255) as [->|H255].
    + rewrite stretch_store_255. lia.
    + pose proof (stretch_store_above v ltac:(lia)). lia.
Qed.

Lemma channel_range (img : ImageData) (px py c : Z) :
  wf_image img -> (0 <= channel img px py c <= 255)%Z.
Proof.
  intros (_ & _ & _ & Hd). unfold channel.
  apply get_Forall; [assumption|lia].
Qed.

(** X15. The log stretch never darkens: every colour channel of the
    stretched buffer is at least the channel it replaces (alpha is kept), so
    the luminosity of no pixel goes down. *)
Theorem cropImage_brightens (img : ImageData) (px py : Z) :
  wf_image img ->
  (0 <= px < width img)%Z -> (0 <= py < height img)%Z ->
  (channel img px py 0 <= channel (cropImage img true) px py 0)%Z /\
  (channel img px py 1 <= channel (cropImage img true) px py 1)%Z /\
  (channel img px py 2 <= channel (cropImage img true) px py 2)%Z /\
  channel (cropImage img true) px py 3 = channel img px py 3 /\
  luminosity img px py <= luminosity (cropImage img true) px py.
Proof.
  intros Hwf Hx Hy.
  destruct (cropImage_channels img px py Hwf Hx Hy) as (E0 & E1 & E2 & E3).
  pose proof (stretch_store_ge _ (channel_range img px py 0 Hwf)) as G0.
  pose proof (stretch_store_ge _ (channel_range img px py 1 Hwf)) as G1.
  pose proof (stretch_store_ge _ (channel_range img px py 2 Hwf)) as G2.
  rewrite <- E0 in G0. rewrite <- E1 in G1. rewrite <- E2 in G2.
  repeat split; try assumption.
  rewrite !luminosity_rgb_sum. unfold rgb_sum.
  apply Rmult_le_compat_r; [lra|]. apply IZR_le. lia.
Qed.

Lemma cropImage_brightens_witness :
  luminosity Samples.one_star 2 1
  <= luminosity (cropImage Samples.one_star true) 2 1.
Proof.
  apply (cropImage_brightens Samples.one_star 2 1 wf_one_star);
    cbn; lia.
Defined.

Lemma stretch_pixels_fixed (n : nat) :
  forall d : list Z,
    length d = (4 * n)%nat ->
    (forall k c, (0 <= k < Z.of_nat n)%Z -> (0 <= c <= 2)%Z ->
                 stretch_store (get d (4 * k + c)) = get d (4 * k + c)) ->
    stretch_pixels d = d.
Proof.
  induction n as [|n IH]; intros d Hlen Hfix.
  - destruct d; [reflexivity|discriminate].
  - destruct d as [|r [|g [|b [|a rest]]]]; cbn [length] in Hlen; try lia.
    cbn [stretch_pixels].
    pose proof (Hfix 0%Z 0%Z ltac:(lia) ltac:(lia)) as F0.
    pose proof (Hfix 0%Z 1%Z ltac:(lia) ltac:(lia)) as F1.
    pose proof (Hfix 0%Z 2%Z ltac:(lia) ltac:(lia)) as F2.
    change (get _ (4 * 0 + 0)) with r in F0.
    change (get _ (4 * 0 + 1)) with g in F1.
    change (get _ (4 * 0 + 2)) with b in F2.
    rewrite F0, F1, F2. do 4 f_equal.
    apply IH; [lia|]. intros k c Hk Hc.
    pose proof (Hfix (k + 1)%Z c ltac:(lia) Hc) as F.
    replace (4 * (k + 1) + c)%Z with (4 * k + c + 4)%Z in F by lia.
    rewrite get_skip4 in F by lia. exact F.
Qed.

(** X16. The log stretch leaves a buffer unchanged exactly when each of
    its colour channels is 0 or 255. *)
Theorem cropImage_fixed (img : ImageData) :
  wf_image img ->
  (cropImage img true = img <->
   forall px py c, (0 <= px < width img)%Z -> (0 <= py < height img)%Z ->
                   (0 <= c <= 2)%Z ->
                   channel img px py c = 0%Z \/ channel img px py c = 255%Z).
Proof.
  intros Hwf. split.
  - intros E px py c Hx Hy Hc.
    destruct (cropImage_channels img px py Hwf Hx Hy) as (E0 & E1 & E2 & _).
    rewrite E in E0, E1, E2.
    apply stretch_store_fixed_points; [apply channel_range; assumption|].
    assert (Hcc : (c = 0 \/ c = 1 \/ c = 2)%Z) by lia.
    destruct Hcc as [-> | [-> | ->]]; symmetry; assumption.
  - intros Hall.
    pose proof (cropImage_data img Hwf) as Hdata.
    pose proof (wf_length img Hwf) as Hlen.
    assert (Hfix : stretch_pixels (data img) = data img).
    { apply (stretch_pixels_fixed _ _ Hlen). intros k c Hk Hc.
      destruct Hwf as (HW & HH & _).
      pose proof (Z.mod_pos_bound k (width img) ltac:(lia)) as Hm.
      pose proof (Z.div_mod k (width img) ltac:(lia)) as Hd.
      assert (Hq : (0 <= k / width img < height img)%Z).
      { split; [apply Z.div_pos; lia|].
        apply Z.div_lt_upper_bound; nia. }
      pose proof (Hall (k mod width img)%Z (k / width img)%Z c Hm Hq Hc)
        as Hch.
      unfold channel, pixel_index in Hch.
      replace ((k / width img * width img + k mod width img) * 4 + c)%Z
        with (4 * k + c)%Z in Hch by lia.
      apply stretch_store_fixed_points; [|assumption].
      destruct Hch as [-> | ->]; lia. }
    rewrite Hfix in Hdata.
    destruct img as [w h d]. unfold cropImage in *. cbn [width height data] in *.
    f_equal. exact Hdata.
Qed.

Lemma wf_black_and_white : wf_image black_and_white.
Proof. unfold black_and_white. solve_wf_image. Defined.

Lemma cropImage_fixed_witness :
  cropImage black_and_white true = black_and_white.
Proof.
  apply (cropImage_fixed black_and_white wf_black_and_white).
  intros px py c Hx Hy Hc. cbn [black_and_white width height] in Hx, Hy.
  assert (Hpx : (px = 0 \/ px = 1)%Z) by lia.
  assert (Hpy : py = 0%Z) by lia.
  assert (Hcc : (c = 0 \/ c = 1 \/ c = 2)%Z) by lia.
  subst py.
  destruct Hpx as [-> | ->], Hcc as [-> | [-> | ->]];
    vm_compute; auto.
Defined.

End StretchImage.

(* ================================================================== *)
(** ** The height field of the 3D viewer *)
(* ================================================================== *)

Section GridFacts.
Import Js ImageProcessing PSF3DViewer PSF3DGrid MoreSamples.

Lemma step_nonneg (n : Z) : (1 <= n)%Z -> 0 < IZR n / IZR gridSize.
Proof.
  intros Hn. apply IZR_le in Hn as Hn'. unfold gridSize.
  apply Rdiv_lt_0_compat; lra.
Qed.

(** The sampled index along one axis of [n] pixels. *)
Lemma sample_bounds (n x : Z) :
  (1 <= n)%Z -> (0 <= x)%Z ->
  (0 <= Zfloor (Rmin (IZR x * (IZR n / IZR gridSize)) (IZR n - 1)) < n)%Z.
Proof.
  intros Hn Hx. pose proof (step_nonneg n Hn) as Hs.
  apply IZR_le in Hn as Hn'. apply IZR_le in Hx as Hx'.
  set (t := Rmin (IZR x * (IZR n / IZR gridSize)) (IZR n - 1)).
  assert (H0 : 0 <= t).
  { unfold t. apply Rmin_glb; [apply Rmult_le_pos; lra|lra]. }
  assert (H1 : t <= IZR (n - 1)).
  { unfold t. rewrite minus_IZR. apply Rmin_r. }
  split; [apply Zfloor_lub; exact H0|].
  pose proof (Zfloor_le _ _ H1) as Hf. rewrite ZfloorZ in Hf. lia.
Qed.

Lemma sample_first (n : Z) :
  (1 <= n)%Z ->
  Zfloor (Rmin (IZR 0 * (IZR n / IZR gridSize)) (IZR n - 1)) = 0%Z.
Proof.
  intros Hn. apply IZR_le in Hn. rewrite Rmult_0_l, Rmin_left by lra.
  apply (ZfloorZ 0).
Qed.

Lemma sample_last (n : Z) :
  (1 <= n)%Z ->
  Zfloor (Rmin (IZR gridSize * (IZR n / IZR gridSize)) (IZR n - 1))
  = (n - 1)%Z.
Proof.
  intros Hn. unfold gridSize.
  replace (32 * (IZR n / 32)) with (IZR n) by field.
  rewrite Rmin_right by lra. rewrite <- minus_IZR. apply ZfloorZ.
Qed.

Lemma sample_mono (n x x' : Z) :
  (1 <= n)%Z -> (x <= x')%Z ->
  (Zfloor (Rmin (IZR x * (IZR n / IZR gridSize)) (IZR n - 1))
   <= Zfloor (Rmin (IZR x' * (IZR n / IZR gridSize)) (IZR n - 1)))%Z.
Proof.
  intros Hn Hx. pose proof (step_nonneg n Hn) as Hs.
  apply IZR_le in Hx. apply Zfloor_le.
  apply Rle_min_compat_r. apply Rmult_le_compat_r; lra.
Qed.

(** X17. The grid samples inside the buffer: for each of the 33 columns
    the sampled pixel column lies in [0, W - 1]; column 0 samples pixel
    column 0, column 32 samples the last one, and the sampled column never
    decreases along the grid.  Rows are sampled in the same way. *)
Theorem grid_sampling (img : ImageData) :
  wf_image img ->
  (forall x, (0 <= x <= gridSize)%Z -> (0 <= sample_x img x < width img)%Z) /\
  (forall y, (0 <= y <= gridSize)%Z -> (0 <= sample_y img y < height img)%Z) /\
  sample_x img 0 = 0%Z /\ sample_y img 0 = 0%Z /\
  sample_x img gridSize = (width img - 1)%Z /\
  sample_y img gridSize = (height img - 1)%Z /\
  (forall x x', (x <= x')%Z -> (sample_x img x <= sample_x img x')%Z) /\
  (forall y y', (y <= y')%Z -> (sample_y img y <= sample_y img y')%Z).
Proof.
  intros (HW & HH & _). unfold sample_x, sample_y, stepX, stepY.
  repeat split;
    try (intros; apply sample_bounds; lia);
    try (apply sample_first; assumption);
    try (apply sample_last; assumption);
    try (intros; apply sample_mono; assumption).
Qed.

Lemma grid_sampling_witness :
  sample_x Samples.one_star gridSize = 2%Z /\
  sample_y Samples.one_star gridSize = 1%Z.
Proof.
  destruct (grid_sampling Samples.one_star wf_one_star)
    as (_ & _ & _ & _ & Hx & Hy & _).
  exact (conj Hx Hy).
Defined.

Lemma grid_cell_row (img : ImageData) (y x : Z) (s : RowVars) :
  row (grid_cell img y x s) = row s ++ [grid_point img x y].
Proof.
  unfold grid_cell, grid_point; cbn [row]. f_equal. f_equal.
  unfold luminosity, mean3, pixel_index, getColor, gridSize.
  f_equal; field.
Qed.

Lemma grid_cells_row (img : ImageData) (y : Z) (l : list Z) :
  forall s,
    row (for_ l (grid_cell img y) s)
    = row s ++ map (fun x => grid_point img x y) l.
Proof.
  induction l as [|x l IH]; intros s.
  - cbn. now rewrite app_nil_r.
  - rewrite for_cons, IH, grid_cell_row, <- app_assoc. reflexivity.
Qed.

Lemma grid_rows_points (img : ImageData) (l : list Z) :
  forall s,
    points (for_ l (grid_row img) s)
    = points s
      ++ map (fun y => map (fun x => grid_point img x y)
                         (range 0 (gridSize + 1))) l.
Proof.
  induction l as [|y l IH]; intros s.
  - cbn. now rewrite app_nil_r.
  - rewrite for_cons, IH. unfold grid_row; cbn [points].
    rewrite grid_cells_row; cbn [row app].
    rewrite <- app_assoc. reflexivity.
Qed.

Lemma luminosity_bounds (img : ImageData) (px py : Z) :
  wf_image img -> 0 <= luminosity img px py / 255 <= 1.
Proof.
  intros Hwf.
  pose proof (luminosity_nonneg img px py Hwf).
  pose proof (luminosity_le_255 img px py Hwf). lra.
Qed.

(** X18. The wire frame is a 33 x 33 grid: the point of column [x] and
    row [y] sits at [(x - 16, y - 16)], its height is the luminosity of the
    sampled pixel divided by 255, in [0, 1], and its hue [240 - 210 z] lies
    between 30 (orange) and 240 (blue). *)
Theorem build_grid_points (img : ImageData) :
  wf_image img ->
  points (build_grid img)
  = map (fun y => map (fun x => grid_point img x y) (range 0 33))
        (range 0 33) /\
  length (points (build_grid img)) = 33%nat /\
  (forall r, In r (points (build_grid img)) -> length r = 33%nat) /\
  (forall r p, In r (points (build_grid img)) -> In p r ->
     -16 <= gx p <= 16 /\ -16 <= gy p <= 16 /\
     0 <= gz p <= 1 /\ 30 <= color_hue p <= 240).
Proof.
  intros Hwf.
  assert (E : points (build_grid img)
              = map (fun y => map (fun x => grid_point img x y) (range 0 33))
                    (range 0 33)).
  { unfold build_grid. rewrite grid_rows_points. reflexivity. }
  rewrite E. split; [reflexivity|]. split; [|split].
  - rewrite length_map, length_range. reflexivity.
  - intros r Hr. apply in_map_iff in Hr. destruct Hr as [y [<- _]].
    rewrite length_map, length_range. reflexivity.
  - intros r p Hr Hp. apply in_map_iff in Hr. destruct Hr as [y [<- Hy]].
    apply in_map_iff in Hp. destruct Hp as [x [<- Hx]].
    apply in_range in Hx, Hy.
    pose proof (luminosity_bounds img (sample_x img x) (sample_y img y) Hwf)
      as Hz.
    destruct Hx as [Hx0 Hx1], Hy as [Hy0 Hy1].
    apply IZR_le in Hx0, Hy0. apply IZR_lt in Hx1, Hy1.
    assert (Hx2 : IZR x <= 32).
    { apply IZR_le. apply lt_IZR in Hx1. lia. }
    assert (Hy2 : IZR y <= 32).
    { apply IZR_le. apply lt_IZR in Hy1. lia. }
    unfold grid_point; cbn [gx gy gz color_hue]. lra.
Qed.

Lemma build_grid_points_witness :
  length (points (build_grid Samples.one_star)) = 33%nat.
Proof.
  destruct (build_grid_points Samples.one_star wf_one_star) as (_ & H & _).
  exact H.
Defined.

Lemma bounded_product (a s A : R) :
  - A <= a <= A -> -1 <= s <= 1 -> - A <= a * s <= A.
Proof. intros Ha Hs. split; nra. Qed.

(** X19. [project] never divides by zero on the wire frame: for every
    state of the viewer and every point with [x], [y] in [-16, 16] and
    height in [0, 1], the divisor [500 - y2] of the perspective lies between
    453 and 547. *)
Theorem project_divisor (v : Viewer) (width height x y z : R) :
  -16 <= x <= 16 -> -16 <= y <= 16 -> 0 <= z <= 1 ->
  453 <= 500 - project_depth v x y z <= 547 /\
  project v width height x y z
  = {| screen_x :=
         (x * cos (angle_z v) - y * sin (angle_z v))
         * (400 / (500 - project_depth v x y z)) * 8 * scale v + width / 2;
       screen_y :=
         - ((x * sin (angle_z v) + y * cos (angle_z v)) * sin (angle_x v)
            + z * 15 * cos (angle_x v))
         * (400 / (500 - project_depth v x y z)) * 8 * scale v
         + height / 1.5 |}.
Proof.
  intros Hx Hy Hz. split; [|reflexivity].
  unfold project_depth.
  pose proof (SIN_bound (angle_z v)) as Hsz.
  pose proof (COS_bound (angle_z v)) as Hcz.
  pose proof (SIN_bound (angle_x v)) as Hsx.
  pose proof (COS_bound (angle_x v)) as Hcx.
  pose proof (bounded_product x (sin (angle_z v)) 16 Hx Hsz) as H1.
  pose proof (bounded_product y (cos (angle_z v)) 16 Hy Hcz) as H2.
  pose proof (bounded_product
                (x * sin (angle_z v) + y * cos (angle_z v))
                (cos (angle_x v)) 32 ltac:(lra) Hcx) as H3.
  pose proof (bounded_product (z * 15) (sin (angle_x v)) 15 ltac:(lra) Hsx)
    as H4.
  lra.
Qed.

Lemma project_divisor_witness :
  453 <= 500 - project_depth initial 16 (-16) 1 <= 547.
Proof.
  apply (project_divisor initial 360 250 16 (-16) 1); lra.
Defined.

End GridFacts.

(* ================================================================== *)
(** ** The 3D viewer: drag and zoom *)
(* ================================================================== *)

Section ViewerMotion.
Import Js PSF3DViewer PSF3DGrid MoreSamples.

Lemma run_cons (v : Viewer) (e : Event) (es : list Event) :
  run v (e :: es) = run (step v e) es.
Proof. reflexivity. Qed.

(** X21. During a drag the animation frames change nothing: the state
    after any mix of pointer moves and frames is the state after the moves
    alone, and the drag is still in progress. *)
Theorem drag_ignores_frames (v : Viewer) (es : list Event) :
  isDragging v = true ->
  forallb is_move_or_frame es = true ->
  run v es = run v (filter is_move es) /\ isDragging (run v es) = true.
Proof.
  revert v. induction es as [|e es IH]; intros v Hd Hes.
  - split; [reflexivity|exact Hd].
  - cbn [forallb] in Hes. apply andb_true_iff in Hes.
    destruct Hes as [He Hes].
    destruct e; try discriminate He; cbn [filter is_move];
      rewrite !run_cons; cbn [step].
    + apply IH; [|exact Hes].
      unfold handleMouseMove. rewrite Hd. reflexivity.
    + unfold animate. rewrite Hd. cbn [negb]. apply IH; assumption.
Qed.

Lemma drag_ignores_frames_witness :
  run (handleMouseDown 10 10 initial)
    [MouseMove 30 10; AnimationFrame; MouseMove 10 10]
  = run (handleMouseDown 10 10 initial) [MouseMove 30 10; MouseMove 10 10].
Proof.
  apply (drag_ignores_frames (handleMouseDown 10 10 initial)
           [MouseMove 30 10; AnimationFrame; MouseMove 10 10]);
    reflexivity.
Defined.

(** X22. Without a pressed button the pointer does nothing: moves, releases
    and leaving the canvas leave the whole state of the viewer unchanged. *)
Theorem pointer_ignored (v : Viewer) (es : list Event) :
  isDragging v = false ->
  forallb is_move_or_release es = true ->
  run v es = v.
Proof.
  intros Hd. induction es as [|e es IH]; intros Hes; [reflexivity|].
  cbn [forallb] in Hes. apply andb_true_iff in Hes.
  destruct Hes as [He Hes]. rewrite run_cons.
  assert (Hstep : step v e = v).
  { destruct e; try discriminate He; cbn [step].
    - unfold handleMouseUp. rewrite <- Hd. destruct v; reflexivity.
    - unfold handleMouseUp. rewrite <- Hd. destruct v; reflexivity.
    - unfold handleMouseMove. rewrite Hd. reflexivity. }
  rewrite Hstep. apply IH. assumption.
Qed.

Lemma pointer_ignored_witness :
  run initial [MouseMove 5 7; MouseUp; MouseLeave; MouseMove 9 1] = initial.
Proof.
  apply (pointer_ignored initial
           [MouseMove 5 7; MouseUp; MouseLeave; MouseMove 9 1]);
    reflexivity.
Defined.

(** X23. The zoom shown in the corner is the zoom in force: from a state
    where [zoomDisplay] equals the scale, as the initial one, it equals the
    scale after every sequence of events. *)
Theorem zoom_display_in_step (v : Viewer) (es : list Event) :
  zoomDisplay v = scale v ->
  zoomDisplay (run v es) = scale (run v es).
Proof.
  revert v. induction es as [|e es IH]; intros v Hz; [exact Hz|].
  rewrite run_cons. apply IH.
  destruct e; cbn [step];
    unfold handleMouseDown, handleMouseUp, handleMouseMove, handleWheel,
      animate, with_azimuth;
    repeat match goal with
      | |- context [if ?b then _ else _] => destruct b
      end;
    cbn [zoomDisplay scale]; first [exact Hz|reflexivity].
Qed.

Lemma zoom_display_in_step_witness :
  zoomDisplay (run initial Samples.session)
  = scale (run initial Samples.session).
Proof. apply (zoom_display_in_step initial Samples.session). reflexivity. Defined.

Lemma wheel_up (deltaY : R) (v : Viewer) :
  deltaY < 0 -> 0.5 <= scale v ->
  scale (handleWheel deltaY v) = Rmin (scale v + 0.1) 3.
Proof.
  intros Hd Hs. unfold handleWheel; cbn [scale].
  destruct (sign_cases deltaY) as (_ & Hneg & _). rewrite (Hneg Hd).
  replace (scale v + - -1 * 0.1) with (scale v + 0.1) by ring.
  rewrite Rmax_right by lra. replace 3.0 with 3 by lra. reflexivity.
Qed.

Lemma wheel_down (deltaY : R) (v : Viewer) :
  0 < deltaY -> scale v <= 3 ->
  scale (handleWheel deltaY v) = Rmax 0.5 (scale v - 0.1).
Proof.
  intros Hd Hs. unfold handleWheel; cbn [scale].
  destruct (sign_cases deltaY) as (Hpos & _ & _). rewrite (Hpos Hd).
  replace (scale v + - (1) * 0.1) with (scale v - 0.1) by ring.
  apply Rmin_left. unfold Rmax. destruct (Rle_dec 0.5 (scale v - 0.1)); lra.
Qed.

(** Over exact arithmetic the wheel steps add up until the bound. *)
Lemma wheel_closed_form (v : Viewer) (deltaY : R) (n : nat) :
  zoom_in_range v ->
  (deltaY < 0 ->
   scale (run v (repeat (Wheel deltaY) n)) = Rmin (scale v + 0.1 * INR n) 3) /\
  (0 < deltaY ->
   scale (run v (repeat (Wheel deltaY) n))
   = Rmax 0.5 (scale v - 0.1 * INR n)).
Proof.
  intros Hz. split; intros Hd.
  - revert v Hz. induction n as [|n IH]; intros v Hz.
    + cbn [repeat run fold_left INR]. unfold zoom_in_range in Hz.
      rewrite Rmin_left by lra. ring.
    + cbn [repeat]. rewrite run_cons. cbn [step].
      rewrite IH.
      * unfold zoom_in_range in Hz. rewrite wheel_up by lra.
        rewrite S_INR. pose proof (pos_INR n) as Hn.
        unfold Rmin. destruct (Rle_dec (scale v + 0.1) 3).
        all: repeat match goal with
          | |- context [Rle_dec ?a ?b] => destruct (Rle_dec a b)
          end; lra.
      * unfold zoom_in_range in *.
        rewrite wheel_up by lra. unfold Rmin.
        destruct (Rle_dec (scale v + 0.1) 3); lra.
  - revert v Hz. induction n as [|n IH]; intros v Hz.
    + cbn [repeat run fold_left INR]. unfold zoom_in_range in Hz.
      rewrite Rmax_right by lra. ring.
    + cbn [repeat]. rewrite run_cons. cbn [step].
      rewrite IH.
      * unfold zoom_in_range in Hz. rewrite wheel_down by lra.
        rewrite S_INR. pose proof (pos_INR n) as Hn.
        unfold Rmax. destruct (Rle_dec 0.5 (scale v - 0.1)).
        all: repeat match goal with
          | |- context [Rle_dec ?a ?b] => destruct (Rle_dec a b)
          end; lra.
      * unfold zoom_in_range in *.
        rewrite wheel_down by lra. unfold Rmax.
        destruct (Rle_dec 0.5 (scale v - 0.1)); lra.
Qed.

(** X24. The wheel drives the zoom to its bounds: from a zoom in [0.5, 3],
    wheel events with [deltaY < 0] never lower the zoom and 26 of them leave
    it at 3; wheel events with [deltaY > 0] never raise it and 26 of them
    leave it at 0.5.  (25 steps of 0.1 span the range; one more covers the
    rounding of the sums.) *)
Theorem wheel_saturates (v : Viewer) (deltaY : R) (n : nat) :
  zoom_in_range v ->
  (deltaY < 0 ->
   scale v <= scale (run v (repeat (Wheel deltaY) n)) /\
   ((26 <= n)%nat -> scale (run v (repeat (Wheel deltaY) n)) = 3)) /\
  (0 < deltaY ->
   scale (run v (repeat (Wheel deltaY) n)) <= scale v /\
   ((26 <= n)%nat -> scale (run v (repeat (Wheel deltaY) n)) = 0.5)).
Proof.
  intros Hz. destruct (wheel_closed_form v deltaY n Hz) as [Hup Hdown].
  pose proof (pos_INR n) as Hn. unfold zoom_in_range in Hz.
  assert (H26 : (26 <= n)%nat -> 26 <= INR n).
  { intros H. apply le_INR in H.
    rewrite (INR_IZR_INZ 26) in H. exact H. }
  split; intros Hd.
  - rewrite (Hup Hd). split.
    + apply Rmin_glb; lra.
    + intros H. apply H26 in H. apply Rmin_right. lra.
  - rewrite (Hdown Hd). split.
    + apply Rmax_lub; lra.
    + intros H. apply H26 in H. apply Rmax_left. lra.
Qed.

Lemma wheel_saturates_witness :
  scale (run initial (repeat (Wheel (-1)) 26)) = 3.
Proof.
  apply (wheel_saturates initial (-1) 26).
  - unfold zoom_in_range, initial; cbn [scale]. lra.
  - lra.
  - lia.
Defined.

End ViewerMotion.

(* ================================================================== *)
(** ** analyzePSF: the payload without its data-URI prefix *)
(* ================================================================== *)

Section Payload.
Import Ascii String GeminiService.
Local Open Scope string_scope.

Lemma has_comma_app (a b : string) :
  has_comma (a ++ b) = has_comma a || has_comma b.
Proof.
  induction a as [|c a IH]; [reflexivity|].
  cbn [append has_comma]. rewrite IH. apply orb_assoc.
Qed.

Lemma append_nil_r (a : string) : a ++ "" = a.
Proof. induction a as [|c a IH]; [reflexivity|]. cbn. now rewrite IH. Qed.

Lemma append_assoc (a b c : string) : (a ++ b) ++ c = a ++ (b ++ c).
Proof. induction a as [|x a IH]; [reflexivity|]. cbn. now rewrite IH. Qed.

Lemma split_on_no_comma (s : string) :
  has_comma s = false ->
  forall current, split_on comma s current = cons (current ++ s) nil.
Proof.
  induction s as [|c s IH]; intros Hs current.
  - cbn. now rewrite append_nil_r.
  - cbn [has_comma] in Hs. apply orb_false_iff in Hs.
    destruct Hs as [Hc Hs]. cbn [split_on]. rewrite Hc.
    rewrite (IH Hs). rewrite append_assoc. reflexivity.
Qed.

Lemma split_on_comma (a b : string) :
  has_comma a = false ->
  forall current,
    split_on comma (a ++ String comma b) current
    = cons (current ++ a) (split_on comma b "").
Proof.
  induction a as [|c a IH]; intros Ha current.
  - cbn [append split_on]. rewrite Ascii.eqb_refl.
    now rewrite append_nil_r.
  - cbn [has_comma] in Ha. apply orb_false_iff in Ha.
    destruct Ha as [Hc Ha]. cbn [append split_on]. rewrite Hc.
    rewrite (IH Ha). rewrite append_assoc. reflexivity.
Qed.

(** Every segment of a split is free of the separator. *)
Lemma split_on_segments (s : string) :
  forall current, has_comma current = false ->
    Forall (fun seg => has_comma seg = false) (split_on comma s current).
Proof.
  induction s as [|c s IH]; intros current Hcur.
  - cbn. constructor; [assumption|constructor].
  - cbn [split_on]. destruct (Ascii.eqb c comma) eqn:Hc.
    + constructor; [assumption|]. apply IH. reflexivity.
    + apply IH. rewrite has_comma_app, Hcur. cbn. now rewrite Hc.
Qed.

Lemma base64Data_cases (s : string) :
  base64Data s = s \/
  (base64Data s <> "" /\ has_comma (base64Data s) = false).
Proof.
  unfold base64Data, split.
  pose proof (split_on_segments s "" eq_refl) as Hseg.
  destruct (split_on comma s "") as [|first [|second rest]];
    [left; reflexivity|left; reflexivity|].
  inversion Hseg as [|? ? _ Hseg']; subst.
  inversion Hseg' as [|? ? Hsecond _]; subst.
  destruct second as [|c second]; [left; reflexivity|].
  right. split; [discriminate|assumption].
Qed.

Lemma base64Data_no_comma (s : string) :
  has_comma s = false -> base64Data s = s.
Proof.
  intros Hs. unfold base64Data, split.
  rewrite (split_on_no_comma s Hs). reflexivity.
Qed.

(** X25. The payload sent to the model is the input without its data-URI
    prefix: a string without a comma is sent as it is; [prefix,payload]
    with a non-empty, comma-free payload is sent as [payload]; whenever the
    input is changed the result holds no comma; and stripping twice is
    stripping once. *)
Theorem base64Data_strip :
  (forall s, has_comma s = false -> base64Data s = s) /\
  (forall prefix payload,
      has_comma prefix = false -> has_comma payload = false ->
      payload <> "" ->
      base64Data (prefix ++ String comma payload) = payload) /\
  (forall s, base64Data s <> s -> has_comma (base64Data s) = false) /\
  (forall s, base64Data (base64Data s) = base64Data s).
Proof.
  split; [exact base64Data_no_comma|]. split; [|split].
  - intros prefix payload Hp Hq Hne. unfold base64Data, split.
    rewrite (split_on_comma prefix payload Hp).
    rewrite (split_on_no_comma payload Hq). cbn [append].
    destruct payload; [contradiction|reflexivity].
  - intros s Hs. destruct (base64Data_cases s) as [E|[_ H]];
      [contradiction|exact H].
  - intros s. destruct (base64Data_cases s) as [E|[_ H]].
    + rewrite E. exact E.
    + apply base64Data_no_comma. exact H.
Qed.

Lemma base64Data_strip_witness :
  base64Data "data:image/png;base64,iVBORw0KGgo=" = "iVBORw0KGgo=".
Proof.
  apply (proj1 (proj2 base64Data_strip) "data:image/png;base64" "iVBORw0KGgo=");
    [reflexivity|reflexivity|discriminate].
Defined.

End Payload.

(* ================================================================== *)
(** ** App: the checks run on a loaded image *)
(* ================================================================== *)

Section AppChecks.
Import Js ImageProcessing Reference App MoreSamples.

(** What the checks come to on a well-formed buffer. *)
Lemma processLocalImage_eq (img : ImageData) (isLogView : bool) :
  wf_image img ->
  exists profile,
    calculateRadialProfile img (fst (centroid (estimateStats img)))
      (snd (centroid (estimateStats img))) 64 = Some profile /\
    Z.of_nat (length profile) = 64%Z /\
    processLocalImage img isLogView
    = [SetStats (estimateStats img)]
      ++ (if checkSaturation img (fst (centroid (estimateStats img)))
               (snd (centroid (estimateStats img))) 3
          then [SetWarning SaturationWarning] else [])
      ++ (if (peakIntensity (estimateStats img) <? 20)%Z
          then [SetError SignalTooWeak]
          else [SetRadialProfile profile;
                GeneratePreview (estimateStats img) isLogView]).
Proof.
  intros Hwf.
  set (cx := fst (centroid (estimateStats img))).
  set (cy := snd (centroid (estimateStats img))).
  pose proof (calculateRadialProfile_eq img cx cy 64 ltac:(lia)) as Hp.
  eexists. split; [exact Hp|]. split.
  - rewrite length_map, length_range. reflexivity.
  - unfold processLocalImage. fold cx cy. rewrite Hp.
    destruct (Z.ltb_spec (peakIntensity (estimateStats img)) 20) as [|Hpeak];
      [reflexivity|].
    destruct (estimateStats_snr_value img Hwf Hpeak) as (r & Hr & Hge).
    rewrite Hr. unfold lt. destruct (Rlt_dec r 3) as [Hlt|_]; [lra|].
    reflexivity.
Qed.

(** X26. The low signal-to-noise error is never raised: an image that
    passes the peak check (20 or more) has a ratio of 10 or more, above the
    threshold of 3. *)
Theorem processLocalImage_snr_check (img : ImageData) (isLogView : bool) :
  wf_image img ->
  ~ In (SetError SnrTooLow) (processLocalImage img isLogView).
Proof.
  intros Hwf Hin.
  destruct (processLocalImage_eq img isLogView Hwf) as (profile & _ & _ & E).
  rewrite E in Hin. clear E.
  apply in_app_or in Hin. destruct Hin as [Hin|Hin].
  - destruct Hin as [Hin|[]]. discriminate Hin.
  - apply in_app_or in Hin. destruct Hin as [Hin|Hin].
    + destruct (checkSaturation _ _ _ _); [|destruct Hin].
      destruct Hin as [Hin|[]]. discriminate Hin.
    + destruct (peakIntensity (estimateStats img) <? 20)%Z.
      * destruct Hin as [Hin|[]]. discriminate Hin.
      * destruct Hin as [Hin|[Hin|[]]]; discriminate Hin.
Qed.

Lemma processLocalImage_snr_check_witness :
  ~ In (SetError SnrTooLow) (processLocalImage Samples.one_star false).
Proof.
  apply (processLocalImage_snr_check Samples.one_star false wf_one_star).
Defined.

(** X27. The outcome of the checks depends on the peak alone.  Below 20
    the image is rejected as too weak and neither a radial profile nor a
    preview is produced; from 20 on a profile of 64 entries is stored and
    the preview is generated with the statistics just computed. *)
Theorem processLocalImage_outcome (img : ImageData) (isLogView : bool) :
  wf_image img ->
  let effects := processLocalImage img isLogView in
  let st := estimateStats img in
  hd_error effects = Some (SetStats st) /\
  ((peakIntensity st < 20)%Z ->
   In (SetError SignalTooWeak) effects /\
   ~ In (GeneratePreview st isLogView) effects /\
   forall profile, ~ In (SetRadialProfile profile) effects) /\
  ((20 <= peakIntensity st)%Z ->
   In (GeneratePreview st isLogView) effects /\
   (forall m, ~ In (SetError m) effects) /\
   exists profile, In (SetRadialProfile profile) effects /\
                   Z.of_nat (length profile) = 64%Z).
Proof.
  intros Hwf effects st. subst effects st.
  destruct (processLocalImage_eq img isLogView Hwf)
    as (profile & _ & Hlen & E).
  rewrite E. clear E. split; [reflexivity|].
  destruct (checkSaturation _ _ _ _);
    (split; intros Hpeak;
     [apply Z.ltb_lt in Hpeak|apply Z.ltb_ge in Hpeak]; rewrite Hpeak;
     cbn [app In]).
  - split; [auto|]. split.
    + intros [H|[H|[H|[]]]]; discriminate H.
    + intros p [H|[H|[H|[]]]]; discriminate H.
  - split; [auto|]. split.
    + intros m [H|[H|[H|[H|[]]]]]; discriminate H.
    + exists profile. split; [auto|exact Hlen].
  - split; [auto|]. split.
    + intros [H|[H|[]]]; discriminate H.
    + intros p [H|[H|[]]]; discriminate H.
  - split; [auto|]. split.
    + intros m [H|[H|[H|[]]]]; discriminate H.
    + exists profile. split; [auto|exact Hlen].
Qed.

Lemma processLocalImage_outcome_witness :
  In (GeneratePreview (estimateStats Samples.one_star) false)
     (processLocalImage Samples.one_star false).
Proof.
  apply (processLocalImage_outcome Samples.one_star false wf_one_star).
  unfold estimateStats; cbn [peakIntensity].
  apply Zfloor_lub. pose proof one_star_peak. lra.
Defined.

(** A pixel with a channel at 250 or more has a luminosity of 250 / 3 or
    more. *)
Lemma saturated_luminosity (img : ImageData) (px py : Z) :
  wf_image img -> saturated img (px, py) = true ->
  250 / 3 <= luminosity img px py.
Proof.
  intros Hwf Hsat. rewrite luminosity_rgb_sum. unfold rgb_sum.
  pose proof (channel_range img px py 0 Hwf) as H0.
  pose proof (channel_range img px py 1 Hwf) as H1.
  pose proof (channel_range img px py 2 Hwf) as H2.
  unfold saturated in Hsat.
  assert (Hsum : (250 <= channel img px py 0 + channel img px py 1
                         + channel img px py 2)%Z).
  { apply orb_true_iff in Hsat. destruct Hsat as [Hsat|Hsat];
      [apply orb_true_iff in Hsat; destruct Hsat as [Hsat|Hsat]|];
      apply Z.leb_le in Hsat; lia. }
  apply IZR_le in Hsum. lra.
Qed.

(** X28. A saturation warning and the weak-signal error exclude each
    other: a centre reported as saturated has pixels with a channel at 250
    or more, so the peak is 83 or more and passes the check. *)
Theorem processLocalImage_saturated (img : ImageData) (isLogView : bool) :
  wf_image img ->
  In (SetWarning SaturationWarning) (processLocalImage img isLogView) ->
  (83 <= peakIntensity (estimateStats img))%Z /\
  ~ In (SetError SignalTooWeak) (processLocalImage img isLogView).
Proof.
  intros Hwf Hin.
  destruct (processLocalImage_eq img isLogView Hwf) as (profile & _ & _ & E).
  rewrite E in Hin |- *. clear E.
  set (cx := fst (centroid (estimateStats img))) in *.
  set (cy := snd (centroid (estimateStats img))) in *.
  assert (Hsat : checkSaturation img cx cy 3 = true).
  { destruct (checkSaturation img cx cy 3); [reflexivity|].
    exfalso. cbn [app] in Hin. destruct Hin as [H|Hin]; [discriminate H|].
    destruct (peakIntensity (estimateStats img) <? 20)%Z.
    - destruct Hin as [H|[]]. discriminate H.
    - destruct Hin as [H|[H|[]]]; discriminate H. }
  assert (Hpeak : (83 <= peakIntensity (estimateStats img))%Z).
  { unfold checkSaturation in Hsat. rewrite saturation_scan_count in Hsat.
    apply Z.ltb_lt in Hsat. unfold saturated_count in Hsat.
    destruct (filter (saturated img) (scanned_region img cx cy 3))
      as [|[px py] rest] eqn:Ef; [cbn in Hsat; lia|].
    assert (Hp : In (px, py)
                   (filter (saturated img) (scanned_region img cx cy 3)))
      by (rewrite Ef; left; reflexivity).
    apply filter_In in Hp. destruct Hp as [Hreg Hs].
    apply in_scanned_region in Hreg. destruct Hreg as (_ & _ & Hx & Hy).
    pose proof (saturated_luminosity img px py Hwf Hs) as Hl.
    pose proof (proj1 (calculateCentroid_maxVal_spec img Hwf) px py Hx Hy)
      as Hm.
    unfold estimateStats; cbn [peakIntensity].
    apply Zfloor_lub. lra. }
  split; [exact Hpeak|].
  rewrite Hsat.
  destruct (Z.ltb_spec (peakIntensity (estimateStats img)) 20) as [Hlt|_];
    [lia|].
  cbn [app In]. intros [H|[H|[H|[H|[]]]]]; discriminate H.
Qed.

Lemma wf_white : wf_image white.
Proof. unfold white. solve_wf_image. Defined.

Lemma white_centroid :
  calculateCentroid white = {| x := 1; y := 1; maxVal := 255 |}.
Proof.
  rewrite (centroid_of_uniform white 255 wf_white ltac:(lra)).
  - cbn [white width height]. f_equal; lra.
  - intros px py Hx Hy. cbn [white width height] in Hx, Hy.
    assert (Hpx : (px = 0 \/ px = 1 \/ px = 2)%Z) by lia.
    assert (Hpy : (py = 0 \/ py = 1 \/ py = 2)%Z) by lia.
    destruct Hpx as [-> | [-> | ->]], Hpy as [-> | [-> | ->]];
      change (luminosity _ _ _) with ((255 + 255 + 255) / 3); lra.
Qed.

Lemma square_1_1_3 :
  square 1 1 3
  = flat_map (fun py => map (fun px => (px, py)) (range (-2) 5)) (range (-2) 5).
Proof.
  unfold square.
  replace (1 - 3) with (IZR (-2)) by lra.
  replace (1 + 3) with (IZR 4) by lra.
  rewrite ZfloorZ. unfold Zceil.
  replace (- IZR 4) with (IZR (-4)) by lra.
  rewrite ZfloorZ. reflexivity.
Qed.

Lemma white_saturated : checkSaturation white 1 1 3 = true.
Proof.
  unfold checkSaturation. rewrite saturation_scan_count.
  unfold saturated_count, scanned_region. rewrite square_1_1_3.
  vm_compute. reflexivity.
Qed.

Lemma white_warning :
  In (SetWarning SaturationWarning) (processLocalImage white false).
Proof.
  destruct (processLocalImage_eq white false wf_white) as (profile & _ & _ & E).
  rewrite E. unfold estimateStats; cbn [centroid fst snd].
  rewrite white_centroid; cbn [x y]. rewrite white_saturated.
  right. left. reflexivity.
Qed.

Lemma processLocalImage_saturated_witness :
  (83 <= peakIntensity (estimateStats white))%Z /\
  ~ In (SetError SignalTooWeak) (processLocalImage white false).
Proof.
  apply (processLocalImage_saturated white false wf_white white_warning).
Defined.

End AppChecks.


(* ================================================================== *)
(** ** calculateCentroid in double precision: the single lit pixel *)
(* ================================================================== *)

Section DoubleCentroid.
Import Js ImageProcessing MoreSamples.
Import PrimFloat FloatOps FloatAxioms SpecFloat.

Lemma forallb_range (f : Z -> bool) (lo hi i : Z) :
  forallb f (range lo hi) = true -> (lo <= i < hi)%Z -> f i = true.
Proof.
  intros H Hi. rewrite forallb_forall in H. apply H. now apply in_range.
Qed.

(** Sums of channel values are exact. *)
Lemma sums_exact :
  forallb (fun a => forallb (Double.sum_exact a) (range 0 256)) (range 0 511)
  = true.
Proof. vm_compute. reflexivity. Qed.

Lemma of_Z_add (a b : Z) :
  (0 <= a <= 510)%Z -> (0 <= b <= 255)%Z ->
  (Double.of_Z a + Double.of_Z b)%float = Double.of_Z (a + b).
Proof.
  intros Ha Hb.
  pose proof (forallb_range _ 0 511 a sums_exact ltac:(lia)) as H.
  cbv beta in H.
  pose proof (forallb_range _ 0 256 b H ltac:(lia)) as H'.
  apply Leibniz.eqb_spec. exact H'.
Qed.

Lemma levels_ok : forallb Double.level_ok (range 1 766) = true.
Proof. vm_compute. reflexivity. Qed.

Lemma level_facts (s : Z) :
  (1 <= s <= 765)%Z ->
  let i := Double.level s in
  (0 <? i)%float = true /\ (i * Double.fifth <? i)%float = true /\
  (i <? 0)%float = false /\ (i * Double.fifth <? 0)%float = false /\
  (0 + i)%float = i /\ (i =? 0)%float = false /\
  Double.sign_clear i = true.
Proof.
  intros Hs i.
  pose proof (forallb_range _ 1 766 s levels_ok ltac:(lia)) as H.
  unfold Double.level_ok in H. fold i in H.
  repeat (apply andb_true_iff in H; destruct H as [H ?]).
  repeat match goal with
    | H : negb _ = true |- _ => apply negb_true_iff in H
    end.
  repeat split; try assumption.
  apply Leibniz.eqb_spec. assumption.
Qed.

Lemma whole_levels_ok : forallb Double.whole_level_ok (range 1 256) = true.
Proof. vm_compute. reflexivity. Qed.

Lemma level_whole (k : Z) :
  (1 <= k <= 255)%Z -> Double.level (3 * k) = Double.of_Z k.
Proof.
  intros Hk. apply Leibniz.eqb_spec.
  exact (forallb_range _ 1 256 k whole_levels_ok ltac:(lia)).
Qed.

Lemma all_from_spec (f : Z -> bool) (n : nat) :
  forall z i, Double.all_from f n z = true ->
              (z <= i < z + Z.of_nat n)%Z -> f i = true.
Proof.
  induction n as [|n IH]; intros z i H Hi; [lia|].
  cbn [Double.all_from] in H. apply andb_true_iff in H. destruct H as [Hz H].
  destruct (Z.eq_dec i z) as [->|Hne]; [exact Hz|].
  apply (IH (z + 1)%Z); [exact H|lia].
Qed.

(** For a whole luminosity the product and the quotient are exact. *)
Lemma coordinates_ok :
  Double.all_from Double.coordinate_ok (Z.to_nat 32768) 0 = true.
Proof. vm_compute. reflexivity. Qed.

Lemma quotient_whole (x0 k : Z) :
  (0 <= x0 < 32768)%Z -> (1 <= k <= 255)%Z ->
  (Double.of_Z x0 * Double.level (3 * k) / Double.level (3 * k))%float
  = Double.of_Z x0.
Proof.
  intros Hx Hk.
  pose proof (all_from_spec _ _ 0 x0 coordinates_ok ltac:(lia)) as H.
  unfold Double.coordinate_ok in H. cbv zeta in H. rewrite forallb_forall in H.
  apply Leibniz.eqb_spec. apply H.
  change Double.whole_levels with
    (map (fun j => Double.level (3 * j)) (range 1 256)).
  apply (in_map (fun j => Double.level (3 * j))). apply in_range. lia.
Qed.

(** Adding to zero: the sum is the other operand unless that is [-0]. *)
Lemma zero_plus (f : float) :
  Prim2SF f <> S754_zero true -> (0 + f)%float = f.
Proof.
  intros Hf. apply Prim2SF_inj. rewrite add_spec.
  change (Prim2SF 0) with (S754_zero false).
  unfold SF64add, SFadd.
  destruct (Prim2SF f) as [s|s| |s m e]; try reflexivity.
  destruct s; [contradiction|reflexivity].
Qed.

(** Rounding keeps the sign it is given. *)
Lemma binary_round_aux_sign (sx : bool) (mx ex : Z) (lx : location) :
  Double.sign_is sx (binary_round_aux prec emax sx mx ex lx).
Proof.
  unfold binary_round_aux.
  destruct (shr_fexp prec emax mx ex lx) as [mrs' e'].
  destruct (shr_fexp prec emax _ e' loc_Exact) as [mrs'' e''].
  destruct (shr_m mrs''); [reflexivity| |exact I].
  destruct (e'' <=? emax - prec)%Z; reflexivity.
Qed.

Lemma of_Z_sign (z : Z) : Double.sign_is false (Prim2SF (Double.of_Z z)).
Proof.
  unfold Double.of_Z. rewrite of_uint63_spec.
  pose proof (Uint63.to_Z_bounded (Uint63.of_Z z)) as [H0 _].
  unfold binary_normalize.
  destruct (Uint63.to_Z (Uint63.of_Z z)) as [|m|m]; [reflexivity| |lia].
  unfold binary_round.
  destruct (shl_align m 0 _) as [mz ez]. apply binary_round_aux_sign.
Qed.

Lemma sign_clear_spec (f : float) :
  Double.sign_clear f = true -> Double.sign_is false (Prim2SF f).
Proof.
  unfold Double.sign_clear, Double.sign_is.
  destruct (Prim2SF f) as [s|s| |s m e]; try (destruct s; cbn; congruence).
  intros _. exact I.
Qed.

Lemma product_not_minus_zero (a b : float) :
  Double.sign_is false (Prim2SF a) -> Double.sign_is false (Prim2SF b) ->
  Prim2SF (a * b) <> S754_zero true.
Proof.
  intros Ha Hb. rewrite mul_spec. unfold SF64mul, SFmul.
  destruct (Prim2SF a) as [sa|sa| |sa ma ea];
    destruct (Prim2SF b) as [sb|sb| |sb mb eb];
    cbn in Ha, Hb; subst; cbn; try discriminate.
  pose proof (binary_round_aux_sign false (Z.pos (ma * mb)) (ea + eb) loc_Exact)
    as Hs.
  destruct (binary_round_aux prec emax false _ _ _); cbn in Hs;
    try discriminate. subst. discriminate.
Qed.

Lemma zero_plus_product (z : Z) (i : float) :
  Double.sign_clear i = true ->
  (0 + Double.of_Z z * i)%float = (Double.of_Z z * i)%float.
Proof.
  intros Hi. apply zero_plus. apply product_not_minus_zero.
  - apply of_Z_sign.
  - apply sign_clear_spec. assumption.
Qed.

(** The luminosity of a pixel is the level of its channel sum. *)
Lemma double_luminosity (img : ImageData) (px py : Z) :
  wf_image img ->
  Double.luminosity img px py = Double.level (rgb_sum img px py).
Proof.
  intros Hwf.
  pose proof (channel_range img px py 0 Hwf) as H0.
  pose proof (channel_range img px py 1 Hwf) as H1.
  pose proof (channel_range img px py 2 Hwf) as H2.
  unfold Double.luminosity, Double.mean3, Double.level, rgb_sum.
  unfold channel in *. rewrite Z.add_0_r in *.
  rewrite of_Z_add by lia. rewrite of_Z_add by lia. reflexivity.
Qed.

Lemma rgb_sum_range (img : ImageData) (px py : Z) :
  wf_image img -> (0 <= rgb_sum img px py <= 765)%Z.
Proof.
  intros Hwf.
  pose proof (channel_range img px py 0 Hwf).
  pose proof (channel_range img px py 1 Hwf).
  pose proof (channel_range img px py 2 Hwf).
  unfold rgb_sum. lia.
Qed.

Lemma double_body_black (img : ImageData) (py px : Z)
  (s : Double.CentroidVars) :
  Double.luminosity img px py = 0%float -> Double.quiet s ->
  Double.centroid_body img py px s = s.
Proof.
  unfold Double.luminosity, Double.centroid_body. intros -> [H1 H2].
  rewrite H1, H2. destruct s; reflexivity.
Qed.

Lemma double_body_first (img : ImageData) (py px : Z) (i : float) :
  Double.luminosity img px py = i ->
  (0 <? i)%float = true -> (i * Double.fifth <? i)%float = true ->
  (0 + i)%float = i -> Double.sign_clear i = true ->
  Double.centroid_body img py px Double.centroid_init
  = {| Double.totalMass := i;
       Double.sumX := (Double.of_Z px * i)%float;
       Double.sumY := (Double.of_Z py * i)%float;
       Double.runMax := i |}.
Proof.
  unfold Double.luminosity, Double.centroid_body. intros -> H1 H2 H3 H4.
  cbn [Double.runMax Double.totalMass Double.sumX Double.sumY
       Double.centroid_init].
  rewrite H1, H2, H3, !zero_plus_product by assumption. reflexivity.
Qed.

Lemma double_row_black (img : ImageData) (py lo hi : Z)
  (s : Double.CentroidVars) :
  (forall px, (lo <= px < hi)%Z -> Double.luminosity img px py = 0%float) ->
  Double.quiet s ->
  for_ (range lo hi) (Double.centroid_body img py) s = s.
Proof.
  intros Hz Hq. apply for_fixed. intros px Hpx.
  apply double_body_black; [|exact Hq]. apply Hz. now apply in_range.
Qed.

Lemma double_rows_black (img : ImageData) (lo hi : Z)
  (s : Double.CentroidVars) :
  (forall px py, (0 <= px < width img)%Z -> (lo <= py < hi)%Z ->
                 Double.luminosity img px py = 0%float) ->
  Double.quiet s ->
  for_ (range lo hi) (Double.centroid_row img) s = s.
Proof.
  intros Hz Hq. apply for_fixed. intros py Hpy.
  apply double_row_black; [|exact Hq].
  intros px Hpx. apply Hz; [exact Hpx|]. now apply in_range.
Qed.

Lemma quiet_init : Double.quiet Double.centroid_init.
Proof. split; reflexivity. Qed.

(** The variables after the scan of a buffer with one lit pixel. *)
Lemma double_scan_single (img : ImageData) (x0 y0 : Z) :
  wf_image img ->
  (0 <= x0 < width img)%Z -> (0 <= y0 < height img)%Z ->
  (0 < rgb_sum img x0 y0)%Z ->
  (forall px py, (0 <= px < width img)%Z -> (0 <= py < height img)%Z ->
                 (px, py) <> (x0, y0) -> rgb_sum img px py = 0%Z) ->
  Double.centroid_scan img
  = {| Double.totalMass := Double.luminosity img x0 y0;
       Double.sumX := (Double.of_Z x0 * Double.luminosity img x0 y0)%float;
       Double.sumY := (Double.of_Z y0 * Double.luminosity img x0 y0)%float;
       Double.runMax := Double.luminosity img x0 y0 |}.
Proof.
  intros Hwf Hx Hy Hlit Hblack.
  pose proof (rgb_sum_range img x0 y0 Hwf) as Hs.
  destruct (level_facts (rgb_sum img x0 y0) ltac:(lia))
    as (F1 & F2 & F3 & F4 & F5 & _ & F7).
  rewrite <- (double_luminosity img x0 y0 Hwf) in F1, F2, F3, F4, F5, F7.
  set (i := Double.luminosity img x0 y0) in *.
  assert (Hblack' : forall px py,
            (0 <= px < width img)%Z -> (0 <= py < height img)%Z ->
            (px, py) <> (x0, y0) -> Double.luminosity img px py = 0%float).
  { intros px py Hpx Hpy Hne.
    rewrite (double_luminosity img px py Hwf), (Hblack px py Hpx Hpy Hne).
    reflexivity. }
  assert (Hq : Double.quiet {| Double.totalMass := i;
                        Double.sumX := (Double.of_Z x0 * i)%float;
                        Double.sumY := (Double.of_Z y0 * i)%float;
                        Double.runMax := i |}) by (split; assumption).
  assert (Hne_y : forall px py, (py <> y0)%Z -> (px, py) <> (x0, y0))
    by (intros px py Hne E; inversion E; lia).
  assert (Hne_x : forall px py, (px <> x0)%Z -> (px, py) <> (x0, y0))
    by (intros px py Hne E; inversion E; lia).
  unfold Double.centroid_scan.
  rewrite (range_split 0 y0 (height img)) by lia.
  rewrite for_app, for_cons.
  rewrite (double_rows_black img 0 y0 Double.centroid_init); cycle 1.
  { intros px py Hpx Hpy. apply Hblack'; [lia|lia|apply Hne_y; lia]. }
  { exact quiet_init. }
  unfold Double.centroid_row at 2.
  rewrite (range_split 0 x0 (width img)) by lia.
  rewrite for_app, for_cons.
  rewrite (double_row_black img y0 0 x0 Double.centroid_init); cycle 1.
  { intros px Hpx. apply Hblack'; [lia|lia|apply Hne_x; lia]. }
  { exact quiet_init. }
  rewrite (double_body_first img y0 x0 i eq_refl F1 F2 F5 F7).
  rewrite (double_row_black img y0 (x0 + 1) (width img)); cycle 1.
  { intros px Hpx. apply Hblack'; [lia|lia|apply Hne_x; lia]. }
  { exact Hq. }
  apply double_rows_black; [|exact Hq].
  intros px py Hpx Hpy. apply Hblack'; [lia|lia|apply Hne_y; lia].
Qed.

Lemma double_single_pixel (img : ImageData) (x0 y0 : Z) :
  wf_image img ->
  (0 <= x0 < width img)%Z -> (0 <= y0 < height img)%Z ->
  (0 < rgb_sum img x0 y0)%Z ->
  (forall px py, (0 <= px < width img)%Z -> (0 <= py < height img)%Z ->
                 (px, py) <> (x0, y0) -> rgb_sum img px py = 0%Z) ->
  Double.calculateCentroid img
  = {| Double.x := (Double.of_Z x0 * Double.luminosity img x0 y0
                    / Double.luminosity img x0 y0)%float;
       Double.y := (Double.of_Z y0 * Double.luminosity img x0 y0
                    / Double.luminosity img x0 y0)%float;
       Double.maxVal := Double.luminosity img x0 y0 |}.
Proof.
  intros Hwf Hx Hy Hlit Hblack. unfold Double.calculateCentroid.
  rewrite (double_scan_single img x0 y0 Hwf Hx Hy Hlit Hblack).
  cbn [Double.totalMass Double.sumX Double.sumY Double.runMax].
  pose proof (rgb_sum_range img x0 y0 Hwf) as Hs.
  destruct (level_facts (rgb_sum img x0 y0) ltac:(lia))
    as (_ & _ & _ & _ & _ & F6 & _).
  rewrite <- (double_luminosity img x0 y0 Hwf) in F6. rewrite F6.
  reflexivity.
Qed.

(** In doubles the quotient [(x0 * I) / I] is not always [x0]: the pixel
    (1, 0, 0) at column 7 has its centroid at 6.999999999999999. *)
Lemma calculateCentroid_single_pixel_inexact :
  wf_image faint_red /\
  (0 < rgb_sum faint_red 7 0)%Z /\
  (forall px py, (0 <= px < width faint_red)%Z ->
                 (0 <= py < height faint_red)%Z ->
                 (px, py) <> (7, 0)%Z -> rgb_sum faint_red px py = 0%Z) /\
  Double.calculateCentroid faint_red
  = {| Double.x := 0x1.bffffffffffffp+2%float;
       Double.y := 0%float;
       Double.maxVal := 0x1.5555555555555p-2%float |} /\
  (Double.x (Double.calculateCentroid faint_red) =? 7)%float = false /\
  (Double.x (Double.calculateCentroid faint_red) <? 7)%float = true.
Proof.
  split; [unfold faint_red; solve_wf_image|].
  split; [vm_compute; reflexivity|]. split.
  - intros px py Hpx Hpy Hne. cbn [faint_red width height] in Hpx, Hpy.
    assert (Hy : py = 0%Z) by lia. subst py.
    assert (Hc : (px = 0 \/ px = 1 \/ px = 2 \/ px = 3 \/ px = 4 \/ px = 5
                  \/ px = 6 \/ px = 7)%Z) by lia.
    repeat (destruct Hc as [-> | Hc]; [reflexivity|]).
    subst px. contradiction Hne; reflexivity.
  - repeat split; vm_compute; reflexivity.
Qed.

(** C1. A buffer whose only lit pixel is at [(x0, y0)] has [maxVal] the
    intensity [I] of that pixel (a third of its channel sum) and its
    centroid at [((x0 * I) / I, (y0 * I) / I)], each operation rounded to
    double: the streaming threshold against the peak seen so far drops no
    part of the pixel.  The centroid is exactly [(x0, y0)] in exact
    arithmetic, and in doubles when the channel sum is a multiple of 3
    (for coordinates below 32768). *)
Theorem calculateCentroid_single_pixel_doubles (img : ImageData) (x0 y0 : Z) :
  wf_image img ->
  (0 <= x0 < width img)%Z -> (0 <= y0 < height img)%Z ->
  (0 < rgb_sum img x0 y0)%Z ->
  (forall px py, (0 <= px < width img)%Z -> (0 <= py < height img)%Z ->
                 (px, py) <> (x0, y0) -> rgb_sum img px py = 0%Z) ->
  let I := (Double.of_Z (rgb_sum img x0 y0) / 3)%float in
  Double.calculateCentroid img
  = {| Double.x := (Double.of_Z x0 * I / I)%float;
       Double.y := (Double.of_Z y0 * I / I)%float;
       Double.maxVal := I |} /\
  (forall k, rgb_sum img x0 y0 = (3 * k)%Z ->
             (x0 < 32768)%Z -> (y0 < 32768)%Z ->
             Double.calculateCentroid img
             = {| Double.x := Double.of_Z x0;
                  Double.y := Double.of_Z y0;
                  Double.maxVal := Double.of_Z k |}) /\
  ImageProcessing.x (ImageProcessing.calculateCentroid img) = IZR x0 /\
  ImageProcessing.y (ImageProcessing.calculateCentroid img) = IZR y0 /\
  ImageProcessing.maxVal (ImageProcessing.calculateCentroid img)
  = (IZR (rgb_sum img x0 y0) / 3)%R.
Proof.
  intros Hwf Hx Hy Hlit Hblack I.
  pose proof (double_single_pixel img x0 y0 Hwf Hx Hy Hlit Hblack) as E.
  rewrite (double_luminosity img x0 y0 Hwf) in E.
  fold (Double.level (rgb_sum img x0 y0)) in I. fold I in E.
  split; [exact E|]. split.
  - intros k Hk Hx0 Hy0. rewrite E. subst I.
    pose proof (rgb_sum_range img x0 y0 Hwf) as Hs.
    rewrite Hk. rewrite !quotient_whole by lia.
    rewrite level_whole by lia. reflexivity.
  - destruct (calculateCentroid_single_pixel img x0 y0 Hwf Hx Hy Hlit Hblack)
      as (Ex & Ey & Em).
    rewrite luminosity_rgb_sum in Em. repeat split; assumption.
Qed.

Lemma calculateCentroid_single_pixel_doubles_witness :
  Double.calculateCentroid Samples.one_star
  = {| Double.x := Double.of_Z 2;
       Double.y := Double.of_Z 1;
       Double.maxVal := Double.of_Z 60 |}.
Proof.
  apply (calculateCentroid_single_pixel_doubles Samples.one_star 2 1).
  - exact wf_one_star.
  - cbn; lia.
  - cbn; lia.
  - vm_compute; reflexivity.
  - cbn [width height Samples.one_star]. intros px py Hpx Hpy Hne.
    assert (Hx : (px = 0 \/ px = 1 \/ px = 2)%Z) by lia.
    assert (Hy : (py = 0 \/ py = 1)%Z) by lia.
    destruct Hx as [-> | [-> | ->]], Hy as [-> | ->];
      try reflexivity.
    contradiction Hne; reflexivity.
  - vm_compute; reflexivity.
  - lia.
  - lia.
Defined.

End DoubleCentroid.
